(** * Synpatico client: negotiation core, usage worker and tracking proxy

    A shallow embedding of the TypeScript sources

      - [src/core.ts]            (createCore: acceptIdHint, markOrigin,
                                  handleOptimizedPacketResponse,
                                  learnFromJsonResponse, synpaticoFetch,
                                  clearCache),
      - [src/utils.ts]           (isPlainObject, byteLen),
      - [src/registry.ts]        (createRegistry),
      - [lib/sdk/usageWorker.ts] (bucketKey, handleMsg),
      - [src/proxy.ts]           (createTrackingProxy and its [get] trap),
      - the monkey patch         (registryKey, shouldOptimize, configure and
                                  the request side of patchedFetch and of
                                  the patched XHR send),
      - [lib/analytics/index.ts] (createAnalytics: init, setEnabled,
                                  trackAccess, trackRequest, flushNow, reset),
      - [lib/analytics/worker.ts] (record, flush, reset, onmessage),
      - [src/patch.ts]           (patchGlobals and its unpatch),

    together with the properties of the specification that can be stated
    over it.  JavaScript [Map]s are [gmap]s, [Set]s are [gset]s, promises
    that may reject are results in an explicit state-and-rejection monad. *)

From Stdlib Require Import ZArith String Ascii List Lia.
From Stdlib Require QArith.
From stdpp Require Import base option list gmap strings fin_maps pretty.

Local Open Scope string_scope.
Local Open Scope nat_scope.
Local Open Scope list_scope.
Set Warnings "-register-all".

(* ===================================================================== *)
(** * lib/sdk/usageWorker.ts *)
(* ===================================================================== *)

Module UsageWorker.

(** [type TelemetryMsg = MsgStrings | MsgOrdinals].  The timestamp [ts]
    is carried but never read by [handleMsg]. *)
Inductive TelemetryMsg :=
| MsgStrings (structureId endpoint : string) (ts : Z) (paths : list string)
| MsgOrdinals (structureId endpoint : string) (ts : Z) (ordinals : list N).

Definition msg_structureId (msg : TelemetryMsg) : string :=
  match msg with
  | MsgStrings sid _ _ _ | MsgOrdinals sid _ _ _ => sid
  end.

Definition msg_endpoint (msg : TelemetryMsg) : string :=
  match msg with
  | MsgStrings _ ep _ _ | MsgOrdinals _ ep _ _ => ep
  end.

(** [const buckets = new Map<string, Map<string, number>>()] *)
Abbreviation Bucket := (gmap string N).
Abbreviation Buckets := (gmap string (gmap string N)).

Definition MAX_PATHS_PER_BUCKET : nat := 5000.

(** [const bucketKey = (sid, ep) => `${sid}@@${ep}`] *)
Definition bucketKey (sid ep : string) : string := sid +:+ "@@" +:+ ep.

(** One iteration of the loop body
    [if (!bucket.has(p) && bucket.size >= MAX_PATHS_PER_BUCKET) continue;
     bucket.set(p, (bucket.get(p) || 0) + 1)]. *)
Definition recordPath (bucket : Bucket) (p : string) : Bucket :=
  if bool_decide (bucket !! p = None) && Nat.leb MAX_PATHS_PER_BUCKET (size bucket)
  then bucket
  else <[p := (default 0%N (bucket !! p) + 1)%N]> bucket.

(** [for (const p of msg.paths) ...] *)
Definition recordPaths (bucket : Bucket) (ps : list string) : Bucket :=
  foldl recordPath bucket ps.

(** [String(ord)] on a non-negative integer ordinal below 10^21, which
    [String] prints with all its digits. *)
Definition String_of_ordinal (ord : N) : string := pretty ord.

(** The paths a message contributes, in iteration order. *)
Definition msg_paths (msg : TelemetryMsg) : list string :=
  match msg with
  | MsgStrings _ _ _ paths => paths
  | MsgOrdinals _ _ _ ordinals => String_of_ordinal <$> ordinals
  end.

(** [handleMsg]: the bucket is fetched, or created empty and stored, and
    then updated in place by the loop. *)
Definition handleMsg (buckets : Buckets) (msg : TelemetryMsg) : Buckets :=
  let key := bucketKey (msg_structureId msg) (msg_endpoint msg) in
  let bucket := default ∅ (buckets !! key) in
  <[key := recordPaths bucket (msg_paths msg)]> buckets.

(** [flush]: the payload is the list of the buckets' entries, and the
    table is emptied ([buckets.clear()]; on an empty table [flush] returns
    at once).  The POST that follows does not touch [buckets]. *)
Definition flush (buckets : Buckets) : list (string * list (string * N)) * Buckets :=
  ((λ kb, (kb.1, map_to_list kb.2)) <$> map_to_list buckets, ∅).

(** What the worker reacts to: [self.onmessage], and the interval timer or
    the [pagehide] listener, both of which call [flush]. *)
Inductive WorkerEvent :=
| OnMessage (msg : TelemetryMsg)
| Flush.

Definition step (buckets : Buckets) (ev : WorkerEvent) : Buckets :=
  match ev with
  | OnMessage msg => handleMsg buckets msg
  | Flush => (flush buckets).2
  end.

(** The worker's table after a sequence of events, starting from the
    module's initial [buckets] (an empty map). *)
Definition run (evs : list WorkerEvent) : Buckets :=
  foldl step ∅ evs.

(** Every bucket of the table is within the cap. *)
Definition bounded (buckets : Buckets) : Prop :=
  map_Forall (λ _ (b : Bucket), size b ≤ MAX_PATHS_PER_BUCKET) buckets.

(** The bucket of [(sid, ep)] while a message for it is being handled,
    after the paths [seen] of that message have gone through the loop. *)
Definition bucketDuring (evs : list WorkerEvent) (sid ep : string)
    (seen : list string) : Bucket :=
  recordPaths (default ∅ (run evs !! bucketKey sid ep)) seen.

End UsageWorker.

Module UsageWorkerFacts.
Import UsageWorker.

Lemma recordPath_size_le (b : Bucket) p :
  size b ≤ MAX_PATHS_PER_BUCKET → size (recordPath b p) ≤ MAX_PATHS_PER_BUCKET.
Proof.
  intros Hb. unfold recordPath.
  destruct (b !! p) as [c|] eqn:Hp.
  - rewrite bool_decide_eq_false_2 by congruence. rewrite andb_false_l.
    rewrite map_size_insert_Some by eauto. exact Hb.
  - rewrite bool_decide_eq_true_2 by reflexivity. rewrite andb_true_l.
    destruct (Nat.leb_spec MAX_PATHS_PER_BUCKET (size b)) as [Hle|Hlt]; [exact Hb|].
    rewrite map_size_insert_None by exact Hp. lia.
Qed.

Lemma recordPaths_size_le ps : ∀ b : Bucket,
  size b ≤ MAX_PATHS_PER_BUCKET → size (recordPaths b ps) ≤ MAX_PATHS_PER_BUCKET.
Proof.
  induction ps as [|p ps IH]; intros b Hb; [exact Hb|].
  change (recordPaths b (p :: ps)) with (recordPaths (recordPath b p) ps).
  apply IH, recordPath_size_le, Hb.
Qed.

Lemma handleMsg_bounded bs msg : bounded bs → bounded (handleMsg bs msg).
Proof.
  intros Hbs. unfold handleMsg, bounded.
  apply map_Forall_insert_2; [|exact Hbs].
  apply recordPaths_size_le.
  destruct (bs !! _) as [b|] eqn:Hk; unfold default.
  - exact (Hbs _ _ Hk).
  - rewrite map_size_empty. lia.
Qed.

Lemma step_bounded bs ev : bounded bs → bounded (step bs ev).
Proof.
  destruct ev as [msg|]; intros Hbs.
  - apply handleMsg_bounded, Hbs.
  - apply map_Forall_empty.
Qed.

Lemma foldl_step_bounded evs : ∀ bs, bounded bs → bounded (foldl step bs evs).
Proof.
  induction evs as [|ev evs IH]; intros bs Hbs; [exact Hbs|].
  change (foldl step bs (ev :: evs)) with (foldl step (step bs ev) evs).
  apply IH, step_bounded, Hbs.
Qed.

Lemma run_bounded evs : bounded (run evs).
Proof. apply foldl_step_bounded, map_Forall_empty. Qed.

Lemma recordPath_saturated (b : Bucket) p :
  b !! p = None → MAX_PATHS_PER_BUCKET ≤ size b → recordPath b p = b.
Proof.
  intros Hp Hfull. unfold recordPath.
  rewrite bool_decide_eq_true_2 by exact Hp. rewrite andb_true_l.
  destruct (Nat.leb_spec MAX_PATHS_PER_BUCKET (size b)); [reflexivity|lia].
Qed.

(** C8.  Whatever events the worker has processed, and however far it is
    into the paths of the message at hand, the bucket of a
    (structureId, endpoint) pair holds at most [MAX_PATHS_PER_BUCKET] = 5000
    distinct paths, and so does every bucket between two messages.  A path
    that is new to a saturated bucket leaves the bucket as it is, and the
    loop goes on with the rest of the message. *)
Theorem bucket_never_exceeds_cap
    (evs : list WorkerEvent) (sid ep : string) (seen : list string)
    (b : Bucket) (p : string) (rest : list string) :
  MAX_PATHS_PER_BUCKET = 5000 ∧
  bounded (run evs) ∧
  size (bucketDuring evs sid ep seen) ≤ MAX_PATHS_PER_BUCKET ∧
  (b !! p = None → MAX_PATHS_PER_BUCKET ≤ size b →
   recordPath b p = b ∧ recordPaths b (p :: rest) = recordPaths b rest).
Proof.
  split; [reflexivity|]. split; [apply run_bounded|]. split.
  - apply recordPaths_size_le. pose proof (run_bounded evs) as Hb.
    destruct (run evs !! bucketKey sid ep) as [b'|] eqn:Hk; unfold default.
    + exact (Hb _ _ Hk).
    + rewrite map_size_empty. lia.
  - intros Hp Hfull. pose proof (recordPath_saturated _ _ Hp Hfull) as Hdrop.
    split; [exact Hdrop|].
    change (recordPaths b (p :: rest)) with (recordPaths (recordPath b p) rest).
    by rewrite Hdrop.
Qed.

(** A bucket with the 5000 distinct paths ["0"], ..., ["4999"], each seen
    once: the path ["5000"] is dropped and the path ["0"] that follows it
    in the message is still counted. *)
Definition ordinalEntries (n : nat) : list (string * N) :=
  (λ i : nat, (String_of_ordinal (N.of_nat i), 1%N)) <$> seq 0 n.

Definition saturated : Bucket := list_to_map (ordinalEntries 5000).

Lemma ordinalEntries_keys n :
  (ordinalEntries n).*1 = (λ i : nat, String_of_ordinal (N.of_nat i)) <$> seq 0 n.
Proof. unfold ordinalEntries. rewrite <- list_fmap_compose. reflexivity. Qed.

Lemma ordinalEntries_NoDup n : NoDup (ordinalEntries n).*1.
Proof.
  rewrite ordinalEntries_keys. apply NoDup_fmap_2; [|apply NoDup_seq].
  intros i j Hij. unfold String_of_ordinal in Hij.
  apply (inj pretty) in Hij. lia.
Qed.

Lemma ordinalEntries_lookup_ge n i :
  n ≤ i → (list_to_map (ordinalEntries n) : Bucket) !! String_of_ordinal (N.of_nat i) = None.
Proof.
  intros Hle. apply not_elem_of_list_to_map_1. rewrite ordinalEntries_keys.
  intros (j & Hj & Hin)%list_elem_of_fmap. unfold String_of_ordinal in Hj.
  apply (inj pretty) in Hj. apply elem_of_seq in Hin. lia.
Qed.

Lemma ordinalEntries_lookup_lt n i :
  i < n →
  (list_to_map (ordinalEntries n) : Bucket) !! String_of_ordinal (N.of_nat i) = Some 1%N.
Proof.
  intros Hlt. apply elem_of_list_to_map_1; [apply ordinalEntries_NoDup|].
  unfold ordinalEntries. apply list_elem_of_fmap. exists i. split; [reflexivity|].
  apply elem_of_seq. lia.
Qed.

Lemma ordinalEntries_size n : size (list_to_map (ordinalEntries n) : Bucket) = n.
Proof.
  rewrite map_size_list_to_map by apply ordinalEntries_NoDup.
  unfold ordinalEntries. by rewrite length_fmap, length_seq.
Qed.

(** The drop on the saturated bucket, and the bound after a flush. *)
Lemma bucket_never_exceeds_cap_witness :
  let extra := String_of_ordinal (N.of_nat 5000) in
  let zero := String_of_ordinal (N.of_nat 0) in
  saturated !! extra = None ∧
  MAX_PATHS_PER_BUCKET ≤ size saturated ∧
  recordPaths saturated [extra; zero] = recordPaths saturated [zero] ∧
  recordPaths saturated [extra; zero] !! zero = Some 2%N ∧
  size (bucketDuring [OnMessage (MsgStrings "s1" "/users" 0 ["a"; "b"]); Flush]
          "s1" "/users" ["a"; "a"]) ≤ MAX_PATHS_PER_BUCKET.
Proof.
  intros extra zero.
  assert (H1 : saturated !! extra = None)
    by (apply ordinalEntries_lookup_ge; apply Nat.le_refl).
  assert (H2 : MAX_PATHS_PER_BUCKET ≤ size saturated)
    by (unfold saturated; rewrite ordinalEntries_size; apply Nat.le_refl).
  destruct (bucket_never_exceeds_cap
              [OnMessage (MsgStrings "s1" "/users" 0 ["a"; "b"]); Flush]
              "s1" "/users" ["a"; "a"] saturated extra [zero])
    as (_ & _ & Hsize & Hdrop).
  destruct (Hdrop H1 H2) as [_ Heq].
  split; [exact H1|]. split; [exact H2|]. split; [exact Heq|]. split; [|exact Hsize].
  rewrite Heq. change (recordPaths saturated [zero]) with (recordPath saturated zero).
  assert (H0 : saturated !! zero = Some 1%N)
    by (apply ordinalEntries_lookup_lt; apply Nat.lt_0_succ).
  unfold recordPath. rewrite H0.
  rewrite bool_decide_eq_false_2 by discriminate. rewrite andb_false_l.
  rewrite lookup_insert_eq. reflexivity.
Defined.

(** ** Further properties of the usage worker *)

(** How often [p] occurs in the paths of a message. *)
Definition occurrences (p : string) (ps : list string) : N :=
  N.of_nat (length (filter (λ q, q = p) ps)).

Lemma occurrences_cons p q ps :
  occurrences p (q :: ps)
    = ((if bool_decide (q = p) then 1 else 0) + occurrences p ps)%N.
Proof.
  unfold occurrences. rewrite filter_cons. case_bool_decide as Hq.
  - rewrite decide_True by exact Hq. cbn [length]. lia.
  - rewrite decide_False by exact Hq. lia.
Qed.

Lemma occurrences_absent p ps : p ∉ ps → occurrences p ps = 0%N.
Proof.
  induction ps as [|q ps IH]; intros Hnot; [reflexivity|].
  rewrite occurrences_cons. apply not_elem_of_cons in Hnot as [Hne Hnot].
  rewrite bool_decide_eq_false_2 by congruence. rewrite (IH Hnot). reflexivity.
Qed.

Lemma recordPath_lookup_ne (b : Bucket) p q :
  q ≠ p → recordPath b q !! p = b !! p.
Proof.
  intros Hne. unfold recordPath. destruct (_ && _); [reflexivity|].
  by rewrite lookup_insert_ne.
Qed.

Lemma recordPath_known (b : Bucket) p c :
  b !! p = Some c → recordPath b p = <[p := (c + 1)%N]> b.
Proof.
  intros Hp. unfold recordPath. rewrite Hp.
  rewrite bool_decide_eq_false_2 by discriminate. reflexivity.
Qed.

(** X10.  A path the bucket already holds is counted every time it occurs in
    a message, whether or not the bucket is saturated: its count grows by
    the number of its occurrences. *)
Theorem known_path_is_always_counted ps : ∀ (b : Bucket) p c,
  b !! p = Some c →
  recordPaths b ps !! p = Some (c + occurrences p ps)%N.
Proof.
  induction ps as [|q ps IH]; intros b p c Hp.
  - cbn. rewrite Hp. apply (f_equal Some). unfold occurrences. cbn. lia.
  - change (recordPaths b (q :: ps)) with (recordPaths (recordPath b q) ps).
    rewrite occurrences_cons. destruct (decide (q = p)) as [->|Hne].
    + rewrite bool_decide_eq_true_2 by reflexivity.
      rewrite (IH _ p (c + 1)%N).
      * apply (f_equal Some). lia.
      * rewrite (recordPath_known b p c Hp). apply lookup_insert_eq.
    + rewrite bool_decide_eq_false_2 by exact Hne.
      rewrite (IH _ p c); [apply (f_equal Some); lia|].
      by rewrite recordPath_lookup_ne.
Qed.

Lemma recordPath_room (b : Bucket) q :
  size (dom b ∪ {[q]}) ≤ MAX_PATHS_PER_BUCKET →
  recordPath b q = <[q := (default 0%N (b !! q) + 1)%N]> b.
Proof.
  intros Hroom. unfold recordPath. destruct (b !! q) as [c|] eqn:Hq.
  - by rewrite bool_decide_eq_false_2 by discriminate.
  - rewrite bool_decide_eq_true_2 by reflexivity. rewrite andb_true_l.
    destruct (Nat.leb_spec MAX_PATHS_PER_BUCKET (size b)) as [Hfull|]; [|reflexivity].
    exfalso. apply not_elem_of_dom in Hq.
    rewrite size_union in Hroom by (apply disjoint_singleton_r; exact Hq).
    rewrite size_singleton, size_dom in Hroom. lia.
Qed.

(** X11.  When the paths the bucket holds and the distinct paths of the
    message are together at most [MAX_PATHS_PER_BUCKET], nothing is
    dropped: after the loop every path of the message has its former
    count, or 0, plus the number of its occurrences, and every other path
    has the count it had. *)
Theorem nothing_dropped_when_room ps : ∀ (b : Bucket) p,
  size (dom b ∪ list_to_set ps) ≤ MAX_PATHS_PER_BUCKET →
  recordPaths b ps !! p
    = if bool_decide (p ∈ ps)
      then Some (default 0%N (b !! p) + occurrences p ps)%N
      else b !! p.
Proof.
  induction ps as [|q ps IH]; intros b p Hroom.
  - rewrite bool_decide_eq_false_2 by apply not_elem_of_nil. reflexivity.
  - change (recordPaths b (q :: ps)) with (recordPaths (recordPath b q) ps).
    assert (Hq : size (dom b ∪ {[q]}) ≤ MAX_PATHS_PER_BUCKET).
    { etrans; [|exact Hroom]. apply subseteq_size, elem_of_subseteq. intros x.
      rewrite list_to_set_cons, !elem_of_union. tauto. }
    rewrite (recordPath_room b q Hq).
    rewrite IH.
    2:{ etrans; [|exact Hroom]. apply subseteq_size, elem_of_subseteq. intros x.
        rewrite dom_insert, list_to_set_cons, !elem_of_union. tauto. }
    rewrite occurrences_cons. destruct (decide (q = p)) as [->|Hne].
    + rewrite (bool_decide_eq_true_2 (p = p)) by reflexivity.
      rewrite (bool_decide_eq_true_2 (p ∈ p :: ps)) by (apply elem_of_cons; by left).
      rewrite lookup_insert_eq. cbn [default].
      case_bool_decide as Hin; apply (f_equal Some); unfold id; [lia|].
      rewrite (occurrences_absent p ps Hin). lia.
    + rewrite (bool_decide_eq_false_2 (q = p)) by exact Hne.
      rewrite lookup_insert_ne by exact Hne.
      destruct (decide (p ∈ ps)) as [Hin|Hnot].
      * rewrite (bool_decide_eq_true_2 (p ∈ ps)) by exact Hin.
        rewrite (bool_decide_eq_true_2 (p ∈ q :: ps)) by (apply elem_of_cons; by right).
        apply (f_equal Some). lia.
      * rewrite (bool_decide_eq_false_2 (p ∈ ps)) by exact Hnot.
        rewrite (bool_decide_eq_false_2 (p ∈ q :: ps)); [reflexivity|].
        apply not_elem_of_cons. split; [congruence | exact Hnot].
Qed.

Lemma recordPath_dom (b : Bucket) q :
  dom b ⊆ dom (recordPath b q) ∧ dom (recordPath b q) ⊆ dom b ∪ {[q]}.
Proof.
  unfold recordPath. destruct (_ && _).
  - split; [reflexivity | apply union_subseteq_l].
  - rewrite dom_insert_L. split; [apply union_subseteq_r|].
    apply elem_of_subseteq. intros x. rewrite !elem_of_union. tauto.
Qed.

Lemma recordPaths_dom ps : ∀ b : Bucket,
  dom b ⊆ dom (recordPaths b ps) ∧ dom (recordPaths b ps) ⊆ dom b ∪ list_to_set ps.
Proof.
  induction ps as [|q ps IH]; intros b.
  { split; [reflexivity | apply union_subseteq_l]. }
  change (recordPaths b (q :: ps)) with (recordPaths (recordPath b q) ps).
  destruct (IH (recordPath b q)) as [H1 H2]. destruct (recordPath_dom b q) as [H3 H4].
  split; [by etrans|]. apply elem_of_subseteq. intros x Hx.
  apply H2 in Hx. rewrite list_to_set_cons, !elem_of_union.
  apply elem_of_union in Hx as [Hx|Hx]; [|tauto].
  apply H4 in Hx. apply elem_of_union in Hx. tauto.
Qed.

(** X12.  A message changes the bucket of its own (structureId, endpoint)
    key only: every other bucket of the table is as before.  In its own
    bucket no path is ever removed, and the only paths added are paths of
    the message. *)
Theorem handleMsg_touches_its_bucket_only (bs : Buckets) (msg : TelemetryMsg) :
  let key := bucketKey (msg_structureId msg) (msg_endpoint msg) in
  (∀ other, other ≠ key → handleMsg bs msg !! other = bs !! other) ∧
  dom (default ∅ (bs !! key)) ⊆ dom (default ∅ (handleMsg bs msg !! key)) ∧
  dom (default ∅ (handleMsg bs msg !! key))
    ⊆ dom (default ∅ (bs !! key)) ∪ list_to_set (msg_paths msg).
Proof.
  intros key. unfold handleMsg. fold key. split.
  - intros other Hne. by rewrite lookup_insert_ne.
  - rewrite lookup_insert_eq. cbn [default]. apply recordPaths_dom.
Qed.

Lemma known_path_is_always_counted_witness :
  recordPaths saturated
    [String_of_ordinal (N.of_nat 7); String_of_ordinal (N.of_nat 5000);
     String_of_ordinal (N.of_nat 7)] !! String_of_ordinal (N.of_nat 7)
    = Some 3%N.
Proof.
  rewrite (known_path_is_always_counted _ saturated _ 1%N).
  - vm_compute. reflexivity.
  - apply ordinalEntries_lookup_lt. lia.
Defined.

Lemma nothing_dropped_when_room_witness :
  recordPaths ∅ ["a"; "b"; "a"] !! "a" = Some 2%N ∧
  recordPaths ∅ ["a"; "b"; "a"] !! "c" = None.
Proof.
  assert (Hroom : size (dom (∅ : Bucket) ∪ list_to_set ["a"; "b"; "a"])
                  ≤ MAX_PATHS_PER_BUCKET).
  { apply Nat.leb_le. vm_compute. reflexivity. }
  split.
  - rewrite (nothing_dropped_when_room _ ∅ "a" Hroom). vm_compute. reflexivity.
  - rewrite (nothing_dropped_when_room _ ∅ "c" Hroom). vm_compute. reflexivity.
Defined.

End UsageWorkerFacts.

(* ===================================================================== *)
(** * The JavaScript values and platform objects the client works on *)
(* ===================================================================== *)

Module JS.

(** ** Strings *)

Definition toUpperAscii (c : ascii) : ascii :=
  let n := nat_of_ascii c in
  if Nat.leb 97 n && Nat.leb n 122 then ascii_of_nat (n - 32) else c.

Definition toLowerAscii (c : ascii) : ascii :=
  let n := nat_of_ascii c in
  if Nat.leb 65 n && Nat.leb n 90 then ascii_of_nat (n + 32) else c.

Fixpoint mapString (f : ascii → ascii) (s : string) : string :=
  match s with
  | EmptyString => EmptyString
  | String c t => String (f c) (mapString f t)
  end.

(** [s.toUpperCase()], [s.toLowerCase()] on ASCII text. *)
Definition toUpperCase : string → string := mapString toUpperAscii.
Definition toLowerCase : string → string := mapString toLowerAscii.

Fixpoint startsWith (s needle : string) : bool :=
  match needle, s with
  | EmptyString, _ => true
  | String a n', String b s' => bool_decide (a = b) && startsWith s' n'
  | String _ _, EmptyString => false
  end.

(** [s.includes(needle)] *)
Fixpoint includes (s needle : string) : bool :=
  startsWith s needle ||
  match s with
  | EmptyString => false
  | String _ s' => includes s' needle
  end.

(** Truthiness of a possibly undefined string: [undefined] and [''] are
    falsy. *)
Definition truthy (o : option string) : bool :=
  match o with
  | Some s => negb (bool_decide (s = ""))
  | None => false
  end.

(** ** JSON values, as [JSON.parse] produces them.  Numbers are taken to be
    integers; an object lists its own properties in insertion order. *)
Inductive JSON :=
| JNull
| JBool (b : bool)
| JNumber (n : Z)
| JString (s : string)
| JArray (items : list JSON)
| JObject (fields : list (string * JSON)).

(** [typeof x] *)
Definition typeof (x : JSON) : string :=
  match x with
  | JNull | JArray _ | JObject _ => "object"
  | JBool _ => "boolean"
  | JNumber _ => "number"
  | JString _ => "string"
  end.

Definition isNull (x : JSON) : bool :=
  match x with JNull => true | _ => false end.

(** [Array.isArray(x)] *)
Definition isArray (x : JSON) : bool :=
  match x with JArray _ => true | _ => false end.

(** Reading an own property of an object value. *)
Fixpoint assoc {A} (k : string) (l : list (string * A)) : option A :=
  match l with
  | [] => None
  | (k', v) :: l' => if bool_decide (k = k') then Some v else assoc k l'
  end.

(** ** Headers: names are case-insensitive, and are kept lower-cased as the
    platform's [Headers] class does. *)
Abbreviation Headers := (gmap string string).

Definition Headers_set (h : Headers) (name value : string) : Headers :=
  <[toLowerCase name := value]> h.
Definition Headers_get (h : Headers) (name : string) : option string :=
  h !! toLowerCase name.
Definition Headers_has (h : Headers) (name : string) : bool :=
  bool_decide (is_Some (h !! toLowerCase name)).
Definition Headers_delete (h : Headers) (name : string) : Headers :=
  delete (toLowerCase name) h.

(** ** Response and RequestInit *)
Record Response := mkResponse {
  status : Z;
  statusText : string;
  headers : Headers;
  body : string
}.

(** The fields of [RequestInit] the client reads ([method], [headers]) and
    one it only forwards ([body]). *)
Record RequestInit := mkInit {
  method : option string;
  init_headers : Headers;
  init_body : option string
}.

(** [{}] *)
Definition emptyInit : RequestInit :=
  {| method := None; init_headers := ∅; init_body := None |}.

(** [{ ...init, headers: h }] *)
Definition withHeaders (init : RequestInit) (h : Headers) : RequestInit :=
  {| method := method init; init_headers := h; init_body := init_body init |}.

(** ** URL: the components of a parsed URL the client reads or that make
    up the rest of its text. *)
Record URL := mkURL { origin : string; pathname : string; search : string; hash : string }.

End JS.

(** Template literals and [+] on strings are [+:+]. *)
Module JSFacts.

Lemma string_app_assoc (a b c : string) : (a +:+ b) +:+ c = a +:+ (b +:+ c).
Proof.
  induction a as [|x a IH]; [reflexivity | exact (f_equal (String x) IH)].
Qed.

Lemma string_app_empty_r (a : string) : a +:+ EmptyString = a.
Proof.
  induction a as [|x a IH]; [reflexivity | exact (f_equal (String x) IH)].
Qed.

Lemma string_app_nonempty_r (a b : string) : b ≠ EmptyString → a +:+ b ≠ EmptyString.
Proof.
  intros Hb. destruct a; [exact Hb | discriminate].
Qed.

End JSFacts.

(* ===================================================================== *)
(** * src/core.ts, src/utils.ts, src/registry.ts *)
(* ===================================================================== *)

Module Core.
Import JS.

(** [isPlainObject]:
    [typeof x === 'object' && x !== null && !Array.isArray(x)] *)
Definition isPlainObject (x : JSON) : bool :=
  bool_decide (typeof x = "object") && negb (isNull x) && negb (isArray x).

(** [byteLen]: the body text is a sequence of bytes, so its encoded length
    is its length. *)
Definition byteLen (s : string) : nat := String.length s.

(** [packet.structureId], read off the value [JSON.parse] returned.  The
    outer [None] is the [TypeError] of a property read on [null]; the inner
    one is [undefined] (also for an id that is not a string, which no key
    of the string-keyed [structures] map equals). *)
Definition packet_structureId (packet : JSON) : option (option string) :=
  match packet with
  | JNull => None
  | JObject fields =>
      match assoc "structureId" fields with
      | Some (JString sid) => Some (Some sid)
      | _ => Some None
      end
  | _ => Some None
  end.

(** The [phase] tags of [onError]. *)
Inductive Phase := phase_request | phase_response | phase_decode | phase_learn.

(** What a [catch] clause binds: an error of the platform, what [decode]
    threw ([CodecError]), or what a hook threw ([HookError]). *)
Inductive Err :=
| NetworkError | SyntaxError | TypeError | RangeError | CodecError | HookError.

(** One underlying call, [originalFetch(url, init)]. *)
Record Call := mkCall { call_url : string; call_init : RequestInit }.

(** The calls of the lifecycle hooks, with the context each was given. *)
Inductive Notification :=
| BeforeRequest (url method : string) (hdrs : Headers) (init : RequestInit)
    (wasOptimized : bool) (structureIdHint : option string)
| AfterResponse (url method : string) (resp : Response) (wasOptimized : bool)
| PacketDecoded (url : string) (structureId : string)
    (originalSize : option Z) (compressedSize : nat)
| LearnedStructure (url structureId : string)
| TransformDecoded (url structureId : string) (wasOptimized : bool)
    (originalSize : option Z) (compressedSize : option nat) (data : JSON)
| OnError (err : Err) (url : string) (phase : Phase).

(** [LifecycleHooks].  Every hook is optional.  An observer hook answers
    [true] when it returns and [false] when it throws; [transformDecoded]
    returns the replacement value, or [None] when it throws.  [onError] is
    the sink the [catch] clauses report to: it is either configured or not,
    and the model takes it to return. *)
Record LifecycleHooks := mkHooks {
  beforeRequest :
    option (string → string → Headers → RequestInit → bool → option string → bool);
  afterResponse : option (string → string → Response → bool → bool);
  transformDecoded :
    option (string → string → bool → option Z → option nat → JSON → option JSON);
  onPacketDecoded : option (string → string → option Z → nat → bool);
  onLearnedStructure : option (string → string → bool);
  onError : bool
}.

(** [lifecycle = {}] *)
Definition noHooks : LifecycleHooks :=
  {| beforeRequest := None; afterResponse := None; transformDecoded := None;
     onPacketDecoded := None; onLearnedStructure := None; onError := false |}.

Section WithPlatform.

(** The codec of [@synpatico/core]. *)
Context {StructureDefinition : Type}.
Variable def_id : StructureDefinition → string.
Variable createStructureDefinition : JSON → StructureDefinition.
(** [decode(packet, def)]; [None] when it throws. *)
Variable decode : JSON → StructureDefinition → option JSON.

(** The platform. [JSON.parse] and [new URL(s).origin] answer [None] when
    they throw, [Number(s)] when the result is [NaN]. *)
Variable JSON_parse : string → option JSON.
Variable JSON_stringify : JSON → string.
Variable URL_origin : string → option string.
Variable Number : string → option Z.

(** The network behind [originalFetch]: the response to a call, given the
    calls made before it; [None] is a network failure. *)
Variable server : list Call → Call → option Response.

(** The options of [createCore]. *)
Variable isTargetUrl : option (string → bool).
Variable enableLifecycle : bool.
Variable lifecycle : LifecycleHooks.

(** [ClientRegistry] as [createRegistry] builds it ([patterns] is never
    touched by the client and is left out). *)
Record ClientRegistry := mkRegistry {
  structures : gmap string StructureDefinition;
  requestToStructureId : gmap string string
}.

Definition createRegistry : ClientRegistry :=
  {| structures := ∅; requestToStructureId := ∅ |}.

(** The state captured by the closures of [createCore], with the trace of
    the underlying calls and of the hook calls made so far. *)
Record State := mkState {
  registry : ClientRegistry;
  knownSynpaticoOrigins : gset string;
  calls : list Call;
  log : list Notification
}.

Definition createCore : State :=
  {| registry := createRegistry; knownSynpaticoOrigins := ∅;
     calls := []; log := [] |}.

(** A settled promise. *)
Inductive Settled (A : Type) :=
| Fulfilled (a : A)
| Rejected (e : Err).
Arguments Fulfilled {A} a.
Arguments Rejected {A} e.

(** An [async] computation over the state of the core. *)
Definition Async (A : Type) : Type := State → Settled A * State.

Definition ret {A} (a : A) : Async A := λ st, (Fulfilled a, st).
Definition reject {A} (e : Err) : Async A := λ st, (Rejected e, st).
Definition bind {A B} (m : Async A) (k : A → Async B) : Async B :=
  λ st, match m st with
        | (Fulfilled a, st') => k a st'
        | (Rejected e, st') => (Rejected e, st')
        end.

Notation "'let*' x ':=' m 'in' k" := (bind m (λ x, k))
  (at level 10, x binder, m at level 100, k at level 200).
Notation "'do' m 'then' k" := (bind m (λ _, k))
  (at level 10, m at level 100, k at level 200).

Definition addCall (st : State) (c : Call) : State :=
  {| registry := registry st; knownSynpaticoOrigins := knownSynpaticoOrigins st;
     calls := calls st ++ [c]; log := log st |}.

Definition addLog (st : State) (l : list Notification) : State :=
  {| registry := registry st; knownSynpaticoOrigins := knownSynpaticoOrigins st;
     calls := calls st; log := log st ++ l |}.

Definition get_state : Async State := λ st, (Fulfilled st, st).

Definition set_registry (r : ClientRegistry) : Async unit :=
  λ st, (Fulfilled tt,
         {| registry := r; knownSynpaticoOrigins := knownSynpaticoOrigins st;
            calls := calls st; log := log st |}).

Definition set_origins (o : gset string) : Async unit :=
  λ st, (Fulfilled tt,
         {| registry := registry st; knownSynpaticoOrigins := o;
            calls := calls st; log := log st |}).

(** [await originalFetch(url, init)] *)
Definition originalFetch (url : string) (init : RequestInit) : Async Response :=
  λ st,
    let c := {| call_url := url; call_init := init |} in
    (match server (calls st) c with
     | Some r => Fulfilled r
     | None => Rejected NetworkError
     end, addCall st c).

(** [hook?.(ctx)]: when the hook is there it is called, which the trace
    records, and the answer says whether it returned. *)
Definition callHook (outcome : option bool) (n : Notification) : Async bool :=
  λ st,
    match outcome with
    | None => (Fulfilled true, st)
    | Some ok => (Fulfilled ok, addLog st [n])
    end.

(** [lifecycle.onError?.(err, { url, phase })] *)
Definition reportError (err : Err) (url : string) (phase : Phase) : Async unit :=
  let* _ := callHook (if onError lifecycle then Some true else None)
              (OnError err url phase) in
  ret tt.

(** [acceptIdHint]: the pair [(structureIdHint, origin)]. *)
Definition acceptIdHint (st : State) (urlString : string) (canOptimize : bool)
    : option string * option string :=
  match URL_origin urlString with
  | Some origin =>
      if canOptimize && bool_decide (origin ∈ knownSynpaticoOrigins st)
      then (requestToStructureId (registry st) !! urlString, Some origin)
      else (None, Some origin)
  | None => (None, None)
  end.

(** [markOrigin] *)
Definition markOrigin (urlString : string) : Async unit :=
  let* st := get_state in
  match URL_origin urlString with
  | Some origin => set_origins ({[origin]} ∪ knownSynpaticoOrigins st)
  | None => ret tt
  end.

(** What [new Response(text, { status, statusText, headers })] throws, if
    it throws, for a body that is a string and the [statusText] and the
    headers of a response: a [RangeError] for a status outside 200..599, a
    [TypeError] for a null body status (204, 205, 304). *)
Definition newResponseError (st : Z) : option Err :=
  if bool_decide (200 ≤ st)%Z && bool_decide (st ≤ 599)%Z then
    if bool_decide (st = 204%Z) || bool_decide (st = 205%Z) || bool_decide (st = 304%Z)
    then Some TypeError
    else None
  else Some RangeError.

(** The response that
    [new Response(JSON.stringify(value), { status, statusText, headers })]
    constructs when it does not throw, with [headers] a copy of the
    response's on which Content-Type is set. *)
Definition rebuild (resp : Response) (value : JSON) : Response :=
  {| status := status resp;
     statusText := statusText resp;
     headers := Headers_set (headers resp) "Content-Type" "application/json";
     body := JSON_stringify value |}.

(** The end of the [try] of [learnFromJsonResponse]: the new response, or,
    when the constructor throws, the response itself, which the function
    returns after its empty [catch]. *)
Definition rebuildOrKeep (resp : Response) (value : JSON) : Response :=
  match newResponseError (status resp) with
  | None => rebuild resp value
  | Some _ => resp
  end.

(** The value of [originalSize] in [handleOptimizedPacketResponse]. *)
Definition originalSizeOf (resp : Response) : option Z :=
  match Headers_get (headers resp) "X-Synpatico-Original-Size" with
  | Some h => if truthy (Some h) then Number h else None
  | None => None
  end.

(** The body of the second [try] of [handleOptimizedPacketResponse], up to
    the value handed to [new Response]: that value, or what was thrown on
    the way, by [decode] or by a hook. *)
Definition decodeAndTransform (resp : Response) (urlString sid : string)
    (packet : JSON) (def : StructureDefinition) : Async (Err + JSON) :=
  let compressedSize := byteLen (body resp) in
  let originalSize := originalSizeOf resp in
  match decode packet def with
  | None => ret (inl CodecError)
  | Some decoded =>
      let* ok := callHook ((λ f, f urlString sid originalSize compressedSize)
                       <$> onPacketDecoded lifecycle)
             (PacketDecoded urlString sid originalSize compressedSize) in
      if ok then
        match transformDecoded lifecycle with
        | Some f =>
            let out := f urlString sid true originalSize (Some compressedSize) decoded in
            let* _ := callHook (Some (bool_decide (is_Some out)))
                  (TransformDecoded urlString sid true originalSize
                     (Some compressedSize) decoded) in
            ret (match out with Some value => inr value | None => inl HookError end)
        | None => ret (inr decoded)
        end
      else ret (inl HookError)
  end.

(** [handleOptimizedPacketResponse] *)
Definition handleOptimizedPacketResponse (resp : Response) (urlString : string)
    : Async Response :=
  let text := body resp in
  match JSON_parse text with
  | None =>
      do reportError SyntaxError urlString phase_decode then
      originalFetch urlString emptyInit
  | Some packet =>
      match packet_structureId packet with
      | None => reject TypeError
      | Some sidOpt =>
          let* st := get_state in
          match sidOpt ≫= (λ sid, (λ d, (sid, d)) <$> structures (registry st) !! sid) with
          | None => originalFetch urlString emptyInit
          | Some (sid, def) =>
              let* out := decodeAndTransform resp urlString sid packet def in
              match out with
              | inr value =>
                  match newResponseError (status resp) with
                  | None => ret (rebuild resp value)
                  | Some err =>
                      do reportError err urlString phase_decode then
                      originalFetch urlString emptyInit
                  end
              | inl err =>
                  do reportError err urlString phase_decode then
                  originalFetch urlString emptyInit
              end
          end
      end
  end.

(** [learnFromJsonResponse] *)
Definition learnFromJsonResponse (resp : Response) (urlString : string)
    : Async Response :=
  match JSON_parse (body resp) with
  | Some data =>
      if isPlainObject data then
        let def := createStructureDefinition data in
        let* st := get_state in
        do set_registry
          {| structures := <[def_id def := def]> (structures (registry st));
             requestToStructureId :=
               <[urlString := def_id def]> (requestToStructureId (registry st)) |} then
        let* ok := callHook ((λ f, f urlString (def_id def)) <$> onLearnedStructure lifecycle)
               (LearnedStructure urlString (def_id def)) in
        if ok then
          match transformDecoded lifecycle with
          | Some f =>
              let out := f urlString (def_id def) false None None data in
              let* _ := callHook (Some (bool_decide (is_Some out)))
                    (TransformDecoded urlString (def_id def) false None None data) in
              match out with
              | Some value => ret (rebuildOrKeep resp value)
              | None => ret resp
              end
          | None => ret (rebuildOrKeep resp data)
          end
        else ret resp
      else ret resp
  | None => ret resp
  end.

Definition ACCEPT_ID : string := "X-Synpatico-Accept-ID".
Definition AGENT : string := "X-Synpatico-Agent".
Definition PACKET_CT : string := "application/synpatico-packet+json".
Definition JSON_CT : string := "application/json".

(** [(init.method || 'GET').toUpperCase()] *)
Definition methodOf (init : RequestInit) : string :=
  toUpperCase (if truthy (method init) then default "GET" (method init) else "GET").

(** Lines 143-145: the call is not for the client when an [isTargetUrl]
    predicate is configured and refuses the URL. *)
Definition bypassed (urlString : string) : bool :=
  match isTargetUrl with
  | Some f => negb (f urlString)
  | None => false
  end.

(** Lines 157-170: [beforeRequest] under [enableLifecycle], a throw being
    reported with phase [request]. *)
Definition notifyBeforeRequest (urlString method : string) (reqHeaders : Headers)
    (init : RequestInit) (wasOptimized : bool) (structureIdHint : option string)
    : Async unit :=
  if enableLifecycle then
    let* ok := callHook ((λ f, f urlString method reqHeaders init wasOptimized structureIdHint)
                           <$> beforeRequest lifecycle)
                 (BeforeRequest urlString method reqHeaders init wasOptimized structureIdHint) in
    if ok then ret tt else reportError HookError urlString phase_request
  else ret tt.

(** Lines 175-186: [afterResponse], likewise with phase [response]. *)
Definition notifyAfterResponse (urlString method : string) (resp : Response)
    (wasOptimized : bool) : Async unit :=
  if enableLifecycle then
    let* ok := callHook ((λ f, f urlString method resp wasOptimized)
                           <$> afterResponse lifecycle)
                 (AfterResponse urlString method resp wasOptimized) in
    if ok then ret tt else reportError HookError urlString phase_response
  else ret tt.

(** Lines 195-208: the classification of a response that is not retried. *)
Definition classify (resp : Response) (urlString : string) : Async Response :=
  if negb (Headers_has (headers resp) AGENT) then ret resp
  else
    do markOrigin urlString then
    let ct := default "" (Headers_get (headers resp) "content-type") in
    if includes ct PACKET_CT then handleOptimizedPacketResponse resp urlString
    else if includes ct JSON_CT then learnFromJsonResponse resp urlString
    else ret resp.

(** The headers of the request, lines 148-155: the caller's, with the
    negotiation header set when there is a truthy hint. *)
Definition requestHeaders (init : RequestInit) (structureIdHint : option string)
    : Headers :=
  if truthy structureIdHint
  then Headers_set (init_headers init) ACCEPT_ID (default "" structureIdHint)
  else init_headers init.

(** [synpaticoFetch] *)
Definition synpaticoFetch (urlString : string) (init : RequestInit)
    : Async Response :=
  let method := methodOf init in
  let canOptimize := bool_decide (method = "GET") in
  if bypassed urlString then originalFetch urlString init
  else
    let* st := get_state in
    let structureIdHint := (acceptIdHint st urlString canOptimize).1 in
    let wasOptimized := truthy structureIdHint in
    let reqHeaders := requestHeaders init structureIdHint in
    do notifyBeforeRequest urlString method reqHeaders init wasOptimized structureIdHint then
    let* resp := originalFetch urlString (withHeaders init reqHeaders) in
    do notifyAfterResponse urlString method resp wasOptimized then
    if bool_decide (status resp = 409%Z) && wasOptimized then
      let headersNoOpt := Headers_delete (init_headers init) ACCEPT_ID in
      originalFetch urlString (withHeaders init headersNoOpt)
    else classify resp urlString.

(** [clearCache] *)
Definition clearCache (st : State) : State :=
  {| registry := createRegistry; knownSynpaticoOrigins := ∅;
     calls := calls st; log := log st |}.

(** ** Notions the properties are stated with *)

(** The hint the client attaches to the call, if it attaches one: the call
    is not bypassed and [structureIdHint] is truthy (lines 143-155). *)
Definition attachedHint (st : State) (urlString : string) (init : RequestInit)
    : option string :=
  if bypassed urlString then None
  else
    let hint := (acceptIdHint st urlString (bool_decide (methodOf init = "GET"))).1 in
    if truthy hint then hint else None.

(** The first underlying call of [synpaticoFetch] (line 144 or line 173). *)
Definition firstCall (st : State) (urlString : string) (init : RequestInit) : Call :=
  if bypassed urlString then {| call_url := urlString; call_init := init |}
  else
    {| call_url := urlString;
       call_init :=
         withHeaders init
           (requestHeaders init
              (acceptIdHint st urlString (bool_decide (methodOf init = "GET"))).1) |}.

(** Hook calls that are part of decoding or learning. *)
Definition processing (n : Notification) : bool :=
  match n with
  | PacketDecoded _ _ _ _ | LearnedStructure _ _ | TransformDecoded _ _ _ _ _ _ => true
  | OnError _ _ phase_decode | OnError _ _ phase_learn => true
  | _ => false
  end.

(** A step that only calls hooks of the request and response phases. *)
Definition quietStep (st st' : State) : Prop :=
  registry st' = registry st ∧
  knownSynpaticoOrigins st' = knownSynpaticoOrigins st ∧
  calls st' = calls st ∧
  ∃ l, log st' = log st ++ l ∧ Forall (λ n, processing n = false) l.

(** [onError] calls of a trace. *)
Definition isOnError (n : Notification) : bool :=
  match n with OnError _ _ _ => true | _ => false end.

(** The value [learnFromJsonResponse] hands to [new Response], or [None]
    when [onLearnedStructure] or [transformDecoded] throws. *)
Definition learnedValue (urlString : string) (data : JSON) : option JSON :=
  let sid := def_id (createStructureDefinition data) in
  if default true ((λ f, f urlString sid) <$> onLearnedStructure lifecycle) then
    match transformDecoded lifecycle with
    | Some f => f urlString sid false None None data
    | None => Some data
    end
  else None.

(** The value [handleOptimizedPacketResponse] hands to [new Response], or
    [None] when [decode], [onPacketDecoded] or [transformDecoded] throws. *)
Definition decodedValue (resp : Response) (urlString sid : string)
    (packet : JSON) (def : StructureDefinition) : option JSON :=
  match decode packet def with
  | Some decoded =>
      if default true ((λ f, f urlString sid (originalSizeOf resp) (byteLen (body resp)))
                         <$> onPacketDecoded lifecycle) then
        match transformDecoded lifecycle with
        | Some f =>
            f urlString sid true (originalSizeOf resp) (Some (byteLen (body resp))) decoded
        | None => Some decoded
        end
      else None
  | None => None
  end.

(** What the second [try] of [handleOptimizedPacketResponse] ends in: the
    response it returns, or the error its [catch] binds, which is what
    [decode] threw, what [onPacketDecoded] or [transformDecoded] threw, or
    what the constructor of the response threw. *)
Definition decodedResponse (resp : Response) (urlString sid : string)
    (packet : JSON) (def : StructureDefinition) : Err + Response :=
  match decode packet def with
  | None => inl CodecError
  | Some _ =>
      match decodedValue resp urlString sid packet def with
      | None => inl HookError
      | Some value =>
          match newResponseError (status resp) with
          | Some err => inl err
          | None => inr (rebuild resp value)
          end
      end
  end.

(** The trace only grew, by entries that satisfy [P]. *)
Definition logged (P : Notification → Prop) (st st' : State) : Prop :=
  ∃ l, log st' = log st ++ l ∧ Forall P l.

(** An [onError] call tagged with the phase [learn]. *)
Definition reportsLearn (n : Notification) : bool :=
  match n with OnError _ _ phase_learn => true | _ => false end.

(** ** Running the steps of [synpaticoFetch] *)

Lemma bind_run {A B} (m : Async A) (k : A → Async B) st a st' :
  m st = (Fulfilled a, st') → bind m k st = k a st'.
Proof. unfold bind. intros ->. reflexivity. Qed.

Lemma quietStep_refl st : quietStep st st.
Proof.
  repeat split. exists []. split; [symmetry; apply app_nil_r | constructor].
Qed.

Lemma quietStep_trans st1 st2 st3 :
  quietStep st1 st2 → quietStep st2 st3 → quietStep st1 st3.
Proof.
  intros (Hr1 & Ho1 & Hc1 & l1 & Hl1 & Hq1) (Hr2 & Ho2 & Hc2 & l2 & Hl2 & Hq2).
  repeat split; try congruence.
  exists (l1 ++ l2). split.
  - rewrite Hl2, Hl1. symmetry. apply app_assoc.
  - apply Forall_app. split; assumption.
Qed.

Lemma quietStep_addLog st l :
  Forall (λ n, processing n = false) l → quietStep st (addLog st l).
Proof. intros Hl. repeat split. exists l. split; [reflexivity | exact Hl]. Qed.

Lemma reportError_run err url phase st :
  ∃ st', reportError err url phase st = (Fulfilled tt, st') ∧
         registry st' = registry st ∧
         knownSynpaticoOrigins st' = knownSynpaticoOrigins st ∧
         calls st' = calls st ∧
         log st' = log st ++ (if onError lifecycle then [OnError err url phase] else []).
Proof.
  unfold reportError, bind, callHook, ret.
  destruct (onError lifecycle).
  - eexists. split; [reflexivity|]. repeat split.
  - eexists. split; [reflexivity|]. repeat split. symmetry. apply app_nil_r.
Qed.

Lemma reportError_quiet err url phase st :
  phase = phase_request ∨ phase = phase_response →
  ∃ st', reportError err url phase st = (Fulfilled tt, st') ∧ quietStep st st'.
Proof.
  intros Hph. destruct (reportError_run err url phase st) as (st' & Hrun & Hr & Ho & Hc & Hl).
  exists st'. split; [exact Hrun|]. repeat split; try assumption.
  eexists. split; [exact Hl|].
  destruct (onError lifecycle); [|constructor].
  constructor; [|constructor]. destruct Hph as [-> | ->]; reflexivity.
Qed.

Lemma notifyBeforeRequest_run urlString method reqHeaders init wasOptimized hint st :
  ∃ st', notifyBeforeRequest urlString method reqHeaders init wasOptimized hint st
           = (Fulfilled tt, st') ∧ quietStep st st'.
Proof.
  unfold notifyBeforeRequest.
  destruct enableLifecycle; [|exists st; split; [reflexivity | apply quietStep_refl]].
  unfold bind at 1, callHook.
  destruct (beforeRequest lifecycle) as [f|]; cbn [fmap option_fmap option_map].
  - destruct (f urlString method reqHeaders init wasOptimized hint).
    + eexists. split; [reflexivity|]. apply quietStep_addLog.
      constructor; [reflexivity | constructor].
    + destruct (reportError_quiet HookError urlString phase_request
                  (addLog st [BeforeRequest urlString method reqHeaders init wasOptimized hint]))
        as (st' & Hrun & Hq); [by left|].
      exists st'. split; [exact Hrun|].
      eapply quietStep_trans; [|exact Hq].
      apply quietStep_addLog. constructor; [reflexivity | constructor].
  - exists st. split; [reflexivity | apply quietStep_refl].
Qed.

Lemma notifyAfterResponse_run urlString method resp wasOptimized st :
  ∃ st', notifyAfterResponse urlString method resp wasOptimized st
           = (Fulfilled tt, st') ∧ quietStep st st'.
Proof.
  unfold notifyAfterResponse.
  destruct enableLifecycle; [|exists st; split; [reflexivity | apply quietStep_refl]].
  unfold bind at 1, callHook.
  destruct (afterResponse lifecycle) as [f|]; cbn [fmap option_fmap option_map].
  - destruct (f urlString method resp wasOptimized).
    + eexists. split; [reflexivity|]. apply quietStep_addLog.
      constructor; [reflexivity | constructor].
    + destruct (reportError_quiet HookError urlString phase_response
                  (addLog st [AfterResponse urlString method resp wasOptimized]))
        as (st' & Hrun & Hq); [by right|].
      exists st'. split; [exact Hrun|].
      eapply quietStep_trans; [|exact Hq].
      apply quietStep_addLog. constructor; [reflexivity | constructor].
  - exists st. split; [reflexivity | apply quietStep_refl].
Qed.

Lemma originalFetch_run url init st :
  originalFetch url init st =
    (match server (calls st) {| call_url := url; call_init := init |} with
     | Some r => Fulfilled r
     | None => Rejected NetworkError
     end, addCall st {| call_url := url; call_init := init |}).
Proof. reflexivity. Qed.

(** The run of [synpaticoFetch] on a call that is not bypassed and whose
    first underlying call is answered: the hooks around that call only add
    request- and response-phase entries to the trace, and the rest is the
    branch on the 409 status. *)
Lemma synpaticoFetch_answered st urlString init resp :
  bypassed urlString = false →
  server (calls st) (firstCall st urlString init) = Some resp →
  ∃ st1 st2,
    quietStep st st1 ∧
    quietStep (addCall st1 (firstCall st urlString init)) st2 ∧
    synpaticoFetch urlString init st =
      (if bool_decide (status resp = 409%Z)
          && truthy (acceptIdHint st urlString (bool_decide (methodOf init = "GET"))).1
       then originalFetch urlString
              (withHeaders init (Headers_delete (init_headers init) ACCEPT_ID))
       else classify resp urlString) st2.
Proof.
  intros Hby Hresp. unfold firstCall in *. rewrite Hby in *.
  unfold synpaticoFetch. rewrite Hby.
  unfold bind at 1, get_state.
  set (hint := (acceptIdHint st urlString (bool_decide (methodOf init = "GET"))).1) in *.
  destruct (notifyBeforeRequest_run urlString (methodOf init) (requestHeaders init hint)
              init (truthy hint) hint st) as (st1 & Hrun1 & Hq1).
  rewrite (bind_run _ _ _ _ _ Hrun1).
  assert (Hfetch : originalFetch urlString (withHeaders init (requestHeaders init hint)) st1
                   = (Fulfilled resp,
                      addCall st1 {| call_url := urlString;
                                     call_init := withHeaders init (requestHeaders init hint) |})).
  { rewrite originalFetch_run. destruct Hq1 as (_ & _ & -> & _). by rewrite Hresp. }
  rewrite (bind_run _ _ _ _ _ Hfetch).
  destruct (notifyAfterResponse_run urlString (methodOf init) resp (truthy hint)
              (addCall st1 {| call_url := urlString;
                              call_init := withHeaders init (requestHeaders init hint) |}))
    as (st2 & Hrun2 & Hq2).
  rewrite (bind_run _ _ _ _ _ Hrun2).
  exists st1, st2. split; [exact Hq1|]. split; [exact Hq2|]. reflexivity.
Qed.

Lemma attachedHint_Some st urlString init sid :
  attachedHint st urlString init = Some sid →
  bypassed urlString = false ∧
  (acceptIdHint st urlString (bool_decide (methodOf init = "GET"))).1 = Some sid ∧
  truthy (Some sid) = true.
Proof.
  unfold attachedHint. destruct (bypassed urlString); [discriminate|].
  destruct (truthy _) eqn:Ht; [|discriminate].
  intros Heq. rewrite Heq in Ht. auto.
Qed.

(** C2.  When the client attached the negotiation header to a call and the
    answer has status 409, it issues exactly one more call, the same call
    with the negotiation header removed, and what that call settles to is
    what [synpaticoFetch] settles to, whatever the retried response is:
    the registry and the known origins are as before, and no decode or
    learn hook is called. *)
Theorem retry_once_on_409 st urlString init sid resp :
  attachedHint st urlString init = Some sid →
  server (calls st) (firstCall st urlString init) = Some resp →
  status resp = 409%Z →
  let first := firstCall st urlString init in
  let retry :=
    {| call_url := urlString;
       call_init := withHeaders init (Headers_delete (init_headers init) ACCEPT_ID) |} in
  let out := synpaticoFetch urlString init st in
  Headers_get (init_headers (call_init first)) ACCEPT_ID = Some sid ∧
  call_url retry = call_url first ∧
  call_init retry
    = withHeaders (call_init first)
        (Headers_delete (init_headers (call_init first)) ACCEPT_ID) ∧
  out.1 = match server (calls st ++ [first]) retry with
          | Some r => Fulfilled r
          | None => Rejected NetworkError
          end ∧
  calls out.2 = calls st ++ [first; retry] ∧
  registry out.2 = registry st ∧
  knownSynpaticoOrigins out.2 = knownSynpaticoOrigins st ∧
  ∃ l, log out.2 = log st ++ l ∧ Forall (λ n, processing n = false) l.
Proof.
  intros Hhint Hresp H409 first retry out.
  destruct (attachedHint_Some _ _ _ _ Hhint) as (Hby & Hacc & Htruthy).
  destruct (synpaticoFetch_answered st urlString init resp Hby Hresp)
    as (st1 & st2 & Hq1 & Hq2 & Hrun).
  rewrite Hacc, Htruthy, H409 in Hrun.
  rewrite bool_decide_eq_true_2 in Hrun by reflexivity. cbn [andb] in Hrun.
  rewrite originalFetch_run in Hrun.
  assert (Hfirst : call_init first
                   = withHeaders init (Headers_set (init_headers init) ACCEPT_ID sid)).
  { subst first. unfold firstCall. rewrite Hby, Hacc. unfold requestHeaders.
    rewrite Htruthy. reflexivity. }
  assert (Hurl : call_url first = urlString).
  { subst first. unfold firstCall. rewrite Hby. reflexivity. }
  destruct Hq1 as (Hr1 & Ho1 & Hc1 & l1 & Hl1 & Hf1).
  destruct Hq2 as (Hr2 & Ho2 & Hc2 & l2 & Hl2 & Hf2).
  cbn [addCall registry knownSynpaticoOrigins calls log] in Hr2, Ho2, Hc2, Hl2.
  split. { rewrite Hfirst. unfold Headers_get, Headers_set. cbn [init_headers withHeaders].
           apply lookup_insert_eq. }
  split. { by rewrite Hurl. }
  split. { rewrite Hfirst. subst retry. unfold withHeaders, Headers_delete, Headers_set.
           cbn [call_init method init_headers init_body]. by rewrite delete_insert_eq. }
  subst out. rewrite Hrun. cbn [fst snd addCall registry knownSynpaticoOrigins calls log].
  rewrite Hc2, Hc1, Hr2, Hr1, Ho2, Ho1, Hl2, Hl1.
  split. { reflexivity. }
  split. { rewrite <- app_assoc. reflexivity. }
  split; [reflexivity|]. split; [reflexivity|].
  exists (l1 ++ l2). split; [symmetry; apply app_assoc | apply Forall_app; by split].
Qed.

Lemma attachedHint_truthy st urlString init :
  bypassed urlString = false →
  truthy (acceptIdHint st urlString (bool_decide (methodOf init = "GET"))).1
    = bool_decide (is_Some (attachedHint st urlString init)).
Proof.
  intros Hby. unfold attachedHint. rewrite Hby.
  destruct (acceptIdHint _ _ _).1 as [h|] eqn:Hh; cbn [truthy].
  - destruct (negb _) eqn:Hne.
    + symmetry. apply bool_decide_eq_true_2. eauto.
    + symmetry. apply bool_decide_eq_false_2. intros [? ?]. discriminate.
  - symmetry. apply bool_decide_eq_false_2. intros [? ?]. discriminate.
Qed.

Lemma classify_no_marker resp urlString st :
  Headers_has (headers resp) AGENT = false →
  classify resp urlString st = (Fulfilled resp, st).
Proof. intros Hno. unfold classify. rewrite Hno. reflexivity. Qed.

(** C3, as the code has it.  A response without the agent marker is
    returned as it is, whatever its content type, with no registry entry
    created, no origin marked, no further call and no decode or learn hook
    called, unless it is a 409 answer to a call that carried the
    negotiation header: the 409 test comes first. *)
Theorem passthrough_without_marker st urlString init resp :
  server (calls st) (firstCall st urlString init) = Some resp →
  Headers_has (headers resp) AGENT = false →
  ¬ (status resp = 409%Z ∧ is_Some (attachedHint st urlString init)) →
  let out := synpaticoFetch urlString init st in
  out.1 = Fulfilled resp ∧
  calls out.2 = calls st ++ [firstCall st urlString init] ∧
  registry out.2 = registry st ∧
  knownSynpaticoOrigins out.2 = knownSynpaticoOrigins st ∧
  ∃ l, log out.2 = log st ++ l ∧ Forall (λ n, processing n = false) l.
Proof.
  intros Hresp Hno Hnot out. subst out.
  destruct (bypassed urlString) eqn:Hby.
  - unfold synpaticoFetch. rewrite Hby. rewrite originalFetch_run.
    unfold firstCall in *. rewrite Hby in *. rewrite Hresp.
    cbn [fst snd addCall registry knownSynpaticoOrigins calls log].
    repeat split. exists []. split; [symmetry; apply app_nil_r | constructor].
  - destruct (synpaticoFetch_answered st urlString init resp Hby Hresp)
      as (st1 & st2 & Hq1 & Hq2 & Hrun).
    rewrite (attachedHint_truthy _ _ _ Hby) in Hrun.
    assert (Hcond : bool_decide (status resp = 409%Z)
                    && bool_decide (is_Some (attachedHint st urlString init)) = false).
    { apply andb_false_iff. destruct (decide (status resp = 409%Z)) as [H409|H409].
      - right. apply bool_decide_eq_false_2. intros Hs. apply Hnot. by split.
      - left. by apply bool_decide_eq_false_2. }
    rewrite Hcond in Hrun. rewrite classify_no_marker in Hrun by exact Hno.
    rewrite Hrun. cbn [fst snd].
    destruct Hq1 as (Hr1 & Ho1 & Hc1 & l1 & Hl1 & Hf1).
    destruct Hq2 as (Hr2 & Ho2 & Hc2 & l2 & Hl2 & Hf2).
    cbn [addCall registry knownSynpaticoOrigins calls log] in Hr2, Ho2, Hc2, Hl2.
    rewrite Hc2, Hc1, Hr2, Hr1, Ho2, Ho1, Hl2, Hl1.
    repeat split.
    exists (l1 ++ l2). split; [symmetry; apply app_assoc | apply Forall_app; by split].
Qed.

Lemma learnFromJsonResponse_learned resp urlString st data :
  JSON_parse (body resp) = Some data →
  isPlainObject data = true →
  let def := createStructureDefinition data in
  ∃ st',
    learnFromJsonResponse resp urlString st
      = (Fulfilled (match learnedValue urlString data with
                    | Some value => rebuildOrKeep resp value
                    | None => resp
                    end), st') ∧
    structures (registry st') = <[def_id def := def]> (structures (registry st)) ∧
    requestToStructureId (registry st')
      = <[urlString := def_id def]> (requestToStructureId (registry st)) ∧
    knownSynpaticoOrigins st' = knownSynpaticoOrigins st ∧
    calls st' = calls st ∧
    logged (λ n, isOnError n = false) st st'.
Proof.
  intros Hparse Hplain def. unfold learnFromJsonResponse, learnedValue.
  rewrite Hparse, Hplain. fold def.
  unfold bind, get_state, set_registry, callHook, ret.
  destruct (onLearnedStructure lifecycle) as [h|]; cbn [fmap option_fmap option_map default].
  - destruct (h urlString (def_id def)).
    + destruct (transformDecoded lifecycle) as [f|].
      * destruct (f urlString (def_id def) false None None data) as [value|];
          (eexists; split; [reflexivity|]; repeat split;
           eexists; split; [cbn [log addLog]; rewrite <- app_assoc; reflexivity|];
           repeat constructor).
      * eexists; split; [reflexivity|]; repeat split.
        eexists; split; [reflexivity|]. repeat constructor.
    + eexists; split; [reflexivity|]; repeat split.
      eexists; split; [reflexivity|]. repeat constructor.
  - destruct (transformDecoded lifecycle) as [f|].
    + destruct (f urlString (def_id def) false None None data) as [value|];
        (eexists; split; [reflexivity|]; repeat split;
         eexists; split; [reflexivity|]; repeat constructor).
    + eexists; split; [reflexivity|]; repeat split.
      exists []. split; [symmetry; apply app_nil_r | constructor].
Qed.

Lemma learnFromJsonResponse_skipped resp urlString st :
  (JSON_parse (body resp) = None ∨
   ∃ data, JSON_parse (body resp) = Some data ∧ isPlainObject data = false) →
  learnFromJsonResponse resp urlString st = (Fulfilled resp, st).
Proof.
  unfold learnFromJsonResponse. intros [-> | (data & -> & ->)]; reflexivity.
Qed.

Lemma decodeAndTransform_run resp urlString sid packet def st :
  ∃ st',
    decodeAndTransform resp urlString sid packet def st
      = (Fulfilled (match decode packet def, decodedValue resp urlString sid packet def with
                    | None, _ => inl CodecError
                    | Some _, None => inl HookError
                    | Some _, Some value => inr value
                    end), st') ∧
    registry st' = registry st ∧
    knownSynpaticoOrigins st' = knownSynpaticoOrigins st ∧
    calls st' = calls st ∧
    logged (λ n, isOnError n = false) st st'.
Proof.
  unfold decodeAndTransform, decodedValue.
  destruct (decode packet def) as [decoded|].
  2:{ exists st. split; [reflexivity|]. repeat split.
      exists []. split; [symmetry; apply app_nil_r | constructor]. }
  unfold bind, callHook, ret.
  destruct (onPacketDecoded lifecycle) as [h|]; cbn [fmap option_fmap option_map default].
  - destruct (h urlString sid (originalSizeOf resp) (byteLen (body resp))).
    + destruct (transformDecoded lifecycle) as [f|].
      * eexists; split; [reflexivity|]; repeat split.
        eexists; split; [cbn [log addLog]; rewrite <- app_assoc; reflexivity|].
        repeat constructor.
      * eexists; split; [reflexivity|]; repeat split.
        eexists; split; [reflexivity|]. repeat constructor.
    + eexists; split; [reflexivity|]; repeat split.
      eexists; split; [reflexivity|]. repeat constructor.
  - destruct (transformDecoded lifecycle) as [f|].
    + eexists; split; [reflexivity|]; repeat split.
      eexists; split; [reflexivity|]. repeat constructor.
    + eexists; split; [reflexivity|]; repeat split.
      exists []. split; [symmetry; apply app_nil_r | constructor].
Qed.

(** The packet path when the packet parses and its structure is known. *)
Lemma handleOptimizedPacketResponse_known resp urlString st packet sid def :
  JSON_parse (body resp) = Some packet →
  packet_structureId packet = Some (Some sid) →
  structures (registry st) !! sid = Some def →
  ∃ st1,
    registry st1 = registry st ∧
    knownSynpaticoOrigins st1 = knownSynpaticoOrigins st ∧
    calls st1 = calls st ∧
    logged (λ n, isOnError n = false) st st1 ∧
    handleOptimizedPacketResponse resp urlString st =
      match decodedResponse resp urlString sid packet def with
      | inr r => (Fulfilled r, st1)
      | inl err =>
          bind (reportError err urlString phase_decode)
               (λ _, originalFetch urlString emptyInit) st1
      end.
Proof.
  intros Hparse Hsid Hdef. unfold handleOptimizedPacketResponse.
  rewrite Hparse, Hsid. unfold bind at 1, get_state.
  cbn [mbind option_bind]. rewrite Hdef. cbn [fmap option_fmap option_map].
  destruct (decodeAndTransform_run resp urlString sid packet def st)
    as (st1 & Hrun & Hr & Ho & Hc & Hl).
  exists st1. repeat split; try assumption.
  rewrite (bind_run _ _ _ _ _ Hrun). unfold decodedResponse.
  destruct (decode packet def); [|reflexivity].
  destruct (decodedValue resp urlString sid packet def); [|reflexivity].
  destruct (newResponseError (status resp)); reflexivity.
Qed.

Lemma decodedResponse_thrown resp urlString sid packet def :
  decodedValue resp urlString sid packet def = None →
  ∃ err, decodedResponse resp urlString sid packet def = inl err.
Proof.
  intros Hnone. unfold decodedResponse. rewrite Hnone.
  destruct (decode packet def); eauto.
Qed.

Lemma decodedResponse_built resp urlString sid packet def value :
  decodedValue resp urlString sid packet def = Some value →
  newResponseError (status resp) = None →
  decodedResponse resp urlString sid packet def = inr (rebuild resp value).
Proof.
  intros Hval Hnew. unfold decodedResponse. rewrite Hval, Hnew.
  unfold decodedValue in Hval. by destruct (decode packet def).
Qed.

Lemma newResponseError_None st :
  newResponseError st = None ↔
  (200 ≤ st ≤ 599)%Z ∧ st ≠ 204%Z ∧ st ≠ 205%Z ∧ st ≠ 304%Z.
Proof.
  unfold newResponseError. repeat case_bool_decide; cbn [andb orb]; split; intros Hst;
    first [discriminate Hst | lia | reflexivity].
Qed.

(** The packet path when the packet does not parse, or names no structure
    of the registry: the fallback call is [originalFetch(urlString, {})]. *)
Lemma handleOptimizedPacketResponse_malformed resp urlString st :
  JSON_parse (body resp) = None →
  handleOptimizedPacketResponse resp urlString st =
    bind (reportError SyntaxError urlString phase_decode)
         (λ _, originalFetch urlString emptyInit) st.
Proof. intros Hparse. unfold handleOptimizedPacketResponse. by rewrite Hparse. Qed.

Lemma handleOptimizedPacketResponse_unknown resp urlString st packet sidOpt :
  JSON_parse (body resp) = Some packet →
  packet_structureId packet = Some sidOpt →
  sidOpt ≫= (λ sid, structures (registry st) !! sid) = None →
  handleOptimizedPacketResponse resp urlString st
    = originalFetch urlString emptyInit st.
Proof.
  intros Hparse Hsid Hnone. unfold handleOptimizedPacketResponse.
  rewrite Hparse, Hsid. unfold bind at 1, get_state.
  destruct sidOpt as [sid|]; cbn [mbind option_bind] in *; [|reflexivity].
  rewrite Hnone. reflexivity.
Qed.

Lemma rebuild_frame resp value :
  body (rebuild resp value) = JSON_stringify value ∧
  status (rebuild resp value) = status resp ∧
  statusText (rebuild resp value) = statusText resp ∧
  Headers_get (headers (rebuild resp value)) "Content-Type" = Some "application/json" ∧
  ∀ name, toLowerCase name ≠ "content-type" →
    Headers_get (headers (rebuild resp value)) name = Headers_get (headers resp) name.
Proof.
  unfold rebuild, Headers_get, Headers_set. cbn [body status statusText headers].
  repeat split.
  - apply lookup_insert_eq.
  - intros name Hne. apply lookup_insert_ne.
    intros Heq. apply Hne. rewrite <- Heq. reflexivity.
Qed.

(** C10, as the code has it.  When the learn path learns (the body parses
    to a plain object and no hook throws), and when the decode path
    decodes (the packet parses, its structure is known and neither the
    codec nor a hook throws), the client hands the value, transformed if a
    [transformDecoded] hook is configured, to the constructor of a new
    response.  For a status the constructor accepts (200 to 599 and not
    204, 205 or 304) it answers with that response: its body is
    [JSON.stringify] of the value, whatever the bytes of the original body
    were; status and statusText are the original's; Content-Type is
    [application/json] and every other header is the original's.  For any
    other status the constructor throws: the learn path then answers with
    the original response, and the decode path reports the constructor's
    error with the phase [decode] and answers with what its bare reissue
    settles to. *)
Theorem rebuilt_response_frame st urlString resp value :
  (∀ data,
     JSON_parse (body resp) = Some data →
     isPlainObject data = true →
     learnedValue urlString data = Some value →
     (learnFromJsonResponse resp urlString st).1
       = Fulfilled (match newResponseError (status resp) with
                    | None => rebuild resp value
                    | Some _ => resp
                    end)) ∧
  (∀ packet sid def,
     JSON_parse (body resp) = Some packet →
     packet_structureId packet = Some (Some sid) →
     structures (registry st) !! sid = Some def →
     decodedValue resp urlString sid packet def = Some value →
     let out := handleOptimizedPacketResponse resp urlString st in
     let reissue := {| call_url := urlString; call_init := emptyInit |} in
     match newResponseError (status resp) with
     | None => out.1 = Fulfilled (rebuild resp value) ∧ calls out.2 = calls st
     | Some err =>
         out.1 = match server (calls st) reissue with
                 | Some r => Fulfilled r
                 | None => Rejected NetworkError
                 end ∧
         calls out.2 = calls st ++ [reissue] ∧
         ∃ l, Forall (λ n, isOnError n = false) l ∧
              log out.2
                = log st ++ l ++ (if onError lifecycle
                                  then [OnError err urlString phase_decode] else [])
     end) ∧
  (newResponseError (status resp) = None ↔
   (200 ≤ status resp ≤ 599)%Z ∧
   status resp ≠ 204%Z ∧ status resp ≠ 205%Z ∧ status resp ≠ 304%Z) ∧
  body (rebuild resp value) = JSON_stringify value ∧
  status (rebuild resp value) = status resp ∧
  statusText (rebuild resp value) = statusText resp ∧
  Headers_get (headers (rebuild resp value)) "Content-Type" = Some "application/json" ∧
  ∀ name, toLowerCase name ≠ "content-type" →
    Headers_get (headers (rebuild resp value)) name = Headers_get (headers resp) name.
Proof.
  split; [|split; [|split; [apply newResponseError_None | apply rebuild_frame]]].
  - intros data Hparse Hplain Hval.
    destruct (learnFromJsonResponse_learned resp urlString st data Hparse Hplain)
      as (st' & Hrun & _).
    rewrite Hrun, Hval. reflexivity.
  - intros packet sid def Hparse Hsid Hdef Hval out reissue. subst out reissue.
    destruct (handleOptimizedPacketResponse_known resp urlString st packet sid def
                Hparse Hsid Hdef) as (st1 & _ & _ & Hc1 & (l & Hl & HF) & Hrun).
    rewrite Hrun. unfold decodedResponse. rewrite Hval.
    assert (Hdec : is_Some (decode packet def)).
    { unfold decodedValue in Hval. destruct (decode packet def); [eauto | discriminate]. }
    destruct Hdec as [decoded ->].
    destruct (newResponseError (status resp)) as [err|]; [|by split].
    destruct (reportError_run err urlString phase_decode st1)
      as (st' & Hrun' & _ & _ & Hc & Hl').
    rewrite (bind_run _ _ _ _ _ Hrun'), originalFetch_run. cbn [fst snd addCall calls log].
    rewrite Hc, Hc1. split; [reflexivity|]. split; [reflexivity|].
    exists l. split; [exact HF|]. rewrite Hl', Hl. symmetry. apply app_assoc.
Qed.

Lemma markOrigin_run urlString st :
  ∃ st', markOrigin urlString st = (Fulfilled tt, st') ∧
         registry st' = registry st ∧ calls st' = calls st ∧ log st' = log st ∧
         knownSynpaticoOrigins st'
           = match URL_origin urlString with
             | Some origin => {[origin]} ∪ knownSynpaticoOrigins st
             | None => knownSynpaticoOrigins st
             end.
Proof.
  unfold markOrigin, bind, get_state, set_origins, ret.
  destruct (URL_origin urlString); eexists; (split; [reflexivity|]); repeat split.
Qed.

(** The classification of a response with the agent marker and a plain
    JSON content type. *)
Lemma classify_json resp urlString st :
  Headers_has (headers resp) AGENT = true →
  includes (default "" (Headers_get (headers resp) "content-type")) PACKET_CT = false →
  includes (default "" (Headers_get (headers resp) "content-type")) JSON_CT = true →
  ∃ st', registry st' = registry st ∧ calls st' = calls st ∧ log st' = log st ∧
         classify resp urlString st = learnFromJsonResponse resp urlString st'.
Proof.
  intros Hagent Hpacket Hjson. unfold classify. rewrite Hagent. cbn [negb].
  destruct (markOrigin_run urlString st) as (st' & Hrun & Hr & Hc & Hl & _).
  exists st'. repeat split; try assumption.
  rewrite (bind_run _ _ _ _ _ Hrun). rewrite Hpacket, Hjson. reflexivity.
Qed.

Lemma classify_packet resp urlString st :
  Headers_has (headers resp) AGENT = true →
  includes (default "" (Headers_get (headers resp) "content-type")) PACKET_CT = true →
  ∃ st', registry st' = registry st ∧ calls st' = calls st ∧ log st' = log st ∧
         classify resp urlString st = handleOptimizedPacketResponse resp urlString st'.
Proof.
  intros Hagent Hpacket. unfold classify. rewrite Hagent. cbn [negb].
  destruct (markOrigin_run urlString st) as (st' & Hrun & Hr & Hc & Hl & _).
  exists st'. repeat split; try assumption.
  rewrite (bind_run _ _ _ _ _ Hrun). rewrite Hpacket. reflexivity.
Qed.

(** C1, as the code has it.  On a call that is not bypassed, a response
    with the agent marker, a plain JSON content type and a plain-object
    body, which is not a 409 answer to a call that carried the negotiation
    header, is answered, when no [transformDecoded] hook is configured, by
    the response itself or by its rebuild around [JSON.stringify] of the
    parsed body: a response whose body parses to the same value, as far as
    [JSON.parse] undoes [JSON.stringify] on it.  The registry then maps
    that URL to the structure id the codec computed, every other entry of
    [requestToStructureId] being as before, and no further call is made. *)
Theorem learn_plain_object st urlString init resp data :
  bypassed urlString = false →
  server (calls st) (firstCall st urlString init) = Some resp →
  ¬ (status resp = 409%Z ∧ is_Some (attachedHint st urlString init)) →
  Headers_has (headers resp) AGENT = true →
  includes (default "" (Headers_get (headers resp) "content-type")) PACKET_CT = false →
  includes (default "" (Headers_get (headers resp) "content-type")) JSON_CT = true →
  JSON_parse (body resp) = Some data →
  isPlainObject data = true →
  transformDecoded lifecycle = None →
  let out := synpaticoFetch urlString init st in
  let def := createStructureDefinition data in
  (∃ r, out.1 = Fulfilled r ∧
        (r = resp ∨ r = rebuild resp data) ∧
        (JSON_parse (JSON_stringify data) = Some data →
         JSON_parse (body r) = Some data)) ∧
  requestToStructureId (registry out.2)
    = <[urlString := def_id def]> (requestToStructureId (registry st)) ∧
  structures (registry out.2) = <[def_id def := def]> (structures (registry st)) ∧
  calls out.2 = calls st ++ [firstCall st urlString init].
Proof.
  intros Hby Hresp Hnot Hagent Hpacket Hjson Hparse Hplain Hnotr out def.
  subst out.
  destruct (synpaticoFetch_answered st urlString init resp Hby Hresp)
    as (st1 & st2 & Hq1 & Hq2 & Hrun).
  rewrite (attachedHint_truthy _ _ _ Hby) in Hrun.
  assert (Hcond : bool_decide (status resp = 409%Z)
                  && bool_decide (is_Some (attachedHint st urlString init)) = false).
  { apply andb_false_iff. destruct (decide (status resp = 409%Z)) as [H409|H409].
    - right. apply bool_decide_eq_false_2. intros Hs. apply Hnot. by split.
    - left. by apply bool_decide_eq_false_2. }
  rewrite Hcond in Hrun.
  destruct (classify_json resp urlString st2 Hagent Hpacket Hjson)
    as (st3 & Hr3 & Hc3 & _ & Hcl).
  rewrite Hcl in Hrun.
  destruct (learnFromJsonResponse_learned resp urlString st3 data Hparse Hplain)
    as (st4 & Hlearn & Hs4 & Hm4 & _ & Hc4 & _).
  rewrite Hlearn in Hrun. rewrite Hrun. cbn [fst snd].
  destruct Hq1 as (Hr1 & _ & Hc1 & _). destruct Hq2 as (Hr2 & _ & Hc2 & _).
  cbn [addCall registry calls] in Hr2, Hc2.
  split.
  - eexists. split; [reflexivity|].
    unfold learnedValue. rewrite Hnotr.
    destruct (default true _).
    + unfold rebuildOrKeep. destruct (newResponseError (status resp)).
      * split; [by left|]. intros _. exact Hparse.
      * split; [by right|]. intros Hround. unfold rebuild. cbn [body]. exact Hround.
    + split; [by left|]. intros _. exact Hparse.
  - rewrite Hm4, Hs4, Hc4, Hr3, Hc3, Hr2, Hc2, Hr1, Hc1. fold def. repeat split.
Qed.

Lemma acceptIdHint_cannot_optimize st urlString :
  (acceptIdHint st urlString false).1 = None.
Proof. unfold acceptIdHint. destruct (URL_origin urlString); reflexivity. Qed.

(** C4, as the code has it.  A call whose method is not GET gets no
    negotiation header: its first underlying call has the caller's method,
    headers and body, and its answer is never retried; once answered, the
    call goes on with the classification of the response like any other
    call. *)
Theorem non_get_sends_no_hint st urlString init :
  methodOf init ≠ "GET" →
  let first := firstCall st urlString init in
  attachedHint st urlString init = None ∧
  call_url first = urlString ∧
  method (call_init first) = method init ∧
  init_headers (call_init first) = init_headers init ∧
  init_body (call_init first) = init_body init ∧
  ∀ resp, server (calls st) first = Some resp →
    ∃ st2,
      calls st2 = calls st ++ [first] ∧
      registry st2 = registry st ∧
      knownSynpaticoOrigins st2 = knownSynpaticoOrigins st ∧
      synpaticoFetch urlString init st =
        if bypassed urlString then (Fulfilled resp, st2) else classify resp urlString st2.
Proof.
  intros Hmethod first.
  assert (Hacc : (acceptIdHint st urlString (bool_decide (methodOf init = "GET"))).1 = None).
  { rewrite bool_decide_eq_false_2 by exact Hmethod. apply acceptIdHint_cannot_optimize. }
  assert (Hfirst : first = if bypassed urlString
                           then {| call_url := urlString; call_init := init |}
                           else {| call_url := urlString;
                                   call_init := withHeaders init (init_headers init) |}).
  { subst first. unfold firstCall. rewrite Hacc. reflexivity. }
  split. { unfold attachedHint. rewrite Hacc. by destruct (bypassed urlString). }
  split. { rewrite Hfirst. by destruct (bypassed urlString). }
  split. { rewrite Hfirst. by destruct (bypassed urlString). }
  split. { rewrite Hfirst. by destruct (bypassed urlString). }
  split. { rewrite Hfirst. by destruct (bypassed urlString). }
  intros resp Hresp. destruct (bypassed urlString) eqn:Hby.
  - exists (addCall st first). repeat split.
    unfold synpaticoFetch. rewrite Hby, originalFetch_run.
    rewrite Hfirst in Hresp |- *. by rewrite Hresp.
  - destruct (synpaticoFetch_answered st urlString init resp Hby Hresp)
      as (st1 & st2 & Hq1 & Hq2 & Hrun).
    rewrite Hacc in Hrun. cbn [truthy] in Hrun. rewrite andb_false_r in Hrun.
    exists st2. destruct Hq1 as (Hr1 & Ho1 & Hc1 & _). destruct Hq2 as (Hr2 & Ho2 & Hc2 & _).
    cbn [addCall registry knownSynpaticoOrigins calls] in Hr2, Ho2, Hc2.
    rewrite Hc2, Hc1, Hr2, Hr1, Ho2, Ho1. repeat split. exact Hrun.
Qed.

(** The key of the core client, at hint time: the URL string itself. *)
Lemma acceptIdHint_lookup st urlString origin :
  URL_origin urlString = Some origin →
  origin ∈ knownSynpaticoOrigins st →
  (acceptIdHint st urlString true).1 = requestToStructureId (registry st) !! urlString.
Proof.
  intros Ho Hin. unfold acceptIdHint. rewrite Ho.
  rewrite bool_decide_eq_true_2 by exact Hin. reflexivity.
Qed.

Lemma acceptIdHint_le st urlString canOptimize sid :
  (acceptIdHint st urlString canOptimize).1 = Some sid →
  requestToStructureId (registry st) !! urlString = Some sid.
Proof.
  unfold acceptIdHint. destruct (URL_origin urlString); [|discriminate].
  destruct (canOptimize && _); [|discriminate]. auto.
Qed.

(** ** What a run adds to the trace *)

Section Logged.
Variable P : Notification → Prop.

Lemma logged_refl st : logged P st st.
Proof. exists []. split; [symmetry; apply app_nil_r | constructor]. Qed.

Lemma logged_trans st1 st2 st3 : logged P st1 st2 → logged P st2 st3 → logged P st1 st3.
Proof.
  intros (l1 & H1 & F1) (l2 & H2 & F2). exists (l1 ++ l2). split.
  - rewrite H2, H1. symmetry. apply app_assoc.
  - apply Forall_app. by split.
Qed.

Lemma logged_bind {A B} (m : Async A) (k : A → Async B) st :
  logged P st (m st).2 →
  (∀ a st', logged P st' (k a st').2) →
  logged P st (bind m k st).2.
Proof.
  intros Hm Hk. unfold bind. destruct (m st) as [[a|e] st'] eqn:Hrun; cbn [snd] in *.
  - eapply logged_trans; [exact Hm | apply Hk].
  - exact Hm.
Qed.

Lemma logged_callHook outcome n st : P n → logged P st (callHook outcome n st).2.
Proof.
  intros Hn. unfold callHook. destruct outcome; cbn [snd]; [|apply logged_refl].
  exists [n]. split; [reflexivity | by constructor].
Qed.

Lemma logged_reportError err url phase st :
  P (OnError err url phase) → logged P st (reportError err url phase st).2.
Proof.
  intros Hn. unfold reportError. apply logged_bind; [by apply logged_callHook|].
  intros _ st'. apply logged_refl.
Qed.

Lemma logged_originalFetch url init st : logged P st (originalFetch url init st).2.
Proof.
  rewrite originalFetch_run. cbn [snd]. exists [].
  split; [symmetry; apply app_nil_r | constructor].
Qed.

Lemma logged_markOrigin url st : logged P st (markOrigin url st).2.
Proof.
  destruct (markOrigin_run url st) as (st' & -> & _ & _ & Hl & _). cbn [snd].
  exists []. split; [rewrite Hl; symmetry; apply app_nil_r | constructor].
Qed.

End Logged.

Lemma logged_weaken (P Q : Notification → Prop) st st' :
  (∀ n, P n → Q n) → logged P st st' → logged Q st st'.
Proof.
  intros HPQ (l & Hl & HF). exists l. split; [exact Hl|].
  eapply Forall_impl; [exact HF | exact HPQ].
Qed.

Lemma isOnError_reportsLearn n : isOnError n = false → reportsLearn n = false.
Proof. by destruct n. Qed.

Lemma processing_reportsLearn n : processing n = false → reportsLearn n = false.
Proof. destruct n as [| | | | |e u []]; auto. Qed.

Lemma quietStep_logged st st' :
  quietStep st st' → logged (λ n, reportsLearn n = false) st st'.
Proof.
  intros (_ & _ & _ & l & Hl & HF). exists l. split; [exact Hl|].
  eapply Forall_impl; [exact HF | exact processing_reportsLearn].
Qed.

Lemma handleOptimizedPacketResponse_logged resp urlString st :
  logged (λ n, reportsLearn n = false) st (handleOptimizedPacketResponse resp urlString st).2.
Proof.
  unfold handleOptimizedPacketResponse.
  destruct (JSON_parse (body resp)) as [packet|].
  2:{ apply logged_bind; [by apply logged_reportError|].
      intros _ st'. apply logged_originalFetch. }
  destruct (packet_structureId packet) as [sidOpt|]; [|apply logged_refl].
  unfold bind at 1, get_state.
  destruct (sidOpt ≫= _) as [[sid def]|]; [|apply logged_originalFetch].
  apply logged_bind.
  - destruct (decodeAndTransform_run resp urlString sid packet def st)
      as (st' & -> & _ & _ & _ & Hl). cbn [snd].
    eapply logged_weaken; [exact isOnError_reportsLearn | exact Hl].
  - intros [err|value] st'.
    + apply logged_bind; [by apply logged_reportError|].
      intros _ st''. apply logged_originalFetch.
    + destruct (newResponseError (status resp)) as [err|]; [|apply logged_refl].
      apply logged_bind; [by apply logged_reportError|].
      intros _ st''. apply logged_originalFetch.
Qed.

Lemma learnFromJsonResponse_logged resp urlString st :
  logged (λ n, reportsLearn n = false) st (learnFromJsonResponse resp urlString st).2.
Proof.
  destruct (JSON_parse (body resp)) as [data|] eqn:Hparse.
  2:{ rewrite learnFromJsonResponse_skipped by (by left). apply logged_refl. }
  destruct (isPlainObject data) eqn:Hplain.
  2:{ rewrite learnFromJsonResponse_skipped by (right; eauto). apply logged_refl. }
  destruct (learnFromJsonResponse_learned resp urlString st data Hparse Hplain)
    as (st' & -> & _ & _ & _ & _ & Hl). cbn [snd].
  eapply logged_weaken; [exact isOnError_reportsLearn | exact Hl].
Qed.

Lemma classify_logged resp urlString st :
  logged (λ n, reportsLearn n = false) st (classify resp urlString st).2.
Proof.
  unfold classify. destruct (negb _); [apply logged_refl|].
  apply logged_bind; [apply logged_markOrigin|]. intros _ st'.
  destruct (includes _ PACKET_CT); [apply handleOptimizedPacketResponse_logged|].
  destruct (includes _ JSON_CT); [apply learnFromJsonResponse_logged | apply logged_refl].
Qed.

Lemma synpaticoFetch_logged urlString init st :
  logged (λ n, reportsLearn n = false) st (synpaticoFetch urlString init st).2.
Proof.
  unfold synpaticoFetch. destruct (bypassed urlString); [apply logged_originalFetch|].
  unfold bind at 1, get_state.
  apply logged_bind.
  { destruct (notifyBeforeRequest_run urlString (methodOf init)
                (requestHeaders init
                   (acceptIdHint st urlString (bool_decide (methodOf init = "GET"))).1)
                init
                (truthy (acceptIdHint st urlString (bool_decide (methodOf init = "GET"))).1)
                (acceptIdHint st urlString (bool_decide (methodOf init = "GET"))).1 st)
      as (st1 & -> & Hq). by apply quietStep_logged. }
  intros _ st1. apply logged_bind; [apply logged_originalFetch|].
  intros resp st2. apply logged_bind.
  { destruct (notifyAfterResponse_run urlString (methodOf init) resp
                (truthy (acceptIdHint st urlString (bool_decide (methodOf init = "GET"))).1)
                st2) as (st3 & -> & Hq). by apply quietStep_logged. }
  intros _ st3. destruct (_ && _); [apply logged_originalFetch | apply classify_logged].
Qed.

(** C7, as the code has it.  Malformed packet JSON and whatever is thrown
    in the decoding block (by [decode], by a hook called there, or by the
    constructor of the new response) are reported to [onError], when that
    hook is configured, with the phase [decode] and with the error that
    was caught: the [SyntaxError] of [JSON.parse], what [decode] threw,
    what the hook threw, or the error of the constructor.  A body that
    does not parse in the learning path and a URL that does not parse are
    recovered from with no call of [onError] at all: the response is
    returned, or the hint left out, and the state, trace included, is as
    before.  No call of [onError] carries the phase [learn]. *)
Theorem errors_reported_or_swallowed st urlString resp :
  (JSON_parse (body resp) = None →
   log (handleOptimizedPacketResponse resp urlString st).2
     = log st ++ (if onError lifecycle
                  then [OnError SyntaxError urlString phase_decode] else [])) ∧
  (∀ packet sid def err,
     JSON_parse (body resp) = Some packet →
     packet_structureId packet = Some (Some sid) →
     structures (registry st) !! sid = Some def →
     decodedResponse resp urlString sid packet def = inl err →
     ∃ l, Forall (λ n, isOnError n = false) l ∧
          log (handleOptimizedPacketResponse resp urlString st).2
            = log st ++ l ++ (if onError lifecycle
                              then [OnError err urlString phase_decode] else [])) ∧
  (JSON_parse (body resp) = None →
   learnFromJsonResponse resp urlString st = (Fulfilled resp, st)) ∧
  (URL_origin urlString = None →
   (∀ canOptimize, acceptIdHint st urlString canOptimize = (None, None)) ∧
   markOrigin urlString st = (Fulfilled tt, st)) ∧
  (∀ init, logged (λ n, reportsLearn n = false) st (synpaticoFetch urlString init st).2) ∧
  (∀ sid packet def,
     (decode packet def = None →
      decodedResponse resp urlString sid packet def = inl CodecError) ∧
     (is_Some (decode packet def) →
      decodedValue resp urlString sid packet def = None →
      decodedResponse resp urlString sid packet def = inl HookError) ∧
     (∀ value err,
        decodedValue resp urlString sid packet def = Some value →
        newResponseError (status resp) = Some err →
        decodedResponse resp urlString sid packet def = inl err)).
Proof.
  split; [|split; [|split; [|split; [|split]]]].
  - intros Hparse. rewrite handleOptimizedPacketResponse_malformed by exact Hparse.
    destruct (reportError_run SyntaxError urlString phase_decode st)
      as (st' & Hrun & _ & _ & _ & Hl).
    rewrite (bind_run _ _ _ _ _ Hrun), originalFetch_run. cbn [snd addCall log]. exact Hl.
  - intros packet sid def err Hparse Hsid Hdef Herr.
    destruct (handleOptimizedPacketResponse_known resp urlString st packet sid def
                Hparse Hsid Hdef) as (st1 & _ & _ & _ & (l & Hl & HF) & Hrun).
    rewrite Herr in Hrun. rewrite Hrun.
    destruct (reportError_run err urlString phase_decode st1)
      as (st' & Hrun' & _ & _ & _ & Hl').
    rewrite (bind_run _ _ _ _ _ Hrun'), originalFetch_run. cbn [snd addCall log].
    exists l. split; [exact HF|]. rewrite Hl', Hl. symmetry. apply app_assoc.
  - intros Hparse. apply learnFromJsonResponse_skipped. by left.
  - intros Hurl. split.
    + intros c. unfold acceptIdHint. by rewrite Hurl.
    + unfold markOrigin, bind, get_state, ret. by rewrite Hurl.
  - intros init. apply synpaticoFetch_logged.
  - intros sid packet def. unfold decodedResponse. split; [|split].
    + by intros ->.
    + intros [decoded ->] ->. reflexivity.
    + intros value err Hval Hnew. rewrite Hval, Hnew.
      unfold decodedValue in Hval. by destruct (decode packet def).
Qed.

(** C6, as the code has it.  When the packet does not parse, when it names
    no structure of the registry, and when decoding throws, the one call
    the packet path makes is [originalFetch(urlString, {})]: the URL with
    an empty [init], whatever method, headers and body the caller gave. *)
Theorem fallback_reissues_bare_call st urlString resp :
  (JSON_parse (body resp) = None ∨
   (∃ packet sidOpt,
      JSON_parse (body resp) = Some packet ∧
      packet_structureId packet = Some sidOpt ∧
      sidOpt ≫= (λ sid, structures (registry st) !! sid) = None) ∨
   (∃ packet sid def,
      JSON_parse (body resp) = Some packet ∧
      packet_structureId packet = Some (Some sid) ∧
      structures (registry st) !! sid = Some def ∧
      decodedValue resp urlString sid packet def = None)) →
  let out := handleOptimizedPacketResponse resp urlString st in
  let reissue := {| call_url := urlString; call_init := emptyInit |} in
  calls out.2 = calls st ++ [reissue] ∧
  out.1 = match server (calls st) reissue with
          | Some r => Fulfilled r
          | None => Rejected NetworkError
          end.
Proof.
  intros [Hparse | [(packet & sidOpt & Hparse & Hsid & Hnone)
                   | (packet & sid & def & Hparse & Hsid & Hdef & Hnone)]] out reissue;
    subst out.
  - rewrite handleOptimizedPacketResponse_malformed by exact Hparse.
    destruct (reportError_run SyntaxError urlString phase_decode st)
      as (st' & Hrun & _ & _ & Hc & _).
    rewrite (bind_run _ _ _ _ _ Hrun), originalFetch_run. cbn [fst snd addCall calls].
    rewrite Hc. by split.
  - rewrite (handleOptimizedPacketResponse_unknown _ _ _ _ _ Hparse Hsid Hnone).
    rewrite originalFetch_run. by split.
  - destruct (handleOptimizedPacketResponse_known resp urlString st packet sid def
                Hparse Hsid Hdef) as (st1 & _ & _ & Hc1 & _ & Hrun).
    destruct (decodedResponse_thrown resp urlString sid packet def Hnone) as [err Herr].
    rewrite Herr in Hrun. rewrite Hrun.
    destruct (reportError_run err urlString phase_decode st1)
      as (st' & Hrun' & _ & _ & Hc & _).
    rewrite (bind_run _ _ _ _ _ Hrun'), originalFetch_run. cbn [fst snd addCall calls].
    rewrite Hc, Hc1. by split.
Qed.

(** ** Further properties of the core: what one call does to the state *)

(** The registry after [learnFromJsonResponse] has learned [data] for
    [urlString] (lines 109-111). *)
Definition learnedRegistry (r : ClientRegistry) (urlString : string) (data : JSON)
    : ClientRegistry :=
  {| structures :=
       <[def_id (createStructureDefinition data) := createStructureDefinition data]>
         (structures r);
     requestToStructureId :=
       <[urlString := def_id (createStructureDefinition data)]> (requestToStructureId r) |}.

(** A call to [urlString] without the negotiation header. *)
Definition unhintedCallTo (urlString : string) (c : Call) : Prop :=
  call_url c = urlString ∧ Headers_get (init_headers (call_init c)) ACCEPT_ID = None.

(** At most [n] more underlying calls, all to [urlString] and without the
    negotiation header. *)
Definition callsWithin (n : nat) (urlString : string) (st st' : State) : Prop :=
  ∃ cs, calls st' = calls st ++ cs ∧ length cs ≤ n ∧
        Forall (unhintedCallTo urlString) cs.

(** Every URL of [requestToStructureId] names a structure that [structures]
    holds under that id. *)
Definition consistent (r : ClientRegistry) : Prop :=
  ∀ urlString sid,
    requestToStructureId r !! urlString = Some sid →
    ∃ def, structures r !! sid = Some def ∧ def_id def = sid.

(** What a user of the client does with it. *)
Inductive Operation :=
| Fetch (urlString : string) (init : RequestInit)
| ClearCache.

Definition perform (st : State) (op : Operation) : State :=
  match op with
  | Fetch urlString init => (synpaticoFetch urlString init st).2
  | ClearCache => clearCache st
  end.

(** The state of a client created by [createCore] after a sequence of
    operations, each awaited before the next. *)
Definition session (ops : list Operation) : State := foldl perform createCore ops.

Lemma callsWithin_refl n urlString st : callsWithin n urlString st st.
Proof.
  exists []. split; [symmetry; apply app_nil_r|]. split; [cbn; lia | constructor].
Qed.

Lemma reissue_unhinted urlString :
  unhintedCallTo urlString {| call_url := urlString; call_init := emptyInit |}.
Proof. split; [reflexivity|]. apply lookup_empty. Qed.

Lemma retry_unhinted urlString init :
  unhintedCallTo urlString
    {| call_url := urlString;
       call_init := withHeaders init (Headers_delete (init_headers init) ACCEPT_ID) |}.
Proof. split; [reflexivity|]. apply lookup_delete_eq. Qed.

Lemma callsWithin_addCall urlString st st1 c :
  calls st1 = calls st → unhintedCallTo urlString c →
  callsWithin 1 urlString st (addCall st1 c).
Proof.
  intros Hc Hurl. exists [c]. cbn [addCall calls]. rewrite Hc.
  split; [reflexivity|]. split; [cbn; lia|]. constructor; [exact Hurl | constructor].
Qed.

Lemma callsWithin_same n urlString st st1 :
  calls st1 = calls st → callsWithin n urlString st st1.
Proof.
  intros Hc. exists []. rewrite Hc. split; [symmetry; apply app_nil_r|].
  split; [cbn; lia | constructor].
Qed.

Lemma registry_eta (r : ClientRegistry) s m :
  structures r = s → requestToStructureId r = m →
  r = {| structures := s; requestToStructureId := m |}.
Proof. destruct r. cbn. by intros -> ->. Qed.

Lemma handleOptimizedPacketResponse_effect resp urlString st :
  registry (handleOptimizedPacketResponse resp urlString st).2 = registry st ∧
  knownSynpaticoOrigins (handleOptimizedPacketResponse resp urlString st).2
    = knownSynpaticoOrigins st ∧
  callsWithin 1 urlString st (handleOptimizedPacketResponse resp urlString st).2.
Proof.
  destruct (JSON_parse (body resp)) as [packet|] eqn:Hparse.
  2:{ rewrite handleOptimizedPacketResponse_malformed by exact Hparse.
      destruct (reportError_run SyntaxError urlString phase_decode st)
        as (st' & Hrun & Hr & Ho & Hc & _).
      rewrite (bind_run _ _ _ _ _ Hrun), originalFetch_run.
      cbn [snd addCall registry knownSynpaticoOrigins].
      split; [exact Hr|]. split; [exact Ho|].
      apply callsWithin_addCall; [exact Hc | apply reissue_unhinted]. }
  destruct (packet_structureId packet) as [sidOpt|] eqn:Hsid.
  2:{ unfold handleOptimizedPacketResponse. rewrite Hparse, Hsid. cbn [reject snd].
      repeat split. apply callsWithin_refl. }
  destruct (sidOpt ≫= (λ sid, structures (registry st) !! sid)) as [def|] eqn:Hdef.
  2:{ rewrite (handleOptimizedPacketResponse_unknown _ _ _ _ _ Hparse Hsid Hdef).
      rewrite originalFetch_run. cbn [snd addCall registry knownSynpaticoOrigins].
      repeat split. apply callsWithin_addCall; [reflexivity | apply reissue_unhinted]. }
  destruct sidOpt as [sid|]; [|discriminate]. cbn [mbind option_bind] in Hdef.
  destruct (handleOptimizedPacketResponse_known resp urlString st packet sid def
              Hparse Hsid Hdef) as (st1 & Hr1 & Ho1 & Hc1 & _ & Hrun).
  rewrite Hrun. destruct (decodedResponse resp urlString sid packet def) as [err|r].
  2:{ cbn [snd]. split; [exact Hr1|]. split; [exact Ho1|]. by apply callsWithin_same. }
  - destruct (reportError_run err urlString phase_decode st1)
      as (st' & Hrun' & Hr & Ho & Hc & _).
    rewrite (bind_run _ _ _ _ _ Hrun'), originalFetch_run.
    cbn [snd addCall registry knownSynpaticoOrigins].
    split; [congruence|]. split; [congruence|].
    apply callsWithin_addCall; [congruence | apply reissue_unhinted].
Qed.

Lemma learnFromJsonResponse_effect resp urlString st :
  (registry (learnFromJsonResponse resp urlString st).2 = registry st ∨
   ∃ data, JSON_parse (body resp) = Some data ∧ isPlainObject data = true ∧
           registry (learnFromJsonResponse resp urlString st).2
             = learnedRegistry (registry st) urlString data) ∧
  knownSynpaticoOrigins (learnFromJsonResponse resp urlString st).2
    = knownSynpaticoOrigins st ∧
  calls (learnFromJsonResponse resp urlString st).2 = calls st.
Proof.
  destruct (JSON_parse (body resp)) as [data|] eqn:Hparse.
  2:{ rewrite learnFromJsonResponse_skipped by (by left). cbn [snd]. auto. }
  destruct (isPlainObject data) eqn:Hplain.
  2:{ rewrite learnFromJsonResponse_skipped by (right; eauto). cbn [snd]. auto. }
  destruct (learnFromJsonResponse_learned resp urlString st data Hparse Hplain)
    as (st' & -> & Hs & Hm & Ho & Hc & _). cbn [snd].
  split; [|by split]. right. exists data. split; [reflexivity|]. split; [exact Hplain|].
  by apply registry_eta.
Qed.

(** What the classification of a response does to the state. *)
Lemma classify_effect resp urlString st :
  (registry (classify resp urlString st).2 = registry st ∨
   ∃ data, isPlainObject data = true ∧
           registry (classify resp urlString st).2
             = learnedRegistry (registry st) urlString data) ∧
  (knownSynpaticoOrigins (classify resp urlString st).2 = knownSynpaticoOrigins st ∨
   ∃ origin, URL_origin urlString = Some origin ∧
             knownSynpaticoOrigins (classify resp urlString st).2
               = {[origin]} ∪ knownSynpaticoOrigins st) ∧
  callsWithin 1 urlString st (classify resp urlString st).2.
Proof.
  unfold classify. destruct (negb _).
  { cbn [ret snd]. split; [by left|]. split; [by left | apply callsWithin_refl]. }
  destruct (markOrigin_run urlString st) as (st' & Hrun & Hr & Hc & _ & Ho).
  rewrite (bind_run _ _ _ _ _ Hrun).
  assert (Hknown : ∀ o : gset string,
            o = knownSynpaticoOrigins st' →
            o = knownSynpaticoOrigins st ∨
            ∃ origin, URL_origin urlString = Some origin ∧
                      o = {[origin]} ∪ knownSynpaticoOrigins st).
  { intros o ->. rewrite Ho. destruct (URL_origin urlString); eauto. }
  destruct (includes _ PACKET_CT).
  { destruct (handleOptimizedPacketResponse_effect resp urlString st')
      as (Hr' & Ho' & cs & Hcs & Hlen & Hall).
    split; [left; congruence|]. split; [apply Hknown; exact Ho'|].
    exists cs. split; [congruence | by split]. }
  destruct (includes _ JSON_CT).
  { destruct (learnFromJsonResponse_effect resp urlString st') as (Hr' & Ho' & Hc').
    split; [|split; [apply Hknown; exact Ho'|]].
    - destruct Hr' as [Hr' | (data & _ & Hplain & Hr')]; [left; congruence|].
      right. exists data. split; [exact Hplain|]. rewrite Hr', Hr. reflexivity.
    - apply callsWithin_same. congruence. }
  cbn [ret snd]. split; [left; exact Hr|]. split; [by apply Hknown|].
  by apply callsWithin_same.
Qed.

(** The run of [synpaticoFetch] on a call that is not bypassed and whose
    first underlying call fails. *)
Lemma synpaticoFetch_unanswered st urlString init :
  bypassed urlString = false →
  server (calls st) (firstCall st urlString init) = None →
  ∃ st1, quietStep st st1 ∧
         synpaticoFetch urlString init st
           = (Rejected NetworkError, addCall st1 (firstCall st urlString init)).
Proof.
  intros Hby Hresp. unfold firstCall in *. rewrite Hby in *.
  unfold synpaticoFetch. rewrite Hby. unfold bind at 1, get_state.
  set (hint := (acceptIdHint st urlString (bool_decide (methodOf init = "GET"))).1) in *.
  destruct (notifyBeforeRequest_run urlString (methodOf init) (requestHeaders init hint)
              init (truthy hint) hint st) as (st1 & Hrun1 & Hq1).
  rewrite (bind_run _ _ _ _ _ Hrun1).
  exists st1. split; [exact Hq1|].
  unfold bind. rewrite originalFetch_run.
  destruct Hq1 as (_ & _ & -> & _). by rewrite Hresp.
Qed.

Lemma firstCall_url st urlString init : call_url (firstCall st urlString init) = urlString.
Proof. unfold firstCall. by destruct (bypassed urlString). Qed.

(** What one call of [synpaticoFetch] does to the state, whatever the
    server answers. *)
Lemma synpaticoFetch_effect st urlString init :
  let st' := (synpaticoFetch urlString init st).2 in
  (∃ cs, calls st' = calls st ++ firstCall st urlString init :: cs ∧ length cs ≤ 1 ∧
         Forall (unhintedCallTo urlString) cs) ∧
  (registry st' = registry st ∨
   ∃ data, isPlainObject data = true ∧
           registry st' = learnedRegistry (registry st) urlString data) ∧
  (knownSynpaticoOrigins st' = knownSynpaticoOrigins st ∨
   ∃ origin, URL_origin urlString = Some origin ∧
             knownSynpaticoOrigins st' = {[origin]} ∪ knownSynpaticoOrigins st).
Proof.
  intros st'. subst st'. destruct (bypassed urlString) eqn:Hby.
  { unfold synpaticoFetch, firstCall. rewrite Hby, originalFetch_run.
    cbn [snd addCall calls registry knownSynpaticoOrigins].
    split; [|by split; left]. exists []. split; [reflexivity|].
    split; [cbn; lia | constructor]. }
  destruct (server (calls st) (firstCall st urlString init)) as [resp|] eqn:Hresp.
  2:{ destruct (synpaticoFetch_unanswered st urlString init Hby Hresp)
        as (st1 & (Hr1 & Ho1 & Hc1 & _) & ->).
      cbn [snd addCall calls registry knownSynpaticoOrigins].
      split; [|split; left; assumption]. exists []. rewrite Hc1.
      split; [reflexivity|]. split; [cbn; lia | constructor]. }
  destruct (synpaticoFetch_answered st urlString init resp Hby Hresp)
    as (st1 & st2 & (Hr1 & Ho1 & Hc1 & _) & (Hr2 & Ho2 & Hc2 & _) & ->).
  cbn [addCall registry knownSynpaticoOrigins calls] in Hr2, Ho2, Hc2.
  destruct (_ && _).
  - rewrite originalFetch_run. cbn [snd addCall calls registry knownSynpaticoOrigins].
    split; [|split; left; congruence].
    eexists [_]. rewrite Hc2, Hc1, <- app_assoc.
    split; [reflexivity|]. split; [cbn; lia|].
    constructor; [apply retry_unhinted | constructor].
  - destruct (classify_effect resp urlString st2) as (Hr & Ho & cs & Hcs & Hlen & Hall).
    split; [|split].
    + exists cs. rewrite Hcs, Hc2, Hc1, <- app_assoc. by split.
    + destruct Hr as [Hr | (data & Hplain & Hr)]; [left; congruence|].
      right. exists data. split; [exact Hplain|]. rewrite Hr, Hr2, Hr1. reflexivity.
    + destruct Ho as [Ho | (origin & Hurl & Ho)]; [left; congruence|].
      right. exists origin. split; [exact Hurl|]. rewrite Ho, Ho2, Ho1. reflexivity.
Qed.


(** X1.  Whatever the server answers, one call of [synpaticoFetch] makes its
    first underlying call and at most one more, to the same URL; the second
    call, be it the retry after a 409 or the fallback of the packet path,
    never carries the negotiation header. *)
Theorem at_most_one_more_call st urlString init :
  ∃ cs, calls (synpaticoFetch urlString init st).2
          = calls st ++ firstCall st urlString init :: cs ∧
        call_url (firstCall st urlString init) = urlString ∧
        length cs ≤ 1 ∧
        Forall (unhintedCallTo urlString) cs.
Proof.
  destruct (synpaticoFetch_effect st urlString init) as ((cs & Hcs & Hlen & Hall) & _).
  exists cs. split; [exact Hcs|]. split; [apply firstCall_url | by split].
Qed.

Lemma learnedRegistry_consistent r urlString data :
  consistent r → consistent (learnedRegistry r urlString data).
Proof.
  intros Hr u sid. unfold learnedRegistry. cbn [requestToStructureId structures].
  destruct (decide (urlString = u)) as [->|Hne].
  - rewrite lookup_insert_eq. intros [= <-].
    eexists. split; [apply lookup_insert_eq | reflexivity].
  - rewrite lookup_insert_ne by exact Hne. intros Hu.
    destruct (Hr u sid Hu) as (def & Hdef & Hid).
    destruct (decide (def_id (createStructureDefinition data) = sid)) as [Heq|Hne'].
    + eexists. split; [rewrite Heq; apply lookup_insert_eq | exact Heq].
    + exists def. split; [by rewrite lookup_insert_ne | exact Hid].
Qed.

Lemma perform_consistent st op :
  consistent (registry st) → consistent (registry (perform st op)).
Proof.
  intros Hst. destruct op as [urlString init|]; cbn [perform].
  - destruct (synpaticoFetch_effect st urlString init)
      as (_ & [-> | (data & _ & ->)] & _); [exact Hst|].
    by apply learnedRegistry_consistent.
  - intros u sid Hu. cbn in Hu. by rewrite lookup_empty in Hu.
Qed.

(** X2.  However a client is used, by calls of [synpaticoFetch] and of
    [clearCache] in any order and with any answers of the server, every
    structure id that [requestToStructureId] gives for a URL is the id of a
    definition that [structures] holds under it: a hint the client sends
    always names a structure it can decode against. *)
Theorem session_registry_consistent (ops : list Operation) :
  consistent (registry (session ops)).
Proof.
  unfold session.
  assert (H0 : consistent (registry createCore)).
  { intros u sid Hu. cbn in Hu. by rewrite lookup_empty in Hu. }
  revert H0. generalize createCore as st.
  induction ops as [|op ops IH]; intros st Hst; [exact Hst|].
  cbn [foldl]. apply IH, perform_consistent, Hst.
Qed.

(** X3.  A call of [synpaticoFetch] never removes an origin from the known
    origins nor an entry from the registry, and the only entry of
    [requestToStructureId] it can create or replace is that of its own
    URL. *)
Theorem fetch_only_adds_for_its_url st urlString init :
  let st' := (synpaticoFetch urlString init st).2 in
  knownSynpaticoOrigins st ⊆ knownSynpaticoOrigins st' ∧
  dom (requestToStructureId (registry st)) ⊆ dom (requestToStructureId (registry st')) ∧
  dom (structures (registry st)) ⊆ dom (structures (registry st')) ∧
  ∀ other, other ≠ urlString →
    requestToStructureId (registry st') !! other
      = requestToStructureId (registry st) !! other.
Proof.
  intros st'. subst st'.
  destruct (synpaticoFetch_effect st urlString init) as (_ & Hr & Ho).
  split.
  { destruct Ho as [Ho | (origin & _ & Ho)]; rewrite Ho; [reflexivity|].
    apply union_subseteq_r. }
  destruct Hr as [Hr | (data & _ & Hr)]; rewrite Hr; [by repeat split|].
  unfold learnedRegistry. cbn [requestToStructureId structures].
  split; [rewrite dom_insert_L; apply union_subseteq_r|].
  split; [rewrite dom_insert_L; apply union_subseteq_r|].
  intros other Hne. by rewrite lookup_insert_ne.
Qed.

Lemma acceptIdHint_Some st urlString canOptimize sid :
  (acceptIdHint st urlString canOptimize).1 = Some sid ↔
  canOptimize = true ∧
  (∃ origin, URL_origin urlString = Some origin ∧ origin ∈ knownSynpaticoOrigins st) ∧
  requestToStructureId (registry st) !! urlString = Some sid.
Proof.
  unfold acceptIdHint. destruct (URL_origin urlString) as [origin|].
  - destruct canOptimize; cbn [andb].
    + case_bool_decide as Hin; cbn [fst].
      * split; [intros Hl; eauto|]. by intros (_ & _ & Hl).
      * split; [discriminate|]. intros (_ & (o & [= <-] & Ho) & _). contradiction.
    + cbn [fst]. split; [discriminate|]. by intros ([=] & _).
  - cbn [fst]. split; [discriminate|]. by intros (_ & (o & [=] & _) & _).
Qed.

Lemma attachedHint_iff st urlString init sid :
  attachedHint st urlString init = Some sid ↔
  bypassed urlString = false ∧ methodOf init = "GET" ∧ sid ≠ "" ∧
  (∃ origin, URL_origin urlString = Some origin ∧ origin ∈ knownSynpaticoOrigins st) ∧
  requestToStructureId (registry st) !! urlString = Some sid.
Proof.
  unfold attachedHint. destruct (bypassed urlString).
  { split; [discriminate|]. by intros ([=] & _). }
  destruct (acceptIdHint st urlString _).1 as [h|] eqn:Hacc; cbn [truthy].
  - apply acceptIdHint_Some in Hacc as (Hget & Hor & Hlook).
    apply bool_decide_eq_true_1 in Hget.
    case_bool_decide as Hempty; cbn [negb].
    + subst h. split; [discriminate|]. intros (_ & _ & Hne & _ & Hl).
      rewrite Hlook in Hl. injection Hl as <-. contradiction.
    + split.
      * intros [= <-]. auto.
      * intros (_ & _ & _ & _ & Hl). congruence.
  - split; [discriminate|]. intros (_ & Hget & _ & Hor & Hl).
    assert (Hsome : (acceptIdHint st urlString (bool_decide (methodOf init = "GET"))).1
                    = Some sid).
    { apply acceptIdHint_Some. split; [by apply bool_decide_eq_true_2 | by split]. }
    congruence.
Qed.

Lemma firstCall_headers st urlString init :
  init_headers (call_init (firstCall st urlString init))
    = match attachedHint st urlString init with
      | Some hint => Headers_set (init_headers init) ACCEPT_ID hint
      | None => init_headers init
      end.
Proof.
  unfold firstCall, attachedHint, requestHeaders.
  destruct (bypassed urlString); [reflexivity|]. cbn [call_init withHeaders init_headers].
  destruct (acceptIdHint st urlString _).1 as [h|]; cbn [truthy]; [|reflexivity].
  by destruct (negb _).
Qed.

(** X4.  The negotiation header is attached exactly when the call is not
    bypassed, its method is GET, the origin of its URL parses and is a
    known origin, and [requestToStructureId] has a non-empty structure id
    for this very URL string; the request then carries the caller's headers
    with [X-Synpatico-Accept-ID] set to that id, and otherwise the caller's
    headers untouched. *)
Theorem hint_attached_iff st urlString init sid :
  (attachedHint st urlString init = Some sid ↔
   bypassed urlString = false ∧ methodOf init = "GET" ∧ sid ≠ "" ∧
   (∃ origin, URL_origin urlString = Some origin ∧ origin ∈ knownSynpaticoOrigins st) ∧
   requestToStructureId (registry st) !! urlString = Some sid) ∧
  init_headers (call_init (firstCall st urlString init))
    = match attachedHint st urlString init with
      | Some hint => Headers_set (init_headers init) ACCEPT_ID hint
      | None => init_headers init
      end.
Proof.
  split; [apply attachedHint_iff | apply firstCall_headers].
Qed.

(** X5.  After [clearCache] the registry and the known origins are empty,
    and the next call to any URL, learned before or not, carries no
    negotiation header: its request has the caller's headers. *)
Theorem clearCache_forgets st urlString init :
  structures (registry (clearCache st)) = ∅ ∧
  requestToStructureId (registry (clearCache st)) = ∅ ∧
  knownSynpaticoOrigins (clearCache st) = ∅ ∧
  attachedHint (clearCache st) urlString init = None ∧
  init_headers (call_init (firstCall (clearCache st) urlString init)) = init_headers init.
Proof.
  assert (Hnone : attachedHint (clearCache st) urlString init = None).
  { unfold attachedHint, acceptIdHint. destruct (bypassed urlString); [reflexivity|].
    destruct (URL_origin urlString) as [origin|]; [|reflexivity].
    rewrite (bool_decide_eq_false_2 (origin ∈ _)) by apply not_elem_of_empty.
    by rewrite andb_false_r. }
  repeat split; [exact Hnone|].
  by rewrite firstCall_headers, Hnone.
Qed.

Lemma not_409_hinted st urlString init resp :
  bypassed urlString = false →
  ¬ (status resp = 409%Z ∧ is_Some (attachedHint st urlString init)) →
  bool_decide (status resp = 409%Z)
    && truthy (acceptIdHint st urlString (bool_decide (methodOf init = "GET"))).1 = false.
Proof.
  intros Hby Hnot. rewrite (attachedHint_truthy _ _ _ Hby).
  apply andb_false_iff. destruct (decide (status resp = 409%Z)) as [H409|H409].
  - right. apply bool_decide_eq_false_2. intros Hs. apply Hnot. by split.
  - left. by apply bool_decide_eq_false_2.
Qed.

(** The run up to the classification of a response with the marker. *)
Lemma synpaticoFetch_marked st urlString init resp :
  bypassed urlString = false →
  server (calls st) (firstCall st urlString init) = Some resp →
  ¬ (status resp = 409%Z ∧ is_Some (attachedHint st urlString init)) →
  Headers_has (headers resp) AGENT = true →
  ∃ st3,
    registry st3 = registry st ∧
    calls st3 = calls st ++ [firstCall st urlString init] ∧
    knownSynpaticoOrigins st3
      = match URL_origin urlString with
        | Some origin => {[origin]} ∪ knownSynpaticoOrigins st
        | None => knownSynpaticoOrigins st
        end ∧
    (∃ l, log st3 = log st ++ l ∧ Forall (λ n, processing n = false) l) ∧
    synpaticoFetch urlString init st =
      (let ct := default "" (Headers_get (headers resp) "content-type") in
       if includes ct PACKET_CT then handleOptimizedPacketResponse resp urlString
       else if includes ct JSON_CT then learnFromJsonResponse resp urlString
       else ret resp) st3.
Proof.
  intros Hby Hresp Hnot Hagent.
  destruct (synpaticoFetch_answered st urlString init resp Hby Hresp)
    as (st1 & st2 & Hq1 & Hq2 & Hrun).
  rewrite (not_409_hinted _ _ _ _ Hby Hnot) in Hrun.
  unfold classify in Hrun. rewrite Hagent in Hrun. cbn [negb] in Hrun.
  destruct (markOrigin_run urlString st2) as (st3 & Hmark & Hr3 & Hc3 & Hl3 & Ho3).
  rewrite (bind_run _ _ _ _ _ Hmark) in Hrun.
  destruct Hq1 as (Hr1 & Ho1 & Hc1 & l1 & Hl1 & Hf1).
  destruct Hq2 as (Hr2 & Ho2 & Hc2 & l2 & Hl2 & Hf2).
  cbn [addCall registry knownSynpaticoOrigins calls log] in Hr2, Ho2, Hc2, Hl2.
  exists st3. split; [congruence|]. split; [congruence|].
  split. { rewrite Ho3, Ho2, Ho1. reflexivity. }
  split; [|exact Hrun].
  exists (l1 ++ l2). split; [|apply Forall_app; by split].
  rewrite Hl3, Hl2, Hl1. symmetry. apply app_assoc.
Qed.

(** X6.  Once a call has learned from a response (marker, plain JSON, a
    plain-object body) for a URL whose origin parses, the next GET call to
    the same URL string carries the negotiation header with the structure
    id the codec gave, provided that id is not the empty string. *)
Theorem hint_after_learning st urlString init init' resp data origin :
  bypassed urlString = false →
  server (calls st) (firstCall st urlString init) = Some resp →
  ¬ (status resp = 409%Z ∧ is_Some (attachedHint st urlString init)) →
  Headers_has (headers resp) AGENT = true →
  includes (default "" (Headers_get (headers resp) "content-type")) PACKET_CT = false →
  includes (default "" (Headers_get (headers resp) "content-type")) JSON_CT = true →
  JSON_parse (body resp) = Some data →
  isPlainObject data = true →
  URL_origin urlString = Some origin →
  def_id (createStructureDefinition data) ≠ "" →
  methodOf init' = "GET" →
  let st' := (synpaticoFetch urlString init st).2 in
  attachedHint st' urlString init' = Some (def_id (createStructureDefinition data)) ∧
  Headers_get (init_headers (call_init (firstCall st' urlString init'))) ACCEPT_ID
    = Some (def_id (createStructureDefinition data)).
Proof.
  intros Hby Hresp Hnot Hagent Hpacket Hjson Hparse Hplain Hurl Hid Hget st'.
  destruct (synpaticoFetch_marked st urlString init resp Hby Hresp Hnot Hagent)
    as (st3 & Hr3 & _ & Ho3 & _ & Hrun).
  cbn zeta in Hrun. rewrite Hpacket, Hjson in Hrun.
  destruct (learnFromJsonResponse_learned resp urlString st3 data Hparse Hplain)
    as (st4 & Hlearn & _ & Hm4 & Ho4 & _).
  assert (Hst' : st' = st4) by (subst st'; by rewrite Hrun, Hlearn).
  assert (Hhint : attachedHint st' urlString init'
                  = Some (def_id (createStructureDefinition data))).
  { apply attachedHint_iff. rewrite Hst'. split; [exact Hby|]. split; [exact Hget|].
    split; [exact Hid|]. split.
    - exists origin. split; [exact Hurl|]. rewrite Ho4, Ho3, Hurl.
      apply elem_of_union_l, elem_of_singleton. reflexivity.
    - rewrite Hm4. apply lookup_insert_eq. }
  split; [exact Hhint|].
  rewrite firstCall_headers, Hhint. apply lookup_insert_eq.
Qed.

(** X7.  A packet that parses, names a structure of the registry and is
    decoded without an exception is answered, when its status is one the
    constructor of a response accepts (200 to 599 and not 204, 205 or
    304), by the rebuilt response around the decoded (and, with a hook,
    transformed) value, after the one underlying call.  For any other
    status the constructor throws, and the answer is what the bare reissue
    [originalFetch(urlString, {})] settles to, a second underlying call.
    Either way the registry is untouched and the origin of the URL, when
    it parses, is a known origin from then on. *)
Theorem known_packet_is_decoded st urlString init resp packet sid def value :
  bypassed urlString = false →
  server (calls st) (firstCall st urlString init) = Some resp →
  ¬ (status resp = 409%Z ∧ is_Some (attachedHint st urlString init)) →
  Headers_has (headers resp) AGENT = true →
  includes (default "" (Headers_get (headers resp) "content-type")) PACKET_CT = true →
  JSON_parse (body resp) = Some packet →
  packet_structureId packet = Some (Some sid) →
  structures (registry st) !! sid = Some def →
  decodedValue resp urlString sid packet def = Some value →
  let out := synpaticoFetch urlString init st in
  let first := firstCall st urlString init in
  let reissue := {| call_url := urlString; call_init := emptyInit |} in
  match newResponseError (status resp) with
  | None =>
      out.1 = Fulfilled (rebuild resp value) ∧ calls out.2 = calls st ++ [first]
  | Some _ =>
      out.1 = match server (calls st ++ [first]) reissue with
              | Some r => Fulfilled r
              | None => Rejected NetworkError
              end ∧
      calls out.2 = calls st ++ [first; reissue]
  end ∧
  registry out.2 = registry st ∧
  (∀ origin, URL_origin urlString = Some origin → origin ∈ knownSynpaticoOrigins out.2).
Proof.
  intros Hby Hresp Hnot Hagent Hpacket Hparse Hsid Hdef Hval out first reissue.
  subst out first reissue.
  destruct (synpaticoFetch_marked st urlString init resp Hby Hresp Hnot Hagent)
    as (st3 & Hr3 & Hc3 & Ho3 & _ & Hrun).
  cbn zeta in Hrun. rewrite Hpacket in Hrun.
  rewrite <- Hr3 in Hdef.
  destruct (handleOptimizedPacketResponse_known resp urlString st3 packet sid def
              Hparse Hsid Hdef) as (st4 & Hr4 & Ho4 & Hc4 & _ & Hknown).
  assert (Horigin : ∀ o : gset string, o = knownSynpaticoOrigins st4 →
            ∀ origin, URL_origin urlString = Some origin → origin ∈ o).
  { intros o -> origin Hurl. rewrite Ho4, Ho3, Hurl.
    apply elem_of_union_l, elem_of_singleton. reflexivity. }
  unfold decodedResponse in Hknown. rewrite Hval in Hknown.
  assert (Hdec : is_Some (decode packet def)).
  { unfold decodedValue in Hval. destruct (decode packet def); [eauto | discriminate]. }
  destruct Hdec as [decoded Hdec]. rewrite Hdec in Hknown.
  rewrite Hrun, Hknown.
  destruct (newResponseError (status resp)) as [err|].
  - destruct (reportError_run err urlString phase_decode st4)
      as (st5 & Hrun5 & Hr5 & Ho5 & Hc5 & _).
    rewrite (bind_run _ _ _ _ _ Hrun5), originalFetch_run.
    cbn [fst snd addCall calls registry knownSynpaticoOrigins].
    rewrite Hc5, Hc4, Hc3. split; [|split].
    + split; [reflexivity|]. by rewrite <- app_assoc.
    + congruence.
    + apply Horigin. exact Ho5.
  - cbn [fst snd]. split; [|split].
    + split; [reflexivity | congruence].
    + congruence.
    + by apply Horigin.
Qed.

(** X8.  A failure of the network on the first underlying call is the
    failure of [synpaticoFetch]: the promise rejects with that error after
    this one call, with no retry, and the registry and the known origins
    are as before. *)
Theorem network_failure_propagates st urlString init :
  server (calls st) (firstCall st urlString init) = None →
  let out := synpaticoFetch urlString init st in
  out.1 = Rejected NetworkError ∧
  calls out.2 = calls st ++ [firstCall st urlString init] ∧
  registry out.2 = registry st ∧
  knownSynpaticoOrigins out.2 = knownSynpaticoOrigins st.
Proof.
  intros Hresp out. subst out. destruct (bypassed urlString) eqn:Hby.
  - unfold synpaticoFetch. rewrite Hby, originalFetch_run.
    unfold firstCall in *. rewrite Hby in *. by rewrite Hresp.
  - destruct (synpaticoFetch_unanswered st urlString init Hby Hresp)
      as (st1 & (Hr1 & Ho1 & Hc1 & _) & ->).
    cbn [fst snd addCall calls registry knownSynpaticoOrigins].
    by rewrite Hc1.
Qed.

(** X9.  A packet whose body is the JSON text [null] is not recovered from:
    the read of [packet.structureId] throws outside any [try], so the
    promise of [synpaticoFetch] rejects with that TypeError, after the one
    underlying call, without a fallback call and without a call of
    [onError] for the decode phase. *)
Theorem null_packet_rejects st urlString init resp :
  bypassed urlString = false →
  server (calls st) (firstCall st urlString init) = Some resp →
  ¬ (status resp = 409%Z ∧ is_Some (attachedHint st urlString init)) →
  Headers_has (headers resp) AGENT = true →
  includes (default "" (Headers_get (headers resp) "content-type")) PACKET_CT = true →
  JSON_parse (body resp) = Some JNull →
  let out := synpaticoFetch urlString init st in
  out.1 = Rejected TypeError ∧
  calls out.2 = calls st ++ [firstCall st urlString init] ∧
  registry out.2 = registry st ∧
  ∃ l, log out.2 = log st ++ l ∧ Forall (λ n, processing n = false) l.
Proof.
  intros Hby Hresp Hnot Hagent Hpacket Hparse out. subst out.
  destruct (synpaticoFetch_marked st urlString init resp Hby Hresp Hnot Hagent)
    as (st3 & Hr3 & Hc3 & _ & Hl3 & Hrun).
  cbn zeta in Hrun. rewrite Hpacket in Hrun. rewrite Hrun.
  unfold handleOptimizedPacketResponse. rewrite Hparse. cbn [packet_structureId reject fst snd].
  by repeat split.
Qed.

End WithPlatform.

Arguments Fulfilled {A} a.
Arguments Rejected {A} e.

End Core.

(* ===================================================================== *)
(** * The monkey patch: registryKey *)
(* ===================================================================== *)

Module Monkey.
Import JS.

(** [RequestInfo | URL]: a string, a [URL] object with its [href], or a
    [Request] object. *)
Inductive Input :=
| InString (s : string)
| InURL (href : string)
| InRequest.

(** [String(input)] *)
Definition String_of (input : Input) : string :=
  match input with
  | InString s => s
  | InURL href => href
  | InRequest => "[object Request]"
  end.

Section WithURL.

(** [new URL(s)], and [new URL(s, location.origin)] in the page the patch
    runs in; [None] when the constructor throws. *)
Variable URL_parse : string → option URL.
Variable URL_resolve : string → option URL.

(** [registryKey] *)
Definition registryKey (input : Input) : string :=
  match (match input with
         | InString s => URL_resolve s
         | _ => URL_parse (String_of input)
         end) with
  | Some u => origin u +:+ pathname u
  | None => String_of input
  end.

End WithURL.

End Monkey.

(* ===================================================================== *)
(** * The two endpoint keys *)
(* ===================================================================== *)

Module EndpointKey.
Import JS Core Monkey.

Section Keys.
Context {StructureDefinition : Type}.
Variable def_id : StructureDefinition → string.
Variable createStructureDefinition : JSON → StructureDefinition.
Variable JSON_parse : string → option JSON.
Variable JSON_stringify : JSON → string.
Variable URL_origin : string → option string.
Variable URL_parse URL_resolve : string → option URL.
Variable lifecycle : LifecycleHooks.

(** C5, as the code has it.  The monkey patch keys its registry by
    [registryKey]: origin plus path of the parsed URL, so that two inputs
    that parse to the same origin and path share a key whatever their
    query strings.  The core client keys [requestToStructureId] by the URL
    string itself: learning stores the structure id under [urlString], and
    the hint of a call is the entry under that call's [urlString]; a call
    gets a hint only if this very string has an entry. *)
Theorem endpoint_keys (st : @State StructureDefinition) (urlString : string) :
  (∀ s u, URL_resolve s = Some u →
     registryKey URL_parse URL_resolve (InString s) = origin u +:+ pathname u) ∧
  (∀ s1 s2 u1 u2,
     URL_resolve s1 = Some u1 → URL_resolve s2 = Some u2 →
     origin u1 = origin u2 → pathname u1 = pathname u2 →
     registryKey URL_parse URL_resolve (InString s1)
       = registryKey URL_parse URL_resolve (InString s2)) ∧
  (∀ resp data,
     JSON_parse (body resp) = Some data → isPlainObject data = true →
     requestToStructureId
       (registry (learnFromJsonResponse def_id createStructureDefinition JSON_parse
                    JSON_stringify lifecycle resp urlString st).2)
       = <[urlString := def_id (createStructureDefinition data)]>
           (requestToStructureId (registry st))) ∧
  (∀ origin, URL_origin urlString = Some origin → origin ∈ knownSynpaticoOrigins st →
     (acceptIdHint URL_origin st urlString true).1
       = requestToStructureId (registry st) !! urlString) ∧
  (∀ canOptimize sid,
     (acceptIdHint URL_origin st urlString canOptimize).1 = Some sid →
     requestToStructureId (registry st) !! urlString = Some sid).
Proof.
  split; [|split; [|split; [|split]]].
  - intros s u Hs. unfold registryKey. by rewrite Hs.
  - intros s1 s2 u1 u2 H1 H2 Ho Hp. unfold registryKey. rewrite H1, H2. congruence.
  - intros resp data Hparse Hplain.
    destruct (learnFromJsonResponse_learned def_id createStructureDefinition JSON_parse
                JSON_stringify lifecycle resp urlString st data Hparse Hplain)
      as (st' & -> & _ & Hm & _). exact Hm.
  - intros origin. apply acceptIdHint_lookup.
  - intros c sid. apply acceptIdHint_le.
Qed.

End Keys.

End EndpointKey.

(* ===================================================================== *)
(** * A reference platform and codec

    Concrete stand-ins for [JSON.parse], [JSON.stringify], [URL], [Number]
    and the codec, on which the model runs on concrete calls. *)
(* ===================================================================== *)

Module Reference.
Import JS Core.

(** ** JSON.stringify *)

Fixpoint escape (s : string) : string :=
  match s with
  | EmptyString => EmptyString
  | String c t =>
      if bool_decide (c = "034"%char) || bool_decide (c = "\"%char)
      then String "\" (String c (escape t))
      else String c (escape t)
  end.

(** The text between double quotes (character 34). *)
Definition quote (s : string) : string :=
  String "034" (escape s +:+ String "034" EmptyString).

Fixpoint join (sep : string) (l : list string) : string :=
  match l with
  | [] => ""
  | [x] => x
  | x :: l' => x +:+ sep +:+ join sep l'
  end.

Fixpoint JSON_stringify (v : JSON) : string :=
  match v with
  | JNull => "null"
  | JBool true => "true"
  | JBool false => "false"
  | JNumber n => pretty n
  | JString s => quote s
  | JArray items => "[" +:+ join "," (map JSON_stringify items) +:+ "]"
  | JObject fields =>
      "{" +:+ join "," (map (λ kv, quote kv.1 +:+ ":" +:+ JSON_stringify kv.2) fields)
          +:+ "}"
  end.

(** ** JSON.parse *)

Definition isWs (c : ascii) : bool :=
  bool_decide (c = " "%char) || bool_decide (c = "010"%char)
  || bool_decide (c = "013"%char) || bool_decide (c = "009"%char).

Fixpoint skipWs (s : string) : string :=
  match s with
  | String c t => if isWs c then skipWs t else s
  | EmptyString => s
  end.

Definition digitOf (c : ascii) : option Z :=
  let n := nat_of_ascii c in
  if Nat.leb 48 n && Nat.leb n 57 then Some (Z.of_nat (n - 48)) else None.

(** Reads the digits at the head of [s], continuing the number [acc];
    [seen] says whether a digit has been read. *)
Fixpoint parseDigits (s : string) (acc : Z) (seen : bool) : option (Z * string) :=
  match s with
  | String c t =>
      match digitOf c with
      | Some d => parseDigits t (10 * acc + d)%Z true
      | None => if seen then Some (acc, s) else None
      end
  | EmptyString => if seen then Some (acc, s) else None
  end.

(** Reads a string literal after its opening quote. *)
Fixpoint parseChars (s : string) (acc : string) : option (string * string) :=
  match s with
  | EmptyString => None
  | String c t =>
      if bool_decide (c = "034"%char) then Some (acc, t)
      else if bool_decide (c = "\"%char) then
        match t with
        | String c' t' => parseChars t' (acc +:+ String c' "")
        | EmptyString => None
        end
      else parseChars t (acc +:+ String c "")
  end.

Definition expect (lit : string) (v : JSON) (s : string) : option (JSON * string) :=
  if startsWith s lit then Some (v, String.substring (String.length lit) (String.length s) s)
  else None.

(** The elements of an array after ["["], with the parser of one value. *)
Fixpoint parseItems (pv : string → option (JSON * string)) (n : nat) (s : string)
    (acc : list JSON) : option (list JSON * string) :=
  match n with
  | 0 => None
  | S n' =>
      match pv s with
      | Some (v, rest) =>
          match skipWs rest with
          | String "," rest' => parseItems pv n' rest' (acc ++ [v])%list
          | String "]" rest' => Some ((acc ++ [v])%list, rest')
          | _ => None
          end
      | None => None
      end
  end.

(** The members of an object after ["{"]; a repeated key keeps its last
    value. *)
Fixpoint parseMembers (pv : string → option (JSON * string)) (n : nat) (s : string)
    (acc : list (string * JSON)) : option (list (string * JSON) * string) :=
  match n with
  | 0 => None
  | S n' =>
      match skipWs s with
      | String "034" rest =>
          match parseChars rest "" with
          | Some (k, rest1) =>
              match skipWs rest1 with
              | String ":" rest2 =>
                  match pv rest2 with
                  | Some (v, rest3) =>
                      let acc' :=
                        if bool_decide (is_Some (assoc k acc))
                        then map (λ kv, if bool_decide (kv.1 = k) then (k, v) else kv) acc
                        else (acc ++ [(k, v)])%list in
                      match skipWs rest3 with
                      | String "," rest4 => parseMembers pv n' rest4 acc'
                      | String "}" rest4 => Some (acc', rest4)
                      | _ => None
                      end
                  | None => None
                  end
              | _ => None
              end
          | None => None
          end
      | _ => None
      end
  end.

Fixpoint parseValue (fuel : nat) (s : string) : option (JSON * string) :=
  match fuel with
  | 0 => None
  | S fuel' =>
      match skipWs s with
      | String "n" _ => expect "null" JNull (skipWs s)
      | String "t" _ => expect "true" (JBool true) (skipWs s)
      | String "f" _ => expect "false" (JBool false) (skipWs s)
      | String "034" rest =>
          (λ p, (JString p.1, p.2)) <$> parseChars rest ""
      | String "-" rest =>
          (λ p, (JNumber (- p.1), p.2)) <$> parseDigits rest 0 false
      | String "[" rest =>
          match skipWs rest with
          | String "]" rest' => Some (JArray [], rest')
          | _ => (λ p, (JArray p.1, p.2)) <$> parseItems (parseValue fuel') fuel' rest []
          end
      | String "{" rest =>
          match skipWs rest with
          | String "}" rest' => Some (JObject [], rest')
          | _ => (λ p, (JObject p.1, p.2)) <$> parseMembers (parseValue fuel') fuel' rest []
          end
      | other => (λ p, (JNumber p.1, p.2)) <$> parseDigits other 0 false
      end
  end.

Definition JSON_parse (s : string) : option JSON :=
  match parseValue (S (String.length s)) s with
  | Some (v, rest) => if bool_decide (skipWs rest = "") then Some v else None
  | None => None
  end.

(** ** URL *)

(** The text before the first of the characters [stops]. *)
Fixpoint upTo (stops : list ascii) (s : string) : string :=
  match s with
  | EmptyString => EmptyString
  | String c t => if bool_decide (c ∈ stops) then EmptyString else String c (upTo stops t)
  end.

(** The text from the first of the characters [stops] on. *)
Fixpoint from (stops : list ascii) (s : string) : string :=
  match s with
  | EmptyString => EmptyString
  | String c t => if bool_decide (c ∈ stops) then s else from stops t
  end.

(** [new URL(s)] for an absolute http(s) URL; [None] when it throws. *)
Definition URL_parse (s : string) : option URL :=
  let scheme :=
    if startsWith s "https://" then Some "https://"
    else if startsWith s "http://" then Some "http://" else None in
  match scheme with
  | Some sch =>
      let rest := String.substring (String.length sch) (String.length s) s in
      let host := upTo ["/"; "?"; "#"]%char rest in
      let tail := from ["/"; "?"; "#"]%char rest in
      let path := upTo ["?"; "#"]%char tail in
      let query := upTo ["#"]%char (from ["?"; "#"]%char tail) in
      if bool_decide (host = "") then None
      else Some {| origin := sch +:+ host;
                   pathname := if bool_decide (path = "") then "/" else path;
                   search := if bool_decide (query = "?") then "" else query;
                   hash := from ["#"]%char tail |}
  | None => None
  end.

Definition URL_origin (s : string) : option string := origin <$> URL_parse s.

(** ** Number *)
Definition Number (s : string) : option Z :=
  match parseDigits s 0 false with
  | Some (n, "") => Some n
  | _ => None
  end.

(** ** The codec: a structure is the list of the keys of an object, its id
    their concatenation; a packet carries the values in key order. *)
Record StructureDefinition := mkDef { id : string; keys : list string }.

Definition createStructureDefinition (data : JSON) : StructureDefinition :=
  match data with
  | JObject fields => {| id := "sid:" +:+ join "," (map fst fields); keys := map fst fields |}
  | _ => {| id := "sid:" +:+ typeof data; keys := [] |}
  end.

Fixpoint zipFields (ks : list string) (vs : list JSON) : option (list (string * JSON)) :=
  match ks, vs with
  | [], [] => Some []
  | k :: ks', v :: vs' => (λ r, (k, v) :: r) <$> zipFields ks' vs'
  | _, _ => None
  end.

Definition decode (packet : JSON) (def : StructureDefinition) : option JSON :=
  match packet with
  | JObject fields =>
      match assoc "values" fields with
      | Some (JArray vs) => JObject <$> zipFields (keys def) vs
      | _ => None
      end
  | _ => None
  end.

(** [synpaticoFetch] on the reference platform. *)
Definition fetch (server : list Call → Call → option Response)
    (isTargetUrl : option (string → bool)) (enableLifecycle : bool)
    (lifecycle : LifecycleHooks) :=
  synpaticoFetch id createStructureDefinition decode JSON_parse JSON_stringify
    URL_origin Number server isTargetUrl enableLifecycle lifecycle.

End Reference.

(* ===================================================================== *)
(** * The client on the reference platform: concrete runs *)
(* ===================================================================== *)

Module Scenarios.
Import JS Core Reference.

Definition url : string := "https://api.example.com/users?limit=5".
Definition url2 : string := "https://api.example.com/users?limit=6".

Definition mkHeaders (l : list (string * string)) : Headers :=
  foldl (λ h kv, Headers_set h kv.1 kv.2) ∅ l.

(** A cooperating server's plain JSON answer. *)
Definition jsonResponse (st : Z) (text : string) : Response :=
  {| status := st; statusText := "";
     headers := mkHeaders [("content-type", "application/json"); ("X-Synpatico-Agent", "1")];
     body := text |}.

(** A compact packet. *)
Definition packetResponse (text : string) : Response :=
  {| status := 200; statusText := "OK";
     headers := mkHeaders [("content-type", "application/synpatico-packet+json");
                           ("X-Synpatico-Agent", "1"); ("X-Trace", "t-1")];
     body := text |}.

(** An answer without the agent marker. *)
Definition plainResponse (st : Z) (ct text : string) : Response :=
  {| status := st; statusText := "";
     headers := mkHeaders [("content-type", ct)]; body := text |}.

(** A server that answers the n-th call with the n-th response of a
    script, and fails once the script is over. *)
Definition scripted (script : list Response) : list Call → Call → option Response :=
  λ history _, script !! length history.

Definition learned : Response :=
  jsonResponse 200 (JSON_stringify (JObject [("learned", JBool true)])).
Definition ok : Response :=
  jsonResponse 200 (JSON_stringify (JObject [("ok", JBool true)])).

(** Scenario B of the specification: a learning call, then a hinted call
    answered 409, then the retry. *)
Definition conflict : Response :=
  {| status := 409; statusText := "Conflict";
     headers := mkHeaders [("X-Synpatico-Agent", "1")]; body := "" |}.
Definition serverB := scripted [learned; conflict; ok].

(** The same with a 409 answer that is a JSON object with the marker. *)
Definition stale : Response :=
  jsonResponse 409 (JSON_stringify (JObject [("error", JString "stale")])).
Definition serverStale := scripted [learned; stale; ok].

(** The same with a 409 answer of a server that does not cooperate. *)
Definition foreign409 : Response := plainResponse 409 "text/plain" "conflict".
Definition serverForeign := scripted [learned; foreign409; ok].

(** Scenario A of the specification: a learning call, then a hinted call
    answered with a packet for the learned structure. *)
Definition packetA : Response :=
  packetResponse
    (JSON_stringify (JObject [("structureId", JString "sid:learned");
                              ("values", JArray [JBool false])])).
Definition serverA := scripted [learned; packetA].

(** The state after the learning call. *)
Definition afterLearning (server : list Call → Call → option Response) : State :=
  (fetch server None true noHooks url emptyInit createCore).2.

(** A POST call. *)
Definition postInit : RequestInit :=
  {| method := Some "post"; init_headers := ∅; init_body := Some "name=x" |}.

(** A GET call with a header of the caller's. *)
Definition authInit : RequestInit :=
  {| method := Some "GET"; init_headers := mkHeaders [("Authorization", "Bearer t")];
     init_body := None |}.

(** A packet for a structure the registry does not have, one that is not
    JSON, and a JSON answer that is not JSON. *)
Definition unknownPacket : Response :=
  packetResponse
    (JSON_stringify (JObject [("structureId", JString "sid:other");
                              ("values", JArray [JNumber 1])])).
Definition brokenPacket : Response := packetResponse "{oops".
Definition garbled : Response := jsonResponse 200 "not json".

(** Only [onError] configured. *)
Definition errHooks : LifecycleHooks :=
  {| beforeRequest := None; afterResponse := None; transformDecoded := None;
     onPacketDecoded := None; onLearnedStructure := None; onError := true |}.

(** A learnable answer with spaces in its text and a header of its own. *)
Definition spaced : Response :=
  {| status := 200; statusText := "OK";
     headers := mkHeaders [("content-type", "application/json; charset=utf-8");
                           ("X-Synpatico-Agent", "1"); ("ETag", "abc")];
     body := "{ " +:+ quote "a" +:+ " : 1 }" |}.

End Scenarios.

Module ScenarioFacts.
Import JS Core Reference Scenarios.

(** Scenario A: the second call carries the hint and its packet is decoded
    against the learned structure. *)
Example scenario_A :
  let out := fetch serverA None true noHooks url emptyInit (afterLearning serverA) in
  Headers_get (init_headers (call_init (firstCall URL_origin None (afterLearning serverA)
                                          url emptyInit))) ACCEPT_ID
    = Some "sid:learned" ∧
  (body <$> match out.1 with Fulfilled r => Some r | Rejected _ => None end) ≫= JSON_parse
    = Some (JObject [("learned", JBool false)]) ∧
  length (calls out.2) = 2.
Proof. intros out. repeat split; vm_compute; reflexivity. Qed.

(** Scenario B: the second call carries the hint, is answered 409, and
    settles to the answer of the one retry; three underlying calls in all. *)
Lemma retry_once_on_409_witness :
  attachedHint URL_origin None (afterLearning serverB) url emptyInit = Some "sid:learned" ∧
  status conflict = 409%Z ∧
  (fetch serverB None true noHooks url emptyInit (afterLearning serverB)).1 = Fulfilled ok ∧
  length (calls (fetch serverB None true noHooks url emptyInit (afterLearning serverB)).2) = 3.
Proof.
  assert (H1 : attachedHint URL_origin None (afterLearning serverB) url emptyInit
               = Some "sid:learned") by (vm_compute; reflexivity).
  assert (H2 : serverB (calls (afterLearning serverB))
                 (firstCall URL_origin None (afterLearning serverB) url emptyInit)
               = Some conflict) by (vm_compute; reflexivity).
  assert (H3 : status conflict = 409%Z) by reflexivity.
  destruct (retry_once_on_409 id createStructureDefinition decode JSON_parse JSON_stringify
              URL_origin Number serverB None true noHooks
              (afterLearning serverB) url emptyInit "sid:learned" conflict H1 H2 H3)
    as (_ & _ & _ & Hout & Hcalls & _).
  split; [exact H1|]. split; [exact H3|]. unfold fetch. split.
  - rewrite Hout. vm_compute. reflexivity.
  - rewrite Hcalls. vm_compute. reflexivity.
Defined.


(** A 409 answer with the marker, a JSON content type and a plain-object
    body, to a call that carried the hint: the client answers with the
    retry's response, and the URL keeps the structure id learned before. *)
Lemma learn_plain_object_counterexample :
  let st := afterLearning serverStale in
  let out := fetch serverStale None true noHooks url emptyInit st in
  let data := JObject [("error", JString "stale")] in
  let ct := default "" (Headers_get (headers stale) "content-type") in
  serverStale (calls st) (firstCall URL_origin None st url emptyInit) = Some stale ∧
  Headers_has (headers stale) AGENT = true ∧
  includes ct JSON_CT = true ∧ includes ct PACKET_CT = false ∧
  JSON_parse (body stale) = Some data ∧ isPlainObject data = true ∧
  transformDecoded noHooks = None ∧
  out.1 = Fulfilled ok ∧
  JSON_parse (body ok) ≠ Some data ∧
  requestToStructureId (registry out.2) !! url = Some "sid:learned" ∧
  id (createStructureDefinition data) = "sid:error" ∧
  ¬ ((∃ r, out.1 = Fulfilled r ∧ JSON_parse (body r) = Some data) ∧
     requestToStructureId (registry out.2) !! url
       = Some (id (createStructureDefinition data))).
Proof.
  intros st out data ct.
  split; [vm_compute; reflexivity|]. split; [vm_compute; reflexivity|].
  split; [vm_compute; reflexivity|]. split; [vm_compute; reflexivity|].
  split; [vm_compute; reflexivity|]. split; [vm_compute; reflexivity|].
  split; [reflexivity|]. split; [vm_compute; reflexivity|].
  split; [vm_compute; discriminate|]. split; [vm_compute; reflexivity|].
  split; [vm_compute; reflexivity|].
  intros [_ Hentry]. vm_compute in Hentry. discriminate Hentry.
Qed.

(** The learning call of scenario B. *)
Lemma learn_plain_object_witness :
  let data := JObject [("learned", JBool true)] in
  let out := fetch serverB None true noHooks url emptyInit createCore in
  JSON_parse (body learned) = Some data ∧
  (∃ r, out.1 = Fulfilled r ∧ JSON_parse (body r) = Some data) ∧
  requestToStructureId (registry out.2) !! url = Some "sid:learned" ∧
  length (calls out.2) = 1.
Proof.
  intros data out.
  assert (Hparse : JSON_parse (body learned) = Some data) by (vm_compute; reflexivity).
  destruct (learn_plain_object id createStructureDefinition decode JSON_parse JSON_stringify
              URL_origin Number serverB None true noHooks createCore url emptyInit
              learned data) as (Hbody & Hmap & _ & Hcalls).
  - reflexivity.
  - vm_compute; reflexivity.
  - intros [H409 _]. vm_compute in H409. discriminate H409.
  - vm_compute; reflexivity.
  - vm_compute; reflexivity.
  - vm_compute; reflexivity.
  - exact Hparse.
  - vm_compute; reflexivity.
  - reflexivity.
  - split; [exact Hparse|]. split.
    { destruct Hbody as (r & Hr & _ & Hround). exists r. split; [exact Hr|].
      apply Hround. vm_compute. reflexivity. }
    subst out. unfold fetch. split.
    + rewrite Hmap. apply lookup_insert_eq.
    + rewrite Hcalls. rewrite length_app. reflexivity.
Defined.

(** A 409 answer without the marker to a call that carried the hint: the
    client makes a second call and answers with its response. *)
Lemma passthrough_without_marker_counterexample :
  let st := afterLearning serverForeign in
  let out := fetch serverForeign None true noHooks url emptyInit st in
  serverForeign (calls st) (firstCall URL_origin None st url emptyInit) = Some foreign409 ∧
  Headers_has (headers foreign409) AGENT = false ∧
  out.1 = Fulfilled ok ∧
  length (calls out.2) = length (calls st) + 2 ∧
  ¬ (out.1 = Fulfilled foreign409 ∧
     calls out.2 = calls st ++ [firstCall URL_origin None st url emptyInit]).
Proof.
  intros st out.
  split; [vm_compute; reflexivity|]. split; [vm_compute; reflexivity|].
  split; [vm_compute; reflexivity|]. split; [vm_compute; reflexivity|].
  intros [Hout _]. vm_compute in Hout. discriminate Hout.
Qed.

(** Scenario C: a JSON answer without the marker comes back as it is. *)
Lemma passthrough_without_marker_witness :
  let resp := plainResponse 200 "application/json"
                (JSON_stringify (JObject [("raw", JBool true)])) in
  let out := fetch (scripted [resp]) None true noHooks url emptyInit createCore in
  Headers_has (headers resp) AGENT = false ∧
  out.1 = Fulfilled resp ∧
  length (calls out.2) = 1 ∧
  registry out.2 = registry createCore.
Proof.
  intros resp out.
  destruct (passthrough_without_marker id createStructureDefinition decode JSON_parse
              JSON_stringify URL_origin Number (scripted [resp]) None true noHooks
              createCore url emptyInit resp) as (Hout & Hcalls & Hreg & _).
  - vm_compute; reflexivity.
  - vm_compute; reflexivity.
  - intros [H409 _]. vm_compute in H409. discriminate H409.
  - split; [vm_compute; reflexivity|]. split; [exact Hout|]. split; [|exact Hreg].
    subst out. unfold fetch. rewrite Hcalls. reflexivity.
Defined.

(** A POST call answered with the marker and a JSON object: no hint on the
    request, and the registry has learned the structure. *)
Lemma non_get_counterexample :
  let out := fetch serverB None true noHooks url postInit createCore in
  methodOf postInit = "POST" ∧
  Headers_get
    (init_headers
       (call_init (firstCall URL_origin None (@createCore StructureDefinition) url postInit)))
    ACCEPT_ID = None ∧
  requestToStructureId (registry (@createCore StructureDefinition)) !! url = None ∧
  requestToStructureId (registry out.2) !! url = Some "sid:learned" ∧
  registry out.2 ≠ registry createCore.
Proof.
  intros out.
  split; [vm_compute; reflexivity|]. split; [vm_compute; reflexivity|].
  split; [vm_compute; reflexivity|]. split; [vm_compute; reflexivity|].
  intros Heq. apply (f_equal (λ r, requestToStructureId r !! url)) in Heq.
  vm_compute in Heq. discriminate Heq.
Qed.

(** A POST call to a learned URL of a known origin carries no hint. *)
Lemma non_get_sends_no_hint_witness :
  methodOf postInit ≠ "GET" ∧
  attachedHint URL_origin None (afterLearning serverB) url postInit = None ∧
  init_headers (call_init (firstCall URL_origin None (afterLearning serverB) url postInit))
    = init_headers postInit.
Proof.
  assert (Hm : methodOf postInit ≠ "GET") by (vm_compute; discriminate).
  destruct (non_get_sends_no_hint id createStructureDefinition decode JSON_parse
              JSON_stringify URL_origin Number serverB None true noHooks
              (afterLearning serverB) url postInit Hm) as (Hhint & _ & _ & Hh & _).
  split; [exact Hm|]. split; [exact Hhint | exact Hh].
Defined.

(** After learning [url], a call to [url2], which differs from it in the
    query only, finds no entry and carries no hint. *)
Lemma endpoint_keys_counterexample :
  let st := afterLearning serverB in
  origin <$> URL_parse url = origin <$> URL_parse url2 ∧
  pathname <$> URL_parse url = pathname <$> URL_parse url2 ∧
  search <$> URL_parse url ≠ search <$> URL_parse url2 ∧
  requestToStructureId (registry st) !! url = Some "sid:learned" ∧
  attachedHint URL_origin None st url emptyInit = Some "sid:learned" ∧
  requestToStructureId (registry st) !! url2 = None ∧
  attachedHint URL_origin None st url2 emptyInit = None.
Proof.
  intros st.
  split; [vm_compute; reflexivity|]. split; [vm_compute; reflexivity|].
  split; [vm_compute; discriminate|]. split; [vm_compute; reflexivity|].
  split; [vm_compute; reflexivity|]. split; [vm_compute; reflexivity|].
  vm_compute; reflexivity.
Qed.

(** The two keys on the URLs of the scenario. *)
Lemma endpoint_keys_witness :
  let st := afterLearning serverB in
  Monkey.registryKey URL_parse URL_parse (Monkey.InString url)
    = "https://api.example.com/users" ∧
  Monkey.registryKey URL_parse URL_parse (Monkey.InString url)
    = Monkey.registryKey URL_parse URL_parse (Monkey.InString url2) ∧
  (acceptIdHint URL_origin st url true).1 = Some "sid:learned" ∧
  (acceptIdHint URL_origin st url2 true).1 = None.
Proof.
  intros st.
  destruct (EndpointKey.endpoint_keys id createStructureDefinition JSON_parse JSON_stringify
              URL_origin URL_parse URL_parse noHooks st url)
    as (Hkey & Hshare & _ & Hhint & _).
  destruct (EndpointKey.endpoint_keys id createStructureDefinition JSON_parse JSON_stringify
              URL_origin URL_parse URL_parse noHooks st url2)
    as (_ & _ & _ & Hhint2 & _).
  split.
  { rewrite (Hkey url {| origin := "https://api.example.com"; pathname := "/users";
                         search := "?limit=5"; hash := "" |}) by (vm_compute; reflexivity).
    reflexivity. }
  split.
  { apply (Hshare url url2
             {| origin := "https://api.example.com"; pathname := "/users";
                search := "?limit=5"; hash := "" |}
             {| origin := "https://api.example.com"; pathname := "/users";
                search := "?limit=6"; hash := "" |});
      vm_compute; reflexivity. }
  split.
  - rewrite (Hhint "https://api.example.com");
      [vm_compute; reflexivity | vm_compute; reflexivity
      | apply (bool_decide_unpack _); vm_compute; exact I].
  - rewrite (Hhint2 "https://api.example.com");
      [vm_compute; reflexivity | vm_compute; reflexivity
      | apply (bool_decide_unpack _); vm_compute; exact I].
Defined.


(** A GET call with an Authorization header, answered by a packet of an
    unknown structure: the second call has neither the header nor the
    method of the first. *)
Lemma fallback_reissues_bare_call_witness :
  let out := fetch (scripted [unknownPacket; ok]) None true noHooks url authInit createCore in
  let asked := withHeaders authInit (Headers_delete (init_headers authInit) ACCEPT_ID) in
  calls (handleOptimizedPacketResponse decode JSON_parse JSON_stringify Number
           (scripted [unknownPacket; ok]) noHooks unknownPacket url createCore).2
    = [{| call_url := url; call_init := emptyInit |}] ∧
  out.1 = Fulfilled ok ∧
  calls out.2 = [{| call_url := url; call_init := authInit |};
                 {| call_url := url; call_init := emptyInit |}] ∧
  Headers_get (init_headers asked) "Authorization" = Some "Bearer t" ∧
  Headers_get (init_headers emptyInit) "Authorization" = None ∧
  method asked = Some "GET" ∧ method emptyInit = None.
Proof.
  intros out asked.
  destruct (fallback_reissues_bare_call decode JSON_parse JSON_stringify Number
              (scripted [unknownPacket; ok]) noHooks (@createCore StructureDefinition)
              url unknownPacket) as (Hcalls & _).
  { right. left.
    exists (JObject [("structureId", JString "sid:other"); ("values", JArray [JNumber 1])]),
           (Some "sid:other").
    split; [vm_compute; reflexivity|]. split; vm_compute; reflexivity. }
  split; [exact Hcalls|].
  split; [vm_compute; reflexivity|]. split; [vm_compute; reflexivity|].
  split; [vm_compute; reflexivity|]. split; [vm_compute; reflexivity|].
  split; reflexivity.
Defined.

(** A JSON answer with the marker whose body does not parse, with [onError]
    configured: the response comes back and [onError] is not called. *)
Lemma errors_reported_or_swallowed_counterexample :
  let out := fetch (scripted [garbled]) None true errHooks url emptyInit createCore in
  onError errHooks = true ∧
  Headers_has (headers garbled) AGENT = true ∧
  JSON_parse (body garbled) = None ∧
  out.1 = Fulfilled garbled ∧
  log out.2 = [] ∧
  ¬ (∃ err phase, OnError err url phase ∈ log out.2).
Proof.
  intros out.
  split; [reflexivity|]. split; [vm_compute; reflexivity|].
  split; [vm_compute; reflexivity|]. split; [vm_compute; reflexivity|].
  assert (Hlog : log out.2 = []) by (vm_compute; reflexivity).
  split; [exact Hlog|].
  intros (err & phase & Hin). rewrite Hlog in Hin. by apply elem_of_nil in Hin.
Qed.

(** [onError] configured, and a [transformDecoded] that throws. *)
Definition throwingHooks : LifecycleHooks :=
  {| beforeRequest := None; afterResponse := None;
     transformDecoded := Some (λ _ _ _ _ _ _, None);
     onPacketDecoded := None; onLearnedStructure := None; onError := true |}.

(** A packet that does not parse is reported; a JSON body that does not
    parse and a relative URL are not.  When [transformDecoded] throws on
    the packet of scenario A, it is the error of the hook that [onError]
    is called with. *)
Lemma errors_reported_or_swallowed_witness :
  JSON_parse (body brokenPacket) = None ∧
  log (handleOptimizedPacketResponse decode JSON_parse JSON_stringify Number
         (scripted [ok]) errHooks brokenPacket url createCore).2
    = [OnError SyntaxError url phase_decode] ∧
  JSON_parse (body garbled) = None ∧
  learnFromJsonResponse id createStructureDefinition JSON_parse JSON_stringify errHooks
    garbled url createCore = (Fulfilled garbled, createCore) ∧
  URL_origin "/users" = None ∧
  acceptIdHint URL_origin (@createCore StructureDefinition) "/users" true = (None, None) ∧
  (∃ l, Forall (λ n, isOnError n = false) l ∧
        log (handleOptimizedPacketResponse decode JSON_parse JSON_stringify Number
               (scripted [ok]) throwingHooks packetA url (afterLearning serverA)).2
          = log (afterLearning serverA) ++ l ++ [OnError HookError url phase_decode]).
Proof.
  destruct (errors_reported_or_swallowed id createStructureDefinition decode JSON_parse
              JSON_stringify URL_origin Number (scripted [ok]) None true errHooks
              createCore url brokenPacket) as (Hbroken & _).
  destruct (errors_reported_or_swallowed id createStructureDefinition decode JSON_parse
              JSON_stringify URL_origin Number (scripted [ok]) None true errHooks
              createCore "/users" garbled) as (_ & _ & Hlearn & Hurl & _).
  destruct (errors_reported_or_swallowed id createStructureDefinition decode JSON_parse
              JSON_stringify URL_origin Number (scripted [ok]) None true throwingHooks
              (afterLearning serverA) url packetA) as (_ & Hhook & _).
  assert (H1 : JSON_parse (body brokenPacket) = None) by (vm_compute; reflexivity).
  assert (H2 : JSON_parse (body garbled) = None) by (vm_compute; reflexivity).
  assert (H3 : URL_origin "/users" = None) by (vm_compute; reflexivity).
  split; [exact H1|]. split; [exact (Hbroken H1)|]. split; [exact H2|].
  split; [vm_compute; reflexivity|]. split; [exact H3|].
  split; [exact (proj1 (Hurl H3) true)|].
  apply (Hhook (JObject [("structureId", JString "sid:learned");
                         ("values", JArray [JBool false])])
               "sid:learned"
               (createStructureDefinition (JObject [("learned", JBool true)]))
               HookError); vm_compute; reflexivity.
Defined.

(** The learnable answer [spaced] with a status that the constructor of a
    response refuses. *)
Definition outOfRange : Response :=
  {| status := 999; statusText := statusText spaced; headers := headers spaced;
     body := body spaced |}.

(** An answer with the marker, a JSON content type and a plain-object
    body, with the status 999: the structure is learned, but the client
    answers with the original response, its bytes and its Content-Type
    kept, since no new response can be constructed. *)
Lemma rebuilt_response_frame_counterexample :
  let value := JObject [("a", JNumber 1)] in
  let out := fetch (scripted [outOfRange]) None true noHooks url emptyInit createCore in
  Headers_has (headers outOfRange) AGENT = true ∧
  includes (default "" (Headers_get (headers outOfRange) "content-type")) JSON_CT = true ∧
  JSON_parse (body outOfRange) = Some value ∧
  isPlainObject value = true ∧
  requestToStructureId (registry out.2) !! url = Some (id (createStructureDefinition value)) ∧
  out.1 = Fulfilled outOfRange ∧
  body outOfRange ≠ JSON_stringify value ∧
  Headers_get (headers outOfRange) "Content-Type" ≠ Some "application/json" ∧
  ¬ (∃ r, out.1 = Fulfilled r ∧ body r = JSON_stringify value).
Proof.
  intros value out.
  assert (Hout : out.1 = Fulfilled outOfRange) by (vm_compute; reflexivity).
  split; [vm_compute; reflexivity|]. split; [vm_compute; reflexivity|].
  split; [vm_compute; reflexivity|]. split; [vm_compute; reflexivity|].
  split; [vm_compute; reflexivity|]. split; [exact Hout|].
  split; [vm_compute; discriminate|]. split; [vm_compute; discriminate|].
  intros (r & Hr & Hbody). rewrite Hout in Hr. injection Hr as <-.
  vm_compute in Hbody. discriminate Hbody.
Qed.

(** A body with spaces comes back without them and ETag is kept; with the
    status 999 the response itself comes back. *)
Lemma rebuilt_response_frame_witness :
  let value := JObject [("a", JNumber 1)] in
  let out := learnFromJsonResponse id createStructureDefinition JSON_parse JSON_stringify
               noHooks spaced url createCore in
  let out' := learnFromJsonResponse id createStructureDefinition JSON_parse JSON_stringify
                noHooks outOfRange url createCore in
  JSON_parse (body spaced) = Some value ∧
  out.1 = Fulfilled (rebuild JSON_stringify spaced value) ∧
  body (rebuild JSON_stringify spaced value) = "{" +:+ quote "a" +:+ ":1}" ∧
  body (rebuild JSON_stringify spaced value) ≠ body spaced ∧
  Headers_get (headers (rebuild JSON_stringify spaced value)) "content-type"
    = Some "application/json" ∧
  Headers_get (headers (rebuild JSON_stringify spaced value)) "ETag" = Some "abc" ∧
  newResponseError (status outOfRange) = Some RangeError ∧
  out'.1 = Fulfilled outOfRange.
Proof.
  intros value out out'.
  destruct (rebuilt_response_frame id createStructureDefinition decode JSON_parse
              JSON_stringify Number (scripted []) noHooks createCore url spaced value)
    as (Hlearn & _ & _ & Hbody & _ & _ & Hct & Hother).
  destruct (rebuilt_response_frame id createStructureDefinition decode JSON_parse
              JSON_stringify Number (scripted []) noHooks createCore url outOfRange value)
    as (Hkeep & _).
  assert (Hparse : JSON_parse (body spaced) = Some value) by (vm_compute; reflexivity).
  split; [exact Hparse|].
  split. { subst out. rewrite (Hlearn value Hparse) by (vm_compute; reflexivity).
           reflexivity. }
  split. { rewrite Hbody. vm_compute. reflexivity. }
  split. { rewrite Hbody. vm_compute. discriminate. }
  split. { exact Hct. }
  split. { rewrite (Hother "ETag") by (vm_compute; discriminate). vm_compute. reflexivity. }
  split; [reflexivity|].
  subst out'. rewrite (Hkeep value Hparse) by (vm_compute; reflexivity). reflexivity.
Defined.


(** ** Further scenarios *)

(** A server that is down, and a cooperating server whose second answer
    is a packet with the text [null]. *)
Definition serverDown := scripted [].
Definition nullPacket : Response := packetResponse "null".
Definition serverNull := scripted [learned; nullPacket].

(** After the learning call of scenario B, a GET call with a header of the
    caller's carries the hint. *)
Lemma hint_after_learning_witness :
  let st' := (fetch serverB None true noHooks url emptyInit createCore).2 in
  attachedHint URL_origin None st' url authInit = Some "sid:learned" ∧
  Headers_get (init_headers (call_init (firstCall URL_origin None st' url authInit)))
    ACCEPT_ID = Some "sid:learned".
Proof.
  intros st'.
  pose proof (hint_after_learning id createStructureDefinition decode JSON_parse
                JSON_stringify URL_origin Number serverB None true noHooks createCore
                url emptyInit authInit learned (JObject [("learned", JBool true)])
                "https://api.example.com") as H.
  cbv zeta in H. subst st'. unfold fetch.
  destruct H as [H1 H2].
  - reflexivity.
  - vm_compute; reflexivity.
  - intros [H409 _]. vm_compute in H409. discriminate H409.
  - vm_compute; reflexivity.
  - vm_compute; reflexivity.
  - vm_compute; reflexivity.
  - vm_compute; reflexivity.
  - vm_compute; reflexivity.
  - vm_compute; reflexivity.
  - vm_compute. discriminate.
  - vm_compute; reflexivity.
  - split; [rewrite H1 | rewrite H2]; vm_compute; reflexivity.
Defined.

(** Scenario A: the packet of the second call is decoded against the
    structure learned by the first. *)
Lemma known_packet_is_decoded_witness :
  let st := afterLearning serverA in
  let out := fetch serverA None true noHooks url emptyInit st in
  out.1 = Fulfilled (rebuild JSON_stringify packetA (JObject [("learned", JBool false)])) ∧
  length (calls out.2) = 2 ∧
  registry out.2 = registry st ∧
  "https://api.example.com" ∈ knownSynpaticoOrigins out.2.
Proof.
  intros st out.
  pose proof (known_packet_is_decoded id createStructureDefinition decode JSON_parse
                JSON_stringify URL_origin Number serverA None true noHooks st
                url emptyInit packetA
                (JObject [("structureId", JString "sid:learned");
                          ("values", JArray [JBool false])])
                "sid:learned"
                (createStructureDefinition (JObject [("learned", JBool true)]))
                (JObject [("learned", JBool false)])) as H.
  cbv zeta in H. subst out. unfold fetch.
  destruct H as (Hmain & Hreg & Hor).
  - reflexivity.
  - vm_compute; reflexivity.
  - intros [H409 _]. vm_compute in H409. discriminate H409.
  - vm_compute; reflexivity.
  - vm_compute; reflexivity.
  - vm_compute; reflexivity.
  - vm_compute; reflexivity.
  - vm_compute; reflexivity.
  - vm_compute; reflexivity.
  - change (newResponseError (status packetA)) with (@None Err) in Hmain.
    destruct Hmain as [Hout Hcalls].
    split; [exact Hout|]. split; [rewrite Hcalls; vm_compute; reflexivity|].
    split; [exact Hreg|]. apply Hor. vm_compute; reflexivity.
Defined.

(** A call to a server that is down. *)
Lemma network_failure_propagates_witness :
  let out := fetch serverDown None true noHooks url emptyInit createCore in
  out.1 = Rejected NetworkError ∧ length (calls out.2) = 1 ∧
  registry out.2 = registry (@createCore StructureDefinition) ∧
  knownSynpaticoOrigins out.2 = ∅.
Proof.
  intros out.
  pose proof (network_failure_propagates id createStructureDefinition decode JSON_parse
                JSON_stringify URL_origin Number serverDown None true noHooks createCore
                url emptyInit) as H.
  cbv zeta in H. subst out. unfold fetch.
  destruct H as (Hout & Hcalls & Hreg & Hor).
  - reflexivity.
  - split; [exact Hout|]. split; [rewrite Hcalls; reflexivity|].
    split; [exact Hreg | exact Hor].
Defined.

(** A packet with the text [null] after the learning call: the promise
    rejects, with two underlying calls in all. *)
Lemma null_packet_rejects_witness :
  let st := afterLearning serverNull in
  let out := fetch serverNull None true errHooks url emptyInit st in
  JSON_parse (body nullPacket) = Some JNull ∧
  out.1 = Rejected TypeError ∧ length (calls out.2) = 2 ∧
  Forall (λ n, processing n = false) (log out.2).
Proof.
  intros st out.
  assert (Hparse : JSON_parse (body nullPacket) = Some JNull) by (vm_compute; reflexivity).
  pose proof (null_packet_rejects id createStructureDefinition decode JSON_parse
                JSON_stringify URL_origin Number serverNull None true errHooks st
                url emptyInit nullPacket) as H.
  cbv zeta in H. subst out. unfold fetch.
  destruct H as (Hout & Hcalls & _ & l & Hlog & Hl).
  - reflexivity.
  - vm_compute; reflexivity.
  - intros [H409 _]. vm_compute in H409. discriminate H409.
  - vm_compute; reflexivity.
  - vm_compute; reflexivity.
  - exact Hparse.
  - split; [exact Hparse|]. split; [exact Hout|].
    split; [rewrite Hcalls; vm_compute; reflexivity|].
    rewrite Hlog. apply Forall_app. split; [|exact Hl].
    vm_compute. repeat constructor.
Defined.
End ScenarioFacts.

(* ===================================================================== *)
(** * src/proxy.ts: createTrackingProxy *)
(* ===================================================================== *)

Module Proxy.
Import JS.

(** What [instanceof] and [.constructor] tell about an object. *)
Inductive Brand := PlainBrand | DateBrand | RegExpBrand | ErrorBrand | OtherBrand.
Inductive Constructor := ObjectConstructor | UndefinedConstructor | OtherConstructor.

(** The values a wrapped response can hold: finite trees of primitives,
    functions, arrays and objects.  An object carries what [instanceof]
    answers for it, what its [constructor] property reads as, and its own
    properties. *)
Inductive Value :=
| VUndefined
| VNull
| VBool (b : bool)
| VNumber (n : Z)
| VString (s : string)
| VFunction
| VArray (items : list Value)
| VObject (brand : Brand) (ctor : Constructor) (fields : list (string * Value)).

(** [typeof v], as [JS.typeof] does for JSON values. *)
Definition typeof (v : Value) : string :=
  match v with
  | VUndefined => "undefined"
  | VNull | VArray _ | VObject _ _ _ => "object"
  | VBool _ => "boolean"
  | VNumber _ => "number"
  | VString _ => "string"
  | VFunction => "function"
  end.

Definition isObjectValue (v : Value) : bool :=
  match v with VArray _ | VObject _ _ _ => true | _ => false end.

Definition isArray (v : Value) : bool :=
  match v with VArray _ => true | _ => false end.

(** [v instanceof Date || v instanceof RegExp || v instanceof Error] *)
Definition isOpaque (v : Value) : bool :=
  match v with
  | VObject DateBrand _ _ | VObject RegExpBrand _ _ | VObject ErrorBrand _ _ => true
  | _ => false
  end.

(** [v.constructor === Object || v.constructor === undefined] on an object
    that is not an array. *)
Definition hasPlainConstructor (v : Value) : bool :=
  match v with
  | VObject _ ObjectConstructor _ | VObject _ UndefinedConstructor _ => true
  | _ => false
  end.

(** A property key: a string or a symbol. *)
Inductive PropKey := PString (name : string) | PSymbol (description : string).

(** The number a string of decimal digits denotes. *)
Fixpoint parseDecimal (s : string) (acc : N) : option N :=
  match s with
  | EmptyString => Some acc
  | String c t =>
      let n := nat_of_ascii c in
      if Nat.leb 48 n && Nat.leb n 57
      then parseDecimal t (10 * acc + N.of_nat (n - 48))%N
      else None
  end.

(** The index a property name denotes, if it is a canonical array index
    (["0"], ["1"], ... without leading zeros). *)
Definition toIndex (s : string) : option nat :=
  match parseDecimal s 0 with
  | Some n => if bool_decide (s ≠ "") && bool_decide (pretty n = s)
              then Some (N.to_nat n) else None
  | None => None
  end.

(** [Reflect.get(obj, prop)] on own data properties; anything else reads
    as [undefined].  A [Value] holds own data properties only: what an
    object inherits from its prototype (the methods of [Object.prototype]
    and [Array.prototype], the length of a string) is not in it. *)
Definition Reflect_get (obj : Value) (prop : PropKey) : Value :=
  match prop, obj with
  | PString name, VObject _ _ fields => default VUndefined (assoc name fields)
  | PString name, VArray items =>
      if bool_decide (name = "length") then VNumber (Z.of_nat (length items))
      else default VUndefined (toIndex name ≫= (items !!.))
  | _, _ => VUndefined
  end.

(** [ProxyContext] *)
Record ProxyContext := mkContext {
  url : string;
  structureId : string;
  wasOptimized : bool;
  originalSize : option Z;
  compressedSize : option Z;
  rootPath : option string
}.

(** [ProxyOptions]; an absent field is [None]. *)
Record ProxyOptions := mkOptions {
  trackArrayAccess : option bool;
  trackMethodCalls : option bool;
  maxDepth : option Z;
  excludePaths : option (list string)
}.

(** [DEFAULT_OPTIONS] *)
Definition DEFAULT_trackArrayAccess : bool := true.
Definition DEFAULT_maxDepth : Z := 10.
Definition DEFAULT_excludePaths : list string :=
  ["constructor"; "prototype"; "__proto__"; "valueOf"; "toString"].

(** [PropertyAccessEvent], without its timestamp. *)
Record PropertyAccessEvent := mkEvent {
  ev_url : string;
  ev_structureId : string;
  propertyPath : string;
  depth : Z;
  dataType : string;
  ev_wasOptimized : bool;
  ev_originalSize : option Z;
  ev_compressedSize : option Z
}.

(** What application code holds: a value, or [new Proxy(target, handlers)]
    whose handlers have closed over [fullPath] and [depth]. *)
Inductive Handle :=
| Raw (v : Value)
| Tracked (target : Value) (fullPath : string) (depth : Z).

Section WithOptions.
Variable context : ProxyContext.
Variable options : ProxyOptions.

(** [opts = { ...DEFAULT_OPTIONS, ...options }] *)
Definition opts_maxDepth : Z := default DEFAULT_maxDepth (maxDepth options).
Definition opts_trackArrayAccess : bool :=
  default DEFAULT_trackArrayAccess (trackArrayAccess options).
Definition opts_excludePaths : list string :=
  default DEFAULT_excludePaths (excludePaths options).

(** [fullPath] in [createTrackingProxy] *)
Definition fullPathOf (currentPath : string) : string :=
  if truthy (Some currentPath) then
    if truthy (rootPath context)
    then default "" (rootPath context) +:+ "." +:+ currentPath
    else currentPath
  else if truthy (rootPath context) then default "" (rootPath context) else "".

(** [createTrackingProxy(target, context, options, currentPath, depth)] *)
Definition createTrackingProxy (target : Value) (currentPath : string) (depth : Z)
    : Handle :=
  if bool_decide (depth > opts_maxDepth)%Z then Raw target
  else if negb (isObjectValue target) then Raw target
  else if isOpaque target then Raw target
  else Tracked target (fullPathOf currentPath) depth.

(** The [get] trap: the value handed back and the events sent to
    [trackAccess]. *)
Definition get (obj : Value) (fullPath : string) (depth : Z) (prop : PropKey)
    : Handle * list PropertyAccessEvent :=
  match prop with
  | PSymbol _ => (Raw (Reflect_get obj prop), [])
  | PString name =>
      if bool_decide (name ∈ opts_excludePaths) then (Raw (Reflect_get obj prop), [])
      else
        let propertyPath :=
          if truthy (Some fullPath) then fullPath +:+ "." +:+ name else name in
        let value := Reflect_get obj prop in
        let event :=
          {| ev_url := url context;
             ev_structureId := structureId context;
             propertyPath := propertyPath;
             depth := depth;
             dataType := if isArray value then "array" else typeof value;
             ev_wasOptimized := wasOptimized context;
             ev_originalSize := originalSize context;
             ev_compressedSize := compressedSize context |} in
        (if isObjectValue value then
           if isArray value then
             if opts_trackArrayAccess
             then createTrackingProxy value propertyPath (depth + 1)
             else Raw value
           else if hasPlainConstructor value
             then createTrackingProxy value propertyPath (depth + 1)
             else Raw value
         else Raw value,
         [event])
  end.

(** A property read by application code: through the trap on a proxy,
    directly on a value; [None] is the [TypeError] of a read on [null] or
    [undefined].  A read through the trap is the read in which the trap
    returns: [trackAccess] returns to it, and the property read is not a
    frozen one, for which handing back a proxy in place of the nested
    object is a [TypeError] of the [Proxy]. *)
Definition read (h : Handle) (prop : PropKey)
    : option (Handle * list PropertyAccessEvent) :=
  match h with
  | Tracked obj fullPath depth => Some (get obj fullPath depth prop)
  | Raw VNull | Raw VUndefined => None
  | Raw v => Some (Raw (Reflect_get v prop), [])
  end.

(** A chain of reads [h.p1.p2...], with the events it sends. *)
Fixpoint readChain (h : Handle) (props : list PropKey)
    : option (Handle * list PropertyAccessEvent) :=
  match props with
  | [] => Some (h, [])
  | p :: props' =>
      match read h p with
      | Some (h', evs) =>
          match readChain h' props' with
          | Some (h'', evs') => Some (h'', evs ++ evs')
          | None => None
          end
      | None => None
      end
  end.

End WithOptions.

(** [createApiResponseProxy]: the API defaults, overridden by [options]. *)
Definition apiOptions (options : ProxyOptions) : ProxyOptions :=
  {| trackArrayAccess := Some (default true (trackArrayAccess options));
     trackMethodCalls := Some (default false (trackMethodCalls options));
     maxDepth := Some (default 5%Z (maxDepth options));
     excludePaths :=
       Some (default ["constructor"; "prototype"; "__proto__"; "valueOf"; "toString";
                      "toJSON"; "hasOwnProperty"; "isPrototypeOf"; "propertyIsEnumerable"]
               (excludePaths options)) |}.

Definition createApiResponseProxy (target : Value) (context : ProxyContext)
    (options : ProxyOptions) : Handle :=
  createTrackingProxy context (apiOptions options) target "" 0.

End Proxy.

Module ProxyFacts.
Import JS Proxy.

Section Facts.
Variable context : ProxyContext.
Variable options : ProxyOptions.

Abbreviation wrap := (createTrackingProxy context options).
Abbreviation limit := (opts_maxDepth options).

(** A handle reached at depth [d]: a value, or a proxy made at exactly
    that depth, within the limit, on an object that is not opaque. *)
Definition reachedAt (d : Z) (h : Handle) : Prop :=
  match h with
  | Raw _ => True
  | Tracked t _ d' =>
      d' = d ∧ (d' <= limit)%Z ∧ isObjectValue t = true ∧ isOpaque t = false
  end.

Lemma createTrackingProxy_reachedAt target currentPath d :
  reachedAt d (wrap target currentPath d).
Proof.
  unfold createTrackingProxy. case_bool_decide as Hd; [exact I|].
  destruct (isObjectValue target) eqn:Hobj; cbn [negb]; [|exact I].
  destruct (isOpaque target) eqn:Hop; [exact I|].
  cbn. repeat split; [lia | exact Hobj | exact Hop].
Qed.

Lemma get_reachedAt obj fullPath d prop :
  reachedAt (d + 1) (get context options obj fullPath d prop).1 ∧
  Forall (λ e, depth e = d) (get context options obj fullPath d prop).2.
Proof.
  unfold get. destruct prop as [name|sym]; [|split; [exact I | constructor]].
  case_bool_decide; [split; [exact I | constructor]|].
  cbn [fst snd]. split; [|repeat constructor].
  destruct (isObjectValue _); [|exact I].
  destruct (isArray _).
  - destruct (opts_trackArrayAccess options); [apply createTrackingProxy_reachedAt | exact I].
  - destruct (hasPlainConstructor _); [apply createTrackingProxy_reachedAt | exact I].
Qed.

Lemma read_reachedAt h d prop h' evs :
  reachedAt d h →
  read context options h prop = Some (h', evs) →
  reachedAt (d + 1) h' ∧ Forall (λ e, (depth e <= limit)%Z) evs ∧
  ((∃ v, h = Raw v) → (∃ v', h' = Raw v') ∧ evs = []).
Proof.
  intros Hh Hread. destruct h as [v|t p d'].
  - assert (h' = Raw (Reflect_get v prop) ∧ evs = []) as [-> ->].
    { destruct v; cbn in Hread; try discriminate; by inversion Hread. }
    split; [exact I|]. split; [constructor|]. intros _. split; [eauto | reflexivity].
  - unfold read in Hread. destruct Hh as (-> & Hle & _ & _).
    destruct (get_reachedAt t p d prop) as [Hr Hev].
    injection Hread as Hget. rewrite Hget in Hr, Hev. cbn [fst snd] in Hr, Hev.
    split; [exact Hr|]. split.
    + eapply Forall_impl; [exact Hev|]. cbn. intros e ->. exact Hle.
    + intros [v Hv]. discriminate Hv.
Qed.

Lemma readChain_reachedAt props : ∀ h d h' evs,
  reachedAt d h →
  readChain context options h props = Some (h', evs) →
  reachedAt (d + Z.of_nat (length props)) h' ∧
  Forall (λ e, (depth e <= limit)%Z) evs ∧
  ((∃ v, h = Raw v) → (∃ v', h' = Raw v') ∧ evs = []).
Proof.
  induction props as [|p props IH]; intros h d h' evs Hh Hrun.
  - cbn in Hrun. inversion Hrun; subst h' evs. cbn [length Z.of_nat].
    rewrite Z.add_0_r. split; [exact Hh|]. split; [constructor|].
    intros Hraw. split; [exact Hraw | reflexivity].
  - cbn [readChain] in Hrun.
    destruct (read context options h p) as [[h1 evs1]|] eqn:Hread; [|discriminate].
    destruct (readChain context options h1 props) as [[h2 evs2]|] eqn:Hrest; [|discriminate].
    inversion Hrun; subst h' evs.
    destruct (read_reachedAt h d p h1 evs1 Hh Hread) as (Hh1 & Hev1 & Hraw1).
    destruct (IH h1 (d + 1)%Z h2 evs2 Hh1 Hrest) as (Hh2 & Hev2 & Hraw2).
    split; [|split].
    + replace (d + Z.of_nat (length (p :: props)))%Z
        with (d + 1 + Z.of_nat (length props))%Z by (cbn [length]; lia).
      exact Hh2.
    + apply Forall_app. by split.
    + intros Hraw. destruct (Hraw1 Hraw) as [Hr1 ->].
      destruct (Hraw2 Hr1) as [Hr2 ->]. split; [exact Hr2 | reflexivity].
Qed.

Lemma get_excluded obj fullPath d prop :
  match prop with PString name => name ∈ opts_excludePaths options | PSymbol _ => True end →
  get context options obj fullPath d prop = (Raw (Reflect_get obj prop), []).
Proof.
  destruct prop as [name|sym]; intros Hex; [|reflexivity].
  unfold get. by rewrite bool_decide_eq_true_2.
Qed.

(** C9.  Start from [createTrackingProxy] on any value at any depth and
    follow any chain of property reads.  A proxy that comes out of it has
    the depth of the chain, which is at most [maxDepth] (10 when the
    option is absent), and wraps an object that is not a Date, a RegExp
    or an Error; past [maxDepth] what comes out is the value itself, and no
    event has a greater depth.  A read of an excluded name, or of a symbol,
    hands back the value itself and sends no event, and so does a whole
    chain of them.  Opaque built-ins and values past [maxDepth] are handed
    back by [createTrackingProxy] as they are. *)
Theorem proxy_limits target currentPath depth0 props h evs :
  readChain context options (wrap target currentPath depth0) props = Some (h, evs) →
  (maxDepth options = None → limit = 10%Z) ∧
  (∀ t p d, h = Tracked t p d →
     d = (depth0 + Z.of_nat (length props))%Z ∧ (d <= limit)%Z ∧ isOpaque t = false) ∧
  ((limit < depth0 + Z.of_nat (length props))%Z → ∃ v, h = Raw v) ∧
  Forall (λ e, (depth e <= limit)%Z) evs ∧
  (∀ obj fullPath d name,
     name ∈ opts_excludePaths options →
     get context options obj fullPath d (PString name)
       = (Raw (Reflect_get obj (PString name)), [])) ∧
  (Forall (λ prop, match prop with
                   | PString name => name ∈ opts_excludePaths options
                   | PSymbol _ => True
                   end) props → evs = []) ∧
  (∀ v path d, isOpaque v = true → wrap v path d = Raw v) ∧
  (∀ v path d, (d > limit)%Z → wrap v path d = Raw v).
Proof.
  intros Hrun.
  destruct (readChain_reachedAt props _ depth0 h evs
              (createTrackingProxy_reachedAt target currentPath depth0) Hrun)
    as (Hh & Hev & _).
  split. { unfold opts_maxDepth. by intros ->. }
  split. { intros t p d ->. destruct Hh as (Hd & Hle & _ & Hop). auto. }
  split. { intros Hlt. destruct h as [v|t p d]; [eauto|].
           destruct Hh as (-> & Hle & _). lia. }
  split. { exact Hev. }
  split. { intros obj fullPath d name Hex. by apply (get_excluded obj fullPath d (PString name)). }
  split.
  { clear Hh Hev. revert evs Hrun. generalize (wrap target currentPath depth0) as h0.
    induction props as [|p props IH]; intros h0 evs Hrun Hall.
    - cbn in Hrun. by inversion Hrun.
    - inversion Hall as [|? ? Hp Hrest]; subst. cbn [readChain] in Hrun.
      destruct (read context options h0 p) as [[h1 evs1]|] eqn:Hread; [|discriminate].
      destruct (readChain context options h1 props) as [[h2 evs2]|] eqn:Hchain; [|discriminate].
      inversion Hrun; subst h evs.
      assert (evs1 = []) as ->.
      { destruct h0 as [v|t fp d].
        - destruct v; cbn in Hread; try discriminate; by inversion Hread.
        - unfold read in Hread. rewrite (get_excluded t fp d p Hp) in Hread.
          by inversion Hread. }
      cbn. eapply IH; [exact Hchain | exact Hrest]. }
  split.
  - intros v path d Hop. unfold createTrackingProxy. rewrite Hop.
    case_bool_decide; [reflexivity|]. by destruct (negb _).
  - intros v path d Hd. unfold createTrackingProxy. by rewrite bool_decide_eq_true_2.
Qed.

(** ** Further properties of the tracking proxy *)

(** The value behind a handle. *)
Definition valueOf (h : Handle) : Value :=
  match h with
  | Raw v => v
  | Tracked t _ _ => t
  end.

(** The chain of reads [v.p1.p2...] on the value itself, without any
    proxy; [None] is the [TypeError] of a read on [null] or [undefined]. *)
Fixpoint plainChain (v : Value) (props : list PropKey) : option Value :=
  match props with
  | [] => Some v
  | p :: props' =>
      match v with
      | VNull | VUndefined => None
      | _ => plainChain (Reflect_get v p) props'
      end
  end.

Lemma createTrackingProxy_valueOf target currentPath d :
  valueOf (wrap target currentPath d) = target.
Proof.
  unfold createTrackingProxy. case_bool_decide; [reflexivity|].
  destruct (negb _); [reflexivity|]. by destruct (isOpaque target).
Qed.

Lemma get_valueOf obj fullPath d prop :
  valueOf (get context options obj fullPath d prop).1 = Reflect_get obj prop.
Proof.
  unfold get. destruct prop as [name|sym]; [|reflexivity].
  case_bool_decide; [reflexivity|]. cbn [fst].
  destruct (isObjectValue _); [|reflexivity].
  destruct (isArray _).
  - destruct (opts_trackArrayAccess options);
      [apply createTrackingProxy_valueOf | reflexivity].
  - destruct (hasPlainConstructor _); [apply createTrackingProxy_valueOf | reflexivity].
Qed.

Lemma readChain_valueOf props : ∀ h d,
  reachedAt d h →
  (λ r, valueOf r.1) <$> readChain context options h props = plainChain (valueOf h) props.
Proof.
  induction props as [|p props IH]; intros h d Hh; [reflexivity|].
  assert (Hstep : ∀ h1 (evs1 : list PropertyAccessEvent) d1,
            reachedAt d1 h1 →
            (λ r, valueOf r.1) <$>
              match readChain context options h1 props with
              | Some (h2, evs2) => Some (h2, evs1 ++ evs2)
              | None => None
              end = plainChain (valueOf h1) props).
  { intros h1 evs1 d1 Hh1. rewrite <- (IH h1 d1 Hh1).
    by destruct (readChain context options h1 props) as [[h2 evs2]|]. }
  cbn [readChain plainChain].
  destruct h as [v|t fp d'].
  - cbn [valueOf].
    destruct v; cbn [read]; try reflexivity; apply (Hstep (Raw _) [] d I).
  - destruct Hh as (_ & _ & Hobj & _). cbn [valueOf read].
    destruct (get context options t fp d' p) as [h1 evs1] eqn:Hget.
    pose proof (get_valueOf t fp d' p) as Hval. rewrite Hget in Hval. cbn [fst] in Hval.
    pose proof (get_reachedAt t fp d' p) as [Hr _]. rewrite Hget in Hr. cbn [fst] in Hr.
    rewrite (Hstep h1 evs1 _ Hr), Hval.
    by destruct t.
Qed.

(** A property of the value itself: a field of an object, an index or
    the length of an array. *)
Definition hasOwn (v : Value) (prop : PropKey) : bool :=
  match prop, v with
  | PString name, VObject _ _ fields => bool_decide (is_Some (assoc name fields))
  | PString name, VArray items =>
      bool_decide (name = "length") || bool_decide (is_Some (toIndex name ≫= (items !!.)))
  | _, _ => false
  end.

(** A chain of reads [v.p1.p2...] each of which reads an own property of
    the object or array reached. *)
Fixpoint ownChain (v : Value) (props : list PropKey) : bool :=
  match props with
  | [] => true
  | p :: props' => hasOwn v p && ownChain (Reflect_get v p) props'
  end.

Lemma ownChain_plainChain props : ∀ v,
  ownChain v props = true → is_Some (plainChain v props).
Proof.
  induction props as [|p props IH]; intros v Hown; [by eexists|].
  cbn [ownChain] in Hown. apply andb_true_iff in Hown as [Hp Hrest].
  cbn [plainChain]. destruct v; destruct p; try discriminate Hp; by apply IH.
Qed.

(** X14.  Reads of own properties through the proxy are transparent.  For
    a chain of reads each of which reads an own property of the object or
    array reached, the chain on the unwrapped target returns a value, and
    whenever the same chain through the proxy returns, what it returns is
    that very value or a proxy around it. *)
Theorem reads_are_transparent target currentPath depth0 props :
  ownChain target props = true →
  ∃ v, plainChain target props = Some v ∧
       ∀ h evs,
         readChain context options (wrap target currentPath depth0) props = Some (h, evs) →
         valueOf h = v.
Proof.
  intros Hown. destruct (ownChain_plainChain props target Hown) as [v Hv].
  exists v. split; [exact Hv|]. intros h evs Hrun.
  pose proof (readChain_valueOf props _ depth0
                (createTrackingProxy_reachedAt target currentPath depth0)) as Heq.
  rewrite Hrun, createTrackingProxy_valueOf, Hv in Heq. cbn in Heq. by injection Heq.
Qed.

Lemma get_events obj fullPath d prop :
  ((get context options obj fullPath d prop).2 = [] ∧
   ∃ v, (get context options obj fullPath d prop).1 = Raw v) ∨
  ∃ e, (get context options obj fullPath d prop).2 = [e] ∧ depth e = d.
Proof.
  unfold get. destruct prop as [name|sym]; [|left; eauto].
  case_bool_decide; [left; eauto|]. right. eexists. split; reflexivity.
Qed.

Lemma readChain_depths props : ∀ h d h' evs,
  reachedAt d h →
  readChain context options h props = Some (h', evs) →
  length evs ≤ length props ∧
  depth <$> evs = (λ i : nat, d + Z.of_nat i)%Z <$> seq 0 (length evs).
Proof.
  induction props as [|p props IH]; intros h d h' evs Hh Hrun.
  - cbn in Hrun. injection Hrun as <- <-. by split.
  - destruct h as [v|t fp d'].
    { destruct (readChain_reachedAt (p :: props) (Raw v) d h' evs Hh Hrun)
        as (_ & _ & Hraw). destruct Hraw as [_ ->]; [eauto|]. split; [cbn; lia | reflexivity]. }
    cbn [readChain read] in Hrun.
    destruct (get context options t fp d' p) as [h1 evs1] eqn:Hget.
    destruct (readChain context options h1 props) as [[h2 evs2]|] eqn:Hrest; [|discriminate].
    injection Hrun as <- <-.
    pose proof (get_reachedAt t fp d' p) as [Hr _]. rewrite Hget in Hr. cbn [fst] in Hr.
    destruct Hh as (-> & _).
    destruct (get_events t fp d p) as [[Hnil (v & Hraw)] | (e & Hone & Hd)];
      rewrite Hget in *; cbn [fst snd] in *.
    + subst evs1 h1.
      destruct (readChain_reachedAt props (Raw v) (d + 1)%Z h2 evs2 I Hrest)
        as (_ & _ & Hraw). destruct Hraw as [_ ->]; [eauto|].
      split; [cbn; lia | reflexivity].
    + subst evs1. destruct (IH h1 (d + 1)%Z h2 evs2 Hr Hrest) as [Hlen Hdepths].
      split; [cbn; lia|].
      cbn [app length seq fmap list_fmap]. rewrite Hd. f_equal; [lia|].
      change (list_fmap _ _ depth evs2) with (depth <$> evs2). rewrite Hdepths.
      rewrite <- fmap_S_seq, <- list_fmap_compose.
      apply list_fmap_ext. intros i x _. cbn. lia.
Qed.

(** X15.  The events of a chain of reads come from its first reads only, one
    event per read while the reads go through proxies, and they count the
    depth up from the depth of the root: the i-th event has depth
    [depth0 + i], and there are at most as many events as reads. *)
Theorem event_depths_count_up target currentPath depth0 props h evs :
  readChain context options (wrap target currentPath depth0) props = Some (h, evs) →
  length evs ≤ length props ∧
  depth <$> evs = (λ i : nat, depth0 + Z.of_nat i)%Z <$> seq 0 (length evs).
Proof.
  apply readChain_depths, createTrackingProxy_reachedAt.
Qed.


(** ** The paths of the events *)

(** [fullPath ? `${fullPath}.${prop}` : prop] in the [get] trap. *)
Definition extendPath (fullPath name : string) : string :=
  if truthy (Some fullPath) then fullPath +:+ "." +:+ name else name.

(** The names of a chain of reads, joined by dots. *)
Fixpoint dotted (names : list string) : string :=
  match names with
  | [] => ""
  | [n] => n
  | n :: rest => n +:+ "." +:+ dotted rest
  end.

(** A proxy reached under the path [p] has closed over [p]. *)
Definition pathIs (p : string) (h : Handle) : Prop :=
  match h with
  | Raw _ => True
  | Tracked _ fp _ => fp = p
  end.

Lemma fullPathOf_no_root p :
  truthy (rootPath context) = false → fullPathOf context p = p.
Proof.
  intros Hroot. unfold fullPathOf. rewrite Hroot.
  unfold truthy. case_bool_decide as Hp; [by subst p | reflexivity].
Qed.

Lemma createTrackingProxy_pathIs target p d :
  truthy (rootPath context) = false → pathIs p (wrap target p d).
Proof.
  intros Hroot. unfold createTrackingProxy. case_bool_decide; [exact I|].
  destruct (negb _); [exact I|]. destruct (isOpaque target); [exact I|].
  cbn. by apply fullPathOf_no_root.
Qed.

Lemma get_path obj fullPath d name :
  truthy (rootPath context) = false →
  ((get context options obj fullPath d (PString name)).2 = [] ∧
   ∃ v, (get context options obj fullPath d (PString name)).1 = Raw v) ∨
  ∃ e, (get context options obj fullPath d (PString name)).2 = [e] ∧
       propertyPath e = extendPath fullPath name ∧
       pathIs (extendPath fullPath name)
         (get context options obj fullPath d (PString name)).1.
Proof.
  intros Hroot. unfold get.
  case_bool_decide; [left; eauto|]. right. eexists. split; [reflexivity|].
  split; [reflexivity|]. cbn [fst]. fold (extendPath fullPath name).
  destruct (isObjectValue _); [|exact I].
  destruct (isArray _).
  - destruct (opts_trackArrayAccess options);
      [by apply createTrackingProxy_pathIs | exact I].
  - destruct (hasPlainConstructor _); [by apply createTrackingProxy_pathIs | exact I].
Qed.

Lemma dotted_cons n rest :
  rest ≠ [] → dotted (n :: rest) = n +:+ "." +:+ dotted rest.
Proof. by destruct rest. Qed.

Lemma dotted_nonempty names :
  names ≠ [] → Forall (λ n, n ≠ "") names → dotted names ≠ "".
Proof.
  destruct names as [|n rest]; [done|]. intros _ Hne.
  apply Forall_cons in Hne as [Hn _].
  destruct rest; cbn [dotted]; [exact Hn|].
  destruct n; [done | discriminate].
Qed.

Lemma dotted_snoc pre n :
  Forall (λ n, n ≠ "") pre →
  dotted (pre ++ [n]) = extendPath (dotted pre) n.
Proof.
  induction pre as [|m pre IH]; intros Hne; [reflexivity|].
  apply Forall_cons in Hne as [Hm Hne].
  destruct pre as [|m' pre].
  - cbn. unfold extendPath, truthy. by rewrite bool_decide_eq_false_2.
  - change ((m :: m' :: pre) ++ [n]) with (m :: (m' :: pre) ++ [n]).
    rewrite dotted_cons by done. rewrite (IH Hne).
    rewrite (dotted_cons m (m' :: pre)) by done.
    assert (Hd : dotted (m' :: pre) ≠ "") by (by apply dotted_nonempty).
    unfold extendPath, truthy.
    rewrite (bool_decide_eq_false_2 _ Hd).
    rewrite bool_decide_eq_false_2.
    + cbn [negb]. by rewrite !JSFacts.string_app_assoc.
    + destruct m; [done | discriminate].
Qed.

Lemma readChain_paths names : ∀ pre h d h' evs,
  truthy (rootPath context) = false →
  Forall (λ n, n ≠ "") pre →
  Forall (λ n, n ≠ "") names →
  reachedAt d h → pathIs (dotted pre) h →
  readChain context options h (PString <$> names) = Some (h', evs) →
  propertyPath <$> evs
    = (λ i : nat, dotted (pre ++ take (S i) names)) <$> seq 0 (length evs).
Proof.
  induction names as [|n names IH]; intros pre h d h' evs Hroot Hpre Hnames Hh Hp Hrun.
  - cbn in Hrun. by injection Hrun as <- <-.
  - apply Forall_cons in Hnames as [Hn Hnames].
    destruct h as [v|t fp d'].
    { destruct (readChain_reachedAt _ (Raw v) d h' evs Hh Hrun) as (_ & _ & Hraw).
      destruct Hraw as [_ ->]; [eauto | reflexivity]. }
    cbn [fmap list_fmap readChain read] in Hrun.
    change (list_fmap _ _ PString names) with (PString <$> names) in Hrun.
    destruct (get context options t fp d' (PString n)) as [h1 evs1] eqn:Hget.
    destruct (readChain context options h1 (PString <$> names))
      as [[h2 evs2]|] eqn:Hrest; [|discriminate].
    injection Hrun as <- <-.
    pose proof (get_reachedAt t fp d' (PString n)) as [Hr _].
    rewrite Hget in Hr. cbn [fst] in Hr.
    cbn in Hp. subst fp.
    destruct (get_path t (dotted pre) d' n Hroot) as [[Hnil (v & Hraw)] | (e & Hone & Hpath & Hnext)];
      rewrite Hget in *; cbn [fst snd] in *.
    + subst evs1 h1.
      destruct (readChain_reachedAt _ (Raw v) (d' + 1)%Z h2 evs2 I Hrest)
        as (_ & _ & Hraw). destruct Hraw as [_ ->]; [eauto | reflexivity].
    + subst evs1. rewrite <- dotted_snoc in Hpath, Hnext by exact Hpre.
      assert (Hpre' : Forall (λ n, n ≠ "") (pre ++ [n])).
      { apply Forall_app. split; [exact Hpre | by constructor]. }
      pose proof (IH (pre ++ [n]) h1 (d' + 1)%Z h2 evs2 Hroot Hpre' Hnames Hr Hnext Hrest)
        as Hpaths.
      cbn [app length seq fmap list_fmap take]. rewrite Hpath. f_equal.
      change (list_fmap _ _ propertyPath evs2) with (propertyPath <$> evs2).
      rewrite Hpaths, <- fmap_S_seq, <- list_fmap_compose.
      apply list_fmap_ext. intros i x _. cbn [compose take].
      by rewrite <- app_assoc.
Qed.

(** X16.  Without a [rootPath] in the context, the events of a chain of
    reads [root.n1.n2...] of names that are not empty carry the dotted
    paths of the chain: the i-th event has the path [n1.n2. ... .n(i+1)]. *)
Theorem event_paths_are_dotted_prefixes target depth0 names h evs :
  truthy (rootPath context) = false →
  Forall (λ n, n ≠ "") names →
  readChain context options (wrap target "" depth0) (PString <$> names) = Some (h, evs) →
  propertyPath <$> evs = (λ i : nat, dotted (take (S i) names)) <$> seq 0 (length evs).
Proof.
  intros Hroot Hnames Hrun.
  apply (readChain_paths names [] _ depth0 h evs Hroot (Forall_nil_2 _) Hnames
           (createTrackingProxy_reachedAt target "" depth0)
           (createTrackingProxy_pathIs target "" depth0 Hroot) Hrun).
Qed.

(** ** The paths of the events under a [rootPath] *)

(** [k] times [`${rootPath}.${...}`] around a path. *)
Definition rooted (r : string) (k : nat) (p : string) : string :=
  Nat.iter k (λ s, r +:+ "." +:+ s) p.

(** What the proxy reached by the reads [pre] has closed over, under the
    root path [r]. *)
Definition levelPath (r : string) (pre : list string) : string :=
  rooted r (length pre)
    (match pre with [] => r | _ => r +:+ "." +:+ dotted pre end).

Lemma rooted_S r k p : rooted r (S k) p = r +:+ "." +:+ rooted r k p.
Proof. reflexivity. Qed.

Lemma rooted_app r k p q : rooted r k p +:+ q = rooted r k (p +:+ q).
Proof.
  induction k as [|k IH]; [reflexivity|].
  by rewrite !rooted_S, <- IH, !JSFacts.string_app_assoc.
Qed.

Lemma rooted_succ r k p : rooted r (S k) p = rooted r k (r +:+ "." +:+ p).
Proof. unfold rooted. by rewrite Nat.iter_succ_r. Qed.

Lemma dotted_snoc_app pre n :
  pre ≠ [] → dotted (pre ++ [n]) = dotted pre +:+ "." +:+ n.
Proof.
  induction pre as [|m pre IH]; [done|]. intros _.
  destruct pre as [|m' pre]; [reflexivity|].
  change ((m :: m' :: pre) ++ [n]) with (m :: (m' :: pre) ++ [n]).
  rewrite dotted_cons by done. rewrite IH by done.
  rewrite (dotted_cons m (m' :: pre)) by done.
  by rewrite !JSFacts.string_app_assoc.
Qed.

Lemma levelPath_truthy r pre : r ≠ "" → truthy (Some (levelPath r pre)) = true.
Proof.
  intros Hr. unfold truthy. rewrite bool_decide_eq_false_2; [reflexivity|].
  unfold levelPath. destruct (length pre) as [|k].
  - destruct pre; [exact Hr|]. cbn. destruct r; [done | discriminate].
  - cbn. destruct r; [done | discriminate].
Qed.

Lemma levelPath_read r pre n :
  levelPath r pre +:+ "." +:+ n = rooted r (S (length pre)) (dotted (pre ++ [n])).
Proof.
  unfold levelPath. rewrite rooted_app, rooted_succ. f_equal.
  destruct pre as [|m pre]; [reflexivity|].
  rewrite dotted_snoc_app by done. by rewrite !JSFacts.string_app_assoc.
Qed.

Lemma levelPath_snoc r pre n :
  r +:+ "." +:+ (levelPath r pre +:+ "." +:+ n) = levelPath r (pre ++ [n]).
Proof.
  rewrite levelPath_read. unfold levelPath. rewrite length_app. cbn [length].
  replace (length pre + 1) with (S (length pre)) by lia.
  rewrite <- rooted_S, (rooted_succ r (S (length pre))). by destruct pre.
Qed.

Lemma createTrackingProxy_rooted r target pre n d :
  rootPath context = Some r → r ≠ "" →
  pathIs (levelPath r (pre ++ [n])) (wrap target (levelPath r pre +:+ "." +:+ n) d).
Proof.
  intros Hroot Hr. unfold createTrackingProxy. case_bool_decide; [exact I|].
  destruct (negb _); [exact I|]. destruct (isOpaque target); [exact I|].
  cbn [pathIs]. unfold fullPathOf. rewrite Hroot. cbn [default].
  assert (Hp : truthy (Some (levelPath r pre +:+ "." +:+ n)) = true).
  { unfold truthy. rewrite bool_decide_eq_false_2; [reflexivity|].
    apply JSFacts.string_app_nonempty_r. discriminate. }
  rewrite Hp. assert (Ht : truthy (Some r) = true).
  { unfold truthy. by rewrite bool_decide_eq_false_2. }
  rewrite Ht. apply levelPath_snoc.
Qed.

Lemma get_rooted r obj pre d n :
  rootPath context = Some r → r ≠ "" →
  ((get context options obj (levelPath r pre) d (PString n)).2 = [] ∧
   ∃ v, (get context options obj (levelPath r pre) d (PString n)).1 = Raw v) ∨
  ∃ e, (get context options obj (levelPath r pre) d (PString n)).2 = [e] ∧
       propertyPath e = rooted r (S (length pre)) (dotted (pre ++ [n])) ∧
       pathIs (levelPath r (pre ++ [n]))
         (get context options obj (levelPath r pre) d (PString n)).1.
Proof.
  intros Hroot Hr. unfold get.
  case_bool_decide; [left; eauto|]. right. rewrite (levelPath_truthy r pre Hr).
  eexists. split; [reflexivity|].
  split; [apply levelPath_read|]. cbn [fst].
  destruct (isObjectValue _); [|exact I].
  destruct (isArray _).
  - destruct (opts_trackArrayAccess options);
      [by apply createTrackingProxy_rooted | exact I].
  - destruct (hasPlainConstructor _); [by apply createTrackingProxy_rooted | exact I].
Qed.

Lemma readChain_rooted r names : ∀ pre h d h' evs,
  rootPath context = Some r → r ≠ "" →
  reachedAt d h → pathIs (levelPath r pre) h →
  readChain context options h (PString <$> names) = Some (h', evs) →
  propertyPath <$> evs
    = (λ i : nat, rooted r (S (length pre + i)) (dotted (pre ++ take (S i) names)))
        <$> seq 0 (length evs).
Proof.
  induction names as [|n names IH]; intros pre h d h' evs Hroot Hr Hh Hp Hrun.
  - cbn in Hrun. by injection Hrun as <- <-.
  - destruct h as [v|t fp d'].
    { destruct (readChain_reachedAt _ (Raw v) d h' evs Hh Hrun) as (_ & _ & Hraw).
      destruct Hraw as [_ ->]; [eauto | reflexivity]. }
    cbn [fmap list_fmap readChain read] in Hrun.
    change (list_fmap _ _ PString names) with (PString <$> names) in Hrun.
    destruct (get context options t fp d' (PString n)) as [h1 evs1] eqn:Hget.
    destruct (readChain context options h1 (PString <$> names))
      as [[h2 evs2]|] eqn:Hrest; [|discriminate].
    injection Hrun as <- <-.
    pose proof (get_reachedAt t fp d' (PString n)) as [Hreach _].
    rewrite Hget in Hreach. cbn [fst] in Hreach.
    cbn in Hp. subst fp.
    destruct (get_rooted r t pre d' n Hroot Hr)
      as [[Hnil (v & Hraw)] | (e & Hone & Hpath & Hnext)];
      rewrite Hget in *; cbn [fst snd] in *.
    + subst evs1 h1.
      destruct (readChain_reachedAt _ (Raw v) (d' + 1)%Z h2 evs2 I Hrest)
        as (_ & _ & Hraw). destruct Hraw as [_ ->]; [eauto | reflexivity].
    + subst evs1.
      pose proof (IH (pre ++ [n]) h1 (d' + 1)%Z h2 evs2 Hroot Hr Hreach Hnext Hrest)
        as Hpaths.
      cbn [app length seq fmap list_fmap take]. rewrite Hpath. f_equal.
      { by rewrite Nat.add_0_r. }
      change (list_fmap _ _ propertyPath evs2) with (propertyPath <$> evs2).
      rewrite Hpaths, <- fmap_S_seq, <- list_fmap_compose.
      apply list_fmap_ext. intros i x _. cbn [compose take].
      rewrite <- app_assoc, length_app. cbn [length app]. f_equal. lia.
Qed.

(** X17.  Under a [rootPath] that is not empty the root path is put in front
    again by every proxy on the way: the i-th event of a chain of reads
    [root.n1.n2...] has the path of the chain so far, [n1. ... .n(i+1)],
    with [rootPath.] in front of it [i+1] times. *)
Theorem root_path_is_repeated r target depth0 names h evs :
  rootPath context = Some r → r ≠ "" →
  readChain context options (wrap target "" depth0) (PString <$> names) = Some (h, evs) →
  propertyPath <$> evs
    = (λ i : nat, rooted r (S i) (dotted (take (S i) names))) <$> seq 0 (length evs).
Proof.
  intros Hroot Hr Hrun.
  assert (Hp : pathIs (levelPath r []) (wrap target "" depth0)).
  { unfold createTrackingProxy. case_bool_decide; [exact I|].
    destruct (negb _); [exact I|]. destruct (isOpaque target); [exact I|].
    cbn [pathIs]. unfold fullPathOf. rewrite Hroot.
    change (truthy (Some "")) with false. cbv iota. cbn [default].
    unfold truthy. by rewrite (bool_decide_eq_false_2 _ Hr). }
  apply (readChain_rooted r names [] _ depth0 h evs Hroot Hr
           (createTrackingProxy_reachedAt target "" depth0) Hp Hrun).
Qed.
End Facts.

(** A response with a nested object and a Date, wrapped with [maxDepth]
    1: [data] and [data.user] are proxies, [data.user.name] at depth 2 is
    the bare value, [when] is the Date itself, and the read of
    [constructor] sends nothing. *)
Definition sampleContext : ProxyContext :=
  {| url := "https://api.example.com/users/2"; structureId := "sid:data,when";
     wasOptimized := false; originalSize := None; compressedSize := None;
     rootPath := None |}.

Definition shallow : ProxyOptions :=
  {| trackArrayAccess := None; trackMethodCalls := None; maxDepth := Some 1%Z;
     excludePaths := None |}.

Definition sample : Value :=
  VObject PlainBrand ObjectConstructor
    [("data", VObject PlainBrand ObjectConstructor
                [("user", VObject PlainBrand ObjectConstructor
                            [("name", VObject PlainBrand ObjectConstructor
                                        [("first", VString "Janet")])])]);
     ("when", VObject DateBrand OtherConstructor [])].

(** The chain [data.user.name] under [maxDepth] 1. *)
Lemma proxy_limits_witness :
  let root := createTrackingProxy sampleContext shallow sample "" 0 in
  let name := VObject PlainBrand ObjectConstructor [("first", VString "Janet")] in
  readChain sampleContext shallow root [PString "data"; PString "user"; PString "name"]
    = Some (Raw name,
            [{| ev_url := "https://api.example.com/users/2";
                ev_structureId := "sid:data,when"; propertyPath := "data";
                depth := 0; dataType := "object"; ev_wasOptimized := false;
                ev_originalSize := None; ev_compressedSize := None |};
             {| ev_url := "https://api.example.com/users/2";
                ev_structureId := "sid:data,when"; propertyPath := "data.user";
                depth := 1; dataType := "object"; ev_wasOptimized := false;
                ev_originalSize := None; ev_compressedSize := None |}]) ∧
  fst <$> readChain sampleContext shallow root [PString "when"]
    = Some (Raw (VObject DateBrand OtherConstructor [])) ∧
  snd <$> readChain sampleContext shallow root [PString "constructor"] = Some [].
Proof.
  intros root name.
  assert (Hrun : readChain sampleContext shallow root
                   [PString "data"; PString "user"; PString "name"]
                 = Some (Raw name, _)) by (vm_compute; reflexivity).
  destruct (proxy_limits sampleContext shallow sample "" 0 _ _ _ Hrun)
    as (_ & _ & Hraw & Hev & _).
  split; [exact Hrun|]. split; vm_compute; reflexivity.
Defined.


(** The same response read with the default options, and under a root
    path. *)
Definition allDefaults : ProxyOptions :=
  {| trackArrayAccess := None; trackMethodCalls := None; maxDepth := None;
     excludePaths := None |}.

Definition rootedContext : ProxyContext :=
  {| url := "https://api.example.com/users/2"; structureId := "sid:data,when";
     wasOptimized := false; originalSize := None; compressedSize := None;
     rootPath := Some "resp" |}.

Definition sampleChain : list string := ["data"; "user"; "name"; "first"; "length"].

(** [data.user.name.first.length]: four reads go through proxies, the
    fifth is a read on a string. *)
Lemma event_depths_count_up_witness :
  ∃ h evs,
    readChain sampleContext allDefaults
      (createTrackingProxy sampleContext allDefaults sample "" 0)
      (PString <$> sampleChain) = Some (h, evs) ∧
    length evs ≤ 5 ∧ depth <$> evs = [0; 1; 2; 3]%Z.
Proof.
  eexists _, _.
  assert (Hrun : readChain sampleContext allDefaults
                   (createTrackingProxy sampleContext allDefaults sample "" 0)
                   (PString <$> sampleChain) = Some (_, _)) by (vm_compute; reflexivity).
  split; [exact Hrun|].
  destruct (event_depths_count_up sampleContext allDefaults sample "" 0 _ _ _ Hrun)
    as [Hlen Hdepths].
  split; [exact Hlen | exact Hdepths].
Defined.

(** [data.user.name.first] is the string behind it, through the proxy as
    on the response itself. *)
Lemma reads_are_transparent_witness :
  let chain := PString <$> ["data"; "user"; "name"; "first"] in
  ownChain sample chain = true ∧
  plainChain sample chain = Some (VString "Janet") ∧
  ∃ h evs,
    readChain sampleContext allDefaults
      (createTrackingProxy sampleContext allDefaults sample "" 0) chain = Some (h, evs) ∧
    valueOf h = VString "Janet".
Proof.
  intros chain.
  assert (Hown : ownChain sample chain = true) by (vm_compute; reflexivity).
  destruct (reads_are_transparent sampleContext allDefaults sample "" 0 chain Hown)
    as (v & Hv & Hread).
  assert (Hplain : plainChain sample chain = Some (VString "Janet"))
    by (vm_compute; reflexivity).
  rewrite Hplain in Hv. injection Hv as <-.
  split; [exact Hown|]. split; [exact Hplain|].
  eexists _, _.
  assert (Hrun : readChain sampleContext allDefaults
                   (createTrackingProxy sampleContext allDefaults sample "" 0) chain
                 = Some (_, _)) by (vm_compute; reflexivity).
  split; [exact Hrun | exact (Hread _ _ Hrun)].
Defined.

Lemma event_paths_are_dotted_prefixes_witness :
  ∃ h evs,
    readChain sampleContext allDefaults
      (createTrackingProxy sampleContext allDefaults sample "" 0)
      (PString <$> sampleChain) = Some (h, evs) ∧
    propertyPath <$> evs
      = ["data"; "data.user"; "data.user.name"; "data.user.name.first"].
Proof.
  eexists _, _.
  assert (Hrun : readChain sampleContext allDefaults
                   (createTrackingProxy sampleContext allDefaults sample "" 0)
                   (PString <$> sampleChain) = Some (_, _)) by (vm_compute; reflexivity).
  split; [exact Hrun|].
  refine (event_paths_are_dotted_prefixes sampleContext allDefaults sample 0
            sampleChain _ _ _ _ Hrun); [reflexivity|].
  repeat constructor; discriminate.
Defined.

Lemma root_path_is_repeated_witness :
  ∃ h evs,
    readChain rootedContext allDefaults
      (createTrackingProxy rootedContext allDefaults sample "" 0)
      (PString <$> ["data"; "user"; "name"]) = Some (h, evs) ∧
    propertyPath <$> evs
      = ["resp.data"; "resp.resp.data.user"; "resp.resp.resp.data.user.name"].
Proof.
  eexists _, _.
  assert (Hrun : readChain rootedContext allDefaults
                   (createTrackingProxy rootedContext allDefaults sample "" 0)
                   (PString <$> ["data"; "user"; "name"]) = Some (_, _))
    by (vm_compute; reflexivity).
  split; [exact Hrun|].
  refine (root_path_is_repeated rootedContext allDefaults "resp" sample 0
            ["data"; "user"; "name"] _ _ _ _ Hrun); [reflexivity | discriminate].
Defined.
End ProxyFacts.

(* ===================================================================== *)
(** * lib/sdk/usageWorker.ts: the keys of the buckets in [flush] *)
(* ===================================================================== *)

Module UsageWorkerKeys.
Import JS JSFacts UsageWorker.

(** [k.split(sep)] for a separator that is not empty: [skip] characters
    of a separator found are still to be passed over, [cur] is the piece
    read so far. *)
Fixpoint splitFrom (sep : string) (skip : nat) (cur : string) (s : string) : list string :=
  match s with
  | EmptyString => [cur]
  | String c t =>
      match skip with
      | S k => splitFrom sep k cur t
      | 0 =>
          if startsWith s sep
          then cur :: splitFrom sep (String.length sep - 1) EmptyString t
          else splitFrom sep 0 (cur +:+ String c EmptyString) t
      end
  end.

Definition split (s sep : string) : list string := splitFrom sep 0 EmptyString s.

(** [const [sid, ep] = k.split('@@')] in [flush]: the first two pieces of
    the key; [ep] is [undefined] when there is one piece only. *)
Definition keyParts (k : string) : string * option string :=
  match split k "@@" with
  | sid :: ep :: _ => (sid, Some ep)
  | [sid] => (sid, None)
  | [] => (EmptyString, None)
  end.

(** The payload [flush] posts, without its timestamps. *)
Definition flushPayload (buckets : Buckets)
    : list (string * option string * list (string * N)) :=
  (λ kb, (keyParts kb.1, map_to_list kb.2)) <$> map_to_list buckets.

Lemma splitFrom_no_sep sep s : ∀ cur,
  includes s sep = false → splitFrom sep 0 cur s = [cur +:+ s].
Proof.
  induction s as [|c t IH]; intros cur Hno.
  - cbn. by rewrite string_app_empty_r.
  - cbn [includes] in Hno. apply orb_false_iff in Hno as [Hstart Hrest].
    cbn [splitFrom]. rewrite Hstart. rewrite (IH _ Hrest).
    by rewrite string_app_assoc.
Qed.

Lemma splitFrom_prefix sid rest : ∀ cur,
  includes sid "@" = false →
  splitFrom "@@" 0 cur (sid +:+ "@@" +:+ rest)
    = (cur +:+ sid) :: splitFrom "@@" 0 EmptyString rest.
Proof.
  induction sid as [|c t IH]; intros cur Hno.
  - rewrite string_app_empty_r.
    change (EmptyString +:+ "@@" +:+ rest) with (String "@" (String "@" rest)).
    cbn [splitFrom startsWith String.length Nat.sub].
    rewrite (bool_decide_eq_true_2 ("@"%char = "@"%char)) by reflexivity.
    destruct rest; reflexivity.
  - cbn [includes startsWith] in Hno.
    apply orb_false_iff in Hno as [Hc Hrest].
    rewrite andb_false_iff in Hc. destruct Hc as [Hc|Hc].
    2:{ by destruct t. }
    apply bool_decide_eq_false_1 in Hc.
    change ((String c t) +:+ "@@" +:+ rest) with (String c (t +:+ "@@" +:+ rest)).
    cbn [splitFrom startsWith].
    rewrite (bool_decide_eq_false_2 ("@"%char = c)) by exact Hc. cbn [andb].
    rewrite (IH _ Hrest). by rewrite string_app_assoc.
Qed.

(** X13.  The key under which a bucket is filed gives back, in [flush], the
    structure id and the endpoint it was made of, provided the structure
    id contains no ["@"] and the endpoint no ["@@"]; two such pairs that
    differ are therefore filed under different buckets, and the counts of
    a message for such a pair are in the payload of [flush] under exactly
    its structure id and its endpoint. *)
Theorem bucketKey_round_trip (sid ep : string) :
  includes sid "@" = false →
  includes ep "@@" = false →
  keyParts (bucketKey sid ep) = (sid, Some ep) ∧
  (∀ sid' ep',
     includes sid' "@" = false → includes ep' "@@" = false →
     bucketKey sid ep = bucketKey sid' ep' → sid = sid' ∧ ep = ep') ∧
  ∀ (bs : Buckets) (msg : TelemetryMsg),
    msg_structureId msg = sid → msg_endpoint msg = ep →
    ((sid, Some ep),
     map_to_list (recordPaths (default ∅ (bs !! bucketKey sid ep)) (msg_paths msg)))
      ∈ flushPayload (handleMsg bs msg).
Proof.
  assert (Hparts : ∀ s e, includes s "@" = false → includes e "@@" = false →
                          keyParts (bucketKey s e) = (s, Some e)).
  { intros s e Hs He. unfold keyParts, split, bucketKey.
    rewrite (splitFrom_prefix s e EmptyString Hs).
    rewrite (splitFrom_no_sep "@@" e EmptyString He). reflexivity. }
  intros Hsid Hep. split; [by apply Hparts|]. split.
  - intros sid' ep' Hsid' Hep' Hkey.
    pose proof (Hparts sid ep Hsid Hep) as H1.
    pose proof (Hparts sid' ep' Hsid' Hep') as H2.
    rewrite Hkey in H1. rewrite H1 in H2. by injection H2 as -> ->.
  - intros bs msg <- <-. unfold flushPayload, handleMsg.
    apply list_elem_of_fmap. eexists (_, _). split.
    + cbn [fst snd]. rewrite (Hparts _ _ Hsid Hep). reflexivity.
    + apply elem_of_map_to_list, lookup_insert_eq.
Qed.

Lemma bucketKey_round_trip_witness :
  keyParts (bucketKey "s1" "https://api.example.com/users@v2")
    = ("s1", Some "https://api.example.com/users@v2").
Proof.
  apply (bucketKey_round_trip "s1" "https://api.example.com/users@v2");
    vm_compute; reflexivity.
Defined.

End UsageWorkerKeys.

(* ===================================================================== *)
(** * lib/analytics/index.ts: the analytics singleton behind [trackAccess] *)
(* ===================================================================== *)

Module Analytics.
Import JS Proxy.

(** [onBatch]: the callback answers [true] when it returns and [false]
    when it throws. *)
Abbreviation Callback := (list PropertyAccessEvent → bool).

(** [AnalyticsInitOptions], the fields [init] reads.  Numbers are taken to
    be integers. *)
Record AnalyticsInitOptions := mkInit {
  opt_enabled : option bool;
  opt_flushIntervalMs : option Z;
  opt_maxBatchSize : option Z;
  opt_onBatch : option Callback
}.

(** [AnalyticsMetrics] *)
Record AnalyticsMetrics := mkMetrics {
  totalRequests : N;
  optimizedRequests : N;
  bandwidthSaved : Z;
  propertyAccesses : gmap string N
}.

(** The variables [createAnalytics] closes over.  [timer] holds the period
    of the interval that is running; [delivered] is the trace of the calls
    of [onBatch]. *)
Record AnalyticsState := mkAnalyticsState {
  enabled : bool;
  metrics : AnalyticsMetrics;
  batch : list PropertyAccessEvent;
  onBatch : option Callback;
  flushIntervalMs : Z;
  maxBatchSize : Z;
  timer : option Z;
  delivered : list (list PropertyAccessEvent)
}.

Definition createAnalytics : AnalyticsState :=
  {| enabled := true;
     metrics := {| totalRequests := 0; optimizedRequests := 0; bandwidthSaved := 0;
                   propertyAccesses := ∅ |};
     batch := []; onBatch := None; flushIntervalMs := 2000; maxBatchSize := 200;
     timer := None; delivered := [] |}.

Definition set_enabled (st : AnalyticsState) (on : bool) : AnalyticsState :=
  {| enabled := on; metrics := metrics st; batch := batch st; onBatch := onBatch st;
     flushIntervalMs := flushIntervalMs st; maxBatchSize := maxBatchSize st;
     timer := timer st; delivered := delivered st |}.

Definition set_metrics (st : AnalyticsState) (m : AnalyticsMetrics) : AnalyticsState :=
  {| enabled := enabled st; metrics := m; batch := batch st; onBatch := onBatch st;
     flushIntervalMs := flushIntervalMs st; maxBatchSize := maxBatchSize st;
     timer := timer st; delivered := delivered st |}.

Definition set_batch (st : AnalyticsState) (b : list PropertyAccessEvent) : AnalyticsState :=
  {| enabled := enabled st; metrics := metrics st; batch := b; onBatch := onBatch st;
     flushIntervalMs := flushIntervalMs st; maxBatchSize := maxBatchSize st;
     timer := timer st; delivered := delivered st |}.

Definition set_onBatch (st : AnalyticsState) (cb : Callback) : AnalyticsState :=
  {| enabled := enabled st; metrics := metrics st; batch := batch st; onBatch := Some cb;
     flushIntervalMs := flushIntervalMs st; maxBatchSize := maxBatchSize st;
     timer := timer st; delivered := delivered st |}.

Definition set_flushIntervalMs (st : AnalyticsState) (ms : Z) : AnalyticsState :=
  {| enabled := enabled st; metrics := metrics st; batch := batch st; onBatch := onBatch st;
     flushIntervalMs := ms; maxBatchSize := maxBatchSize st;
     timer := timer st; delivered := delivered st |}.

Definition set_maxBatchSize (st : AnalyticsState) (n : Z) : AnalyticsState :=
  {| enabled := enabled st; metrics := metrics st; batch := batch st; onBatch := onBatch st;
     flushIntervalMs := flushIntervalMs st; maxBatchSize := n;
     timer := timer st; delivered := delivered st |}.

Definition set_timer (st : AnalyticsState) (t : option Z) : AnalyticsState :=
  {| enabled := enabled st; metrics := metrics st; batch := batch st; onBatch := onBatch st;
     flushIntervalMs := flushIntervalMs st; maxBatchSize := maxBatchSize st;
     timer := t; delivered := delivered st |}.

Definition add_delivered (st : AnalyticsState) (b : list PropertyAccessEvent) : AnalyticsState :=
  {| enabled := enabled st; metrics := metrics st; batch := batch st; onBatch := onBatch st;
     flushIntervalMs := flushIntervalMs st; maxBatchSize := maxBatchSize st;
     timer := timer st; delivered := delivered st ++ [b] |}.

(** [flushNow]; the answer says whether it returned ([true]) or the
    callback threw ([false]). *)
Definition flushNow (st : AnalyticsState) : bool * AnalyticsState :=
  if negb (enabled st) then (true, set_batch st [])
  else if bool_decide (length (batch st) = 0) then (true, st)
  else
    let toSend := batch st in
    let st' := set_batch st [] in
    match onBatch st with
    | Some cb => (cb toSend, add_delivered st' toSend)
    | None => (true, st')
    end.

(** [startTimer], [stopTimer] *)
Definition startTimer (st : AnalyticsState) : AnalyticsState :=
  match timer st with
  | None => set_timer st (Some (flushIntervalMs st))
  | Some _ => st
  end.

Definition stopTimer (st : AnalyticsState) : AnalyticsState :=
  match timer st with
  | Some _ => set_timer st None
  | None => st
  end.

(** [init(opts)]; [None] is a call without options. *)
Definition init (opts : option AnalyticsInitOptions) (st : AnalyticsState) : AnalyticsState :=
  match opts with
  | None => st
  | Some o =>
      let st1 := match opt_enabled o with
                 | Some on => set_enabled st on
                 | None => st
                 end in
      let st2 := match opt_flushIntervalMs o with
                 | Some ms =>
                     if bool_decide (ms > 0)%Z then
                       let s := set_flushIntervalMs st1 ms in
                       match timer s with
                       | Some _ => startTimer (stopTimer s)
                       | None => s
                       end
                     else st1
                 | None => st1
                 end in
      let st3 := match opt_maxBatchSize o with
                 | Some n => if bool_decide (n > 0)%Z then set_maxBatchSize st2 n else st2
                 | None => st2
                 end in
      let st4 := match opt_onBatch o with
                 | Some cb => set_onBatch st3 cb
                 | None => st3
                 end in
      if enabled st4 then startTimer st4 else stopTimer st4
  end.

(** [setEnabled(on)] *)
Definition setEnabled (on : bool) (st : AnalyticsState) : AnalyticsState :=
  let st1 := set_enabled st on in
  if on then startTimer st1 else stopTimer st1.

(** [trackAccess(e)], exported as [trackPropertyAccess]. *)
Definition trackAccess (e : PropertyAccessEvent) (st : AnalyticsState) : bool * AnalyticsState :=
  if negb (enabled st) then (true, st)
  else
    let m := metrics st in
    let current := default 0%N (propertyAccesses m !! propertyPath e) in
    let m' := {| totalRequests := totalRequests m;
                 optimizedRequests := optimizedRequests m;
                 bandwidthSaved := bandwidthSaved m;
                 propertyAccesses :=
                   <[propertyPath e := (current + 1)%N]> (propertyAccesses m) |} in
    let st1 := set_batch (set_metrics st m') (batch st ++ [e]) in
    if bool_decide (Z.of_nat (length (batch st1)) >= maxBatchSize st1)%Z
    then flushNow st1
    else (true, st1).

(** [trackRequest(_url, optimized, originalSize, compressedSize)] *)
Definition trackRequest (optimized : bool) (originalSize compressedSize : option Z)
    (st : AnalyticsState) : AnalyticsState :=
  if negb (enabled st) then st
  else
    let m := metrics st in
    let saved :=
      match originalSize, compressedSize with
      | Some o, Some c =>
          if bool_decide (o >= 0)%Z && bool_decide (c >= 0)%Z
          then Z.max 0 (o - c) else 0%Z
      | _, _ => 0%Z
      end in
    set_metrics st
      {| totalRequests := (totalRequests m + 1)%N;
         optimizedRequests :=
           if optimized then (optimizedRequests m + 1)%N else optimizedRequests m;
         bandwidthSaved :=
           if optimized then (bandwidthSaved m + saved)%Z else bandwidthSaved m;
         propertyAccesses := propertyAccesses m |}.

(** [reset()] *)
Definition reset (st : AnalyticsState) : AnalyticsState :=
  set_batch
    (set_metrics st {| totalRequests := 0; optimizedRequests := 0; bandwidthSaved := 0;
                       propertyAccesses := ∅ |})
    [].

(** What happens to the singleton: the calls of its API, and the interval
    timer calling [flushNow]. *)
Inductive Action :=
| Init (opts : option AnalyticsInitOptions)
| SetEnabled (on : bool)
| TrackPropertyAccess (e : PropertyAccessEvent)
| TrackRequest (optimized : bool) (originalSize compressedSize : option Z)
| Reset
| FlushNow
| TimerFires.

Definition act (st : AnalyticsState) (op : Action) : AnalyticsState :=
  match op with
  | Init opts => init opts st
  | SetEnabled on => setEnabled on st
  | TrackPropertyAccess e => (trackAccess e st).2
  | TrackRequest optimized o c => trackRequest optimized o c st
  | Reset => reset st
  | FlushNow => (flushNow st).2
  | TimerFires => match timer st with
                  | Some _ => (flushNow st).2
                  | None => st
                  end
  end.

(** The singleton after a sequence of operations. *)
Definition after (ops : list Action) : AnalyticsState := foldl act createAnalytics ops.

(** The events handed to [trackPropertyAccess], in order. *)
Definition tracked (ops : list Action) : list PropertyAccessEvent :=
  ops ≫= λ op, match op with TrackPropertyAccess e => [e] | _ => [] end.

(** An operation that neither disables the analytics nor resets them. *)
Definition keepsOn (op : Action) : bool :=
  match op with
  | Reset | SetEnabled false => false
  | Init (Some o) => negb (bool_decide (opt_enabled o = Some false))
  | _ => true
  end.

(** How often the path [p] occurs among events. *)
Definition countPath (p : string) (evs : list PropertyAccessEvent) : N :=
  N.of_nat (length (filter (λ e, propertyPath e = p) evs)).

(** The calls of [trackRequest] among operations, and those of them for
    an optimized request. *)
Definition requests (ops : list Action) : list bool :=
  ops ≫= λ op, match op with TrackRequest optimized _ _ => [optimized] | _ => [] end.

End Analytics.

Module AnalyticsFacts.
Import JS Proxy Analytics.

(** What every reachable state of the singleton satisfies. *)
Definition wellFormed (st : AnalyticsState) : Prop :=
  (0 < maxBatchSize st)%Z ∧ (0 < flushIntervalMs st)%Z ∧
  (timer st = None ∨ (enabled st = true ∧ timer st = Some (flushIntervalMs st))) ∧
  (optimizedRequests (metrics st) ≤ totalRequests (metrics st))%N ∧
  (0 ≤ bandwidthSaved (metrics st))%Z.

Lemma flushNow_frame st :
  enabled (flushNow st).2 = enabled st ∧ metrics (flushNow st).2 = metrics st ∧
  onBatch (flushNow st).2 = onBatch st ∧
  flushIntervalMs (flushNow st).2 = flushIntervalMs st ∧
  maxBatchSize (flushNow st).2 = maxBatchSize st ∧ timer (flushNow st).2 = timer st.
Proof.
  unfold flushNow. destruct (negb (enabled st)); [by repeat split|].
  case_bool_decide; [by repeat split|]. destruct (onBatch st) eqn:E; cbn; rewrite ?E; by repeat split.
Qed.

Lemma timer_frame st :
  (enabled (startTimer st) = enabled st ∧ onBatch (startTimer st) = onBatch st ∧
   delivered (startTimer st) = delivered st ∧ batch (startTimer st) = batch st ∧
   metrics (startTimer st) = metrics st) ∧
  (enabled (stopTimer st) = enabled st ∧ onBatch (stopTimer st) = onBatch st ∧
   delivered (stopTimer st) = delivered st ∧ batch (stopTimer st) = batch st ∧
   metrics (stopTimer st) = metrics st).
Proof. unfold startTimer, stopTimer. by destruct (timer st). Qed.

Lemma init_frame o st :
  enabled (init (Some o) st) = default (enabled st) (opt_enabled o) ∧
  onBatch (init (Some o) st)
    = match opt_onBatch o with Some cb => Some cb | None => onBatch st end ∧
  delivered (init (Some o) st) = delivered st ∧
  batch (init (Some o) st) = batch st ∧
  metrics (init (Some o) st) = metrics st.
Proof.
  unfold init.
  set (st1 := match opt_enabled o with Some on => set_enabled st on | None => st end).
  assert (H1 : enabled st1 = default (enabled st) (opt_enabled o) ∧
               onBatch st1 = onBatch st ∧ delivered st1 = delivered st ∧
               batch st1 = batch st ∧ metrics st1 = metrics st).
  { subst st1. by destruct (opt_enabled o). }
  clearbody st1. destruct H1 as (<- & <- & <- & <- & <-).
  set (st2 := match opt_flushIntervalMs o with Some _ => _ | None => _ end).
  assert (H2 : enabled st2 = enabled st1 ∧ onBatch st2 = onBatch st1 ∧
               delivered st2 = delivered st1 ∧ batch st2 = batch st1 ∧
               metrics st2 = metrics st1).
  { subst st2. destruct (opt_flushIntervalMs o) as [ms|]; [|done].
    case_bool_decide; [|done]. cbn [timer set_flushIntervalMs].
    destruct (timer st1) eqn:Ht; [|done].
    unfold stopTimer, startTimer. cbn [timer set_flushIntervalMs]. rewrite Ht. done. }
  clearbody st2. destruct H2 as (<- & <- & <- & <- & <-).
  set (st3 := match opt_maxBatchSize o with Some _ => _ | None => _ end).
  assert (H3 : enabled st3 = enabled st2 ∧ onBatch st3 = onBatch st2 ∧
               delivered st3 = delivered st2 ∧ batch st3 = batch st2 ∧
               metrics st3 = metrics st2).
  { subst st3. destruct (opt_maxBatchSize o) as [n|]; [|done]. by case_bool_decide. }
  clearbody st3. destruct H3 as (<- & <- & <- & <- & <-).
  set (st4 := match opt_onBatch o with Some _ => _ | None => _ end).
  assert (H4 : enabled st4 = enabled st3 ∧
               onBatch st4 = match opt_onBatch o with
                             | Some cb => Some cb | None => onBatch st3 end ∧
               delivered st4 = delivered st3 ∧ batch st4 = batch st3 ∧
               metrics st4 = metrics st3).
  { subst st4. by destruct (opt_onBatch o). }
  clearbody st4. destruct H4 as (<- & <- & <- & <- & <-).
  destruct (timer_frame st4) as [Hstart Hstop].
  assert (Hsame : ∀ b : bool,
            let s := if b then startTimer st4 else stopTimer st4 in
            enabled s = enabled st4 ∧ onBatch s = onBatch st4 ∧
            delivered s = delivered st4 ∧ batch s = batch st4 ∧
            metrics s = metrics st4) by (intros []; assumption).
  apply Hsame.
Qed.

Lemma flushNow_wellFormed st : wellFormed st → wellFormed (flushNow st).2.
Proof.
  unfold wellFormed.
  destruct (flushNow_frame st) as (-> & -> & _ & -> & -> & ->). done.
Qed.

Lemma startTimer_wellFormed st :
  (0 < maxBatchSize st)%Z → (0 < flushIntervalMs st)%Z →
  (timer st = None ∨ timer st = Some (flushIntervalMs st)) →
  (optimizedRequests (metrics st) ≤ totalRequests (metrics st))%N →
  (0 ≤ bandwidthSaved (metrics st))%Z →
  enabled st = true →
  wellFormed (startTimer st).
Proof.
  intros Hmax Hint Htimer Hopt Hbw Hen. unfold startTimer, wellFormed.
  destruct (timer st) eqn:Ht.
  - rewrite Ht. split_and!; try done. right. split; [exact Hen|].
    destruct Htimer as [?|?]; [done | congruence].
  - cbn. split_and!; try done. by right.
Qed.

Lemma stopTimer_wellFormed st :
  (0 < maxBatchSize st)%Z → (0 < flushIntervalMs st)%Z →
  (optimizedRequests (metrics st) ≤ totalRequests (metrics st))%N →
  (0 ≤ bandwidthSaved (metrics st))%Z →
  wellFormed (stopTimer st).
Proof.
  intros Hmax Hint Hopt Hbw. unfold stopTimer, wellFormed.
  destruct (timer st) eqn:Ht.
  - cbn. split_and!; try done. by left.
  - rewrite Ht. split_and!; try done. by left.
Qed.

(** What [init] keeps up to its last line, where the timer is set to
    agree with [enabled]. *)
Definition settings (st : AnalyticsState) : Prop :=
  (0 < maxBatchSize st)%Z ∧ (0 < flushIntervalMs st)%Z ∧
  (timer st = None ∨ timer st = Some (flushIntervalMs st)) ∧
  (optimizedRequests (metrics st) ≤ totalRequests (metrics st))%N ∧
  (0 ≤ bandwidthSaved (metrics st))%Z.

Lemma wellFormed_settings st : wellFormed st → settings st.
Proof.
  intros (Hmax & Hint & Htimer & Hopt & Hbw). unfold settings. split_and!; try done.
  destruct Htimer as [?|[_ ?]]; auto.
Qed.

Lemma settings_wellFormed st :
  settings st → wellFormed (if enabled st then startTimer st else stopTimer st).
Proof.
  intros (Hmax & Hint & Htimer & Hopt & Hbw). destruct (enabled st) eqn:Hen.
  - by apply startTimer_wellFormed.
  - by apply stopTimer_wellFormed.
Qed.

Lemma init_wellFormed opts st : wellFormed st → wellFormed (init opts st).
Proof.
  intros Hst. destruct opts as [o|]; [|exact Hst]. unfold init.
  apply wellFormed_settings in Hst.
  set (st1 := match opt_enabled o with Some on => set_enabled st on | None => st end).
  assert (H1 : settings st1) by (subst st1; by destruct (opt_enabled o)).
  clearbody st1. clear Hst.
  set (st2 := match opt_flushIntervalMs o with Some _ => _ | None => _ end).
  assert (H2 : settings st2).
  { subst st2. destruct (opt_flushIntervalMs o) as [ms|]; [|exact H1].
    case_bool_decide as Hms; [|exact H1].
    destruct H1 as (Hmax & Hint & Htimer & Hopt & Hbw).
    cbn [timer set_flushIntervalMs]. destruct (timer st1) eqn:Ht.
    - unfold stopTimer, startTimer. cbn [timer set_flushIntervalMs]. rewrite Ht.
      unfold settings. cbn. split_and!; try done; [lia | by right].
    - unfold settings. cbn. rewrite Ht. split_and!; try done; [lia | by left]. }
  clearbody st2. clear H1.
  set (st3 := match opt_maxBatchSize o with Some _ => _ | None => _ end).
  assert (H3 : settings st3).
  { subst st3. destruct (opt_maxBatchSize o) as [n|]; [|exact H2].
    case_bool_decide as Hn; [|exact H2].
    destruct H2 as (Hmax & Hint & Htimer & Hopt & Hbw).
    unfold settings. cbn. split_and!; try done. lia. }
  clearbody st3. clear H2.
  set (st4 := match opt_onBatch o with Some _ => _ | None => _ end).
  assert (H4 : settings st4) by (subst st4; by destruct (opt_onBatch o)).
  clearbody st4. by apply settings_wellFormed.
Qed.

Lemma setEnabled_wellFormed on st : wellFormed st → wellFormed (setEnabled on st).
Proof.
  intros Hst. apply wellFormed_settings in Hst.
  destruct Hst as (Hmax & Hint & Htimer & Hopt & Hbw). unfold setEnabled. destruct on.
  - by apply startTimer_wellFormed.
  - by apply stopTimer_wellFormed.
Qed.

Lemma trackAccess_wellFormed e st : wellFormed st → wellFormed (trackAccess e st).2.
Proof.
  intros Hst. unfold trackAccess. destruct (negb (enabled st)); [exact Hst|].
  case_bool_decide; [apply flushNow_wellFormed|]; exact Hst.
Qed.

Lemma trackRequest_wellFormed optimized o c st :
  wellFormed st → wellFormed (trackRequest optimized o c st).
Proof.
  intros Hst. unfold trackRequest. destruct (negb (enabled st)); [exact Hst|].
  destruct Hst as (Hmax & Hint & Htimer & Hopt & Hbw).
  unfold wellFormed. cbn. split_and!; try done.
  - destruct optimized; lia.
  - destruct optimized; [|exact Hbw].
    destruct o as [o|], c as [c|]; try lia.
    destruct (bool_decide _ && bool_decide _); lia.
Qed.

Lemma act_wellFormed st op : wellFormed st → wellFormed (act st op).
Proof.
  intros Hst. destruct op; cbn [act].
  - by apply init_wellFormed.
  - by apply setEnabled_wellFormed.
  - by apply trackAccess_wellFormed.
  - by apply trackRequest_wellFormed.
  - destruct Hst as (Hmax & Hint & Htimer & _).
    unfold wellFormed. cbn. split_and!; done.
  - by apply flushNow_wellFormed.
  - destruct (timer st) eqn:Ht; [by apply flushNow_wellFormed | exact Hst].
Qed.

Lemma after_wellFormed ops : wellFormed (after ops).
Proof.
  unfold after.
  assert (H0 : wellFormed createAnalytics).
  { unfold wellFormed. cbn. split_and!; try lia. by left. }
  revert H0. generalize createAnalytics as st.
  induction ops as [|op ops IH]; intros st Hst; [exact Hst|].
  cbn [foldl]. apply IH, act_wellFormed, Hst.
Qed.

(** No path is held with the count 0. *)
Definition positiveCounts (st : AnalyticsState) : Prop :=
  map_Forall (λ _ n, (0 < n)%N) (propertyAccesses (metrics st)).

Lemma act_positiveCounts st op : positiveCounts st → positiveCounts (act st op).
Proof.
  unfold positiveCounts. intros Hst.
  assert (Hflush : ∀ s, map_Forall (λ _ n, (0 < n)%N) (propertyAccesses (metrics s)) →
            map_Forall (λ _ n, (0 < n)%N) (propertyAccesses (metrics (flushNow s).2))).
  { intros s Hs. by destruct (flushNow_frame s) as (_ & -> & _). }
  destruct op as [opts|on|e|optimized o c| | |]; cbn [act].
  - destruct opts as [o|]; [|exact Hst].
    by destruct (init_frame o st) as (_ & _ & _ & _ & ->).
  - unfold setEnabled.
    destruct (timer_frame (set_enabled st on)) as [(_ & _ & _ & _ & Hs) (_ & _ & _ & _ & Hp)].
    destruct on; [by rewrite Hs | by rewrite Hp].
  - unfold trackAccess. destruct (negb (enabled st)); [exact Hst|].
    match goal with |- context [flushNow ?s] => set (st1 := s) end.
    assert (H1 : map_Forall (λ _ n, (0 < n)%N) (propertyAccesses (metrics st1))).
    { subst st1. cbn. apply map_Forall_insert_2; [lia | exact Hst]. }
    clearbody st1. case_bool_decide; [by apply Hflush | exact H1].
  - unfold trackRequest. destruct (negb (enabled st)); [exact Hst|]. exact Hst.
  - cbn. apply map_Forall_empty.
  - by apply Hflush.
  - destruct (timer st); [by apply Hflush | exact Hst].
Qed.

Lemma after_positive_counts ops p :
  match propertyAccesses (metrics (after ops)) !! p with
  | Some n => (0 < n)%N
  | None => True
  end.
Proof.
  assert (H : positiveCounts (after ops)).
  { unfold after.
    assert (H0 : positiveCounts createAnalytics) by apply map_Forall_empty.
    revert H0. generalize createAnalytics as st.
    induction ops as [|op ops IH]; intros st Hst; [exact Hst|].
    cbn [foldl]. apply IH, act_positiveCounts, Hst. }
  destruct (_ !! p) as [n|] eqn:Hn; [|done]. exact (H p n Hn).
Qed.

(** X18.  However the singleton is used, the batch limit and the flush
    interval stay positive, the interval timer runs only while the
    analytics are enabled and then with the current flush interval, there
    are no more optimized requests than requests, and the bandwidth saved
    is not negative. *)
Theorem analytics_session_invariants (ops : list Action) :
  let st := after ops in
  (0 < maxBatchSize st)%Z ∧ (0 < flushIntervalMs st)%Z ∧
  (∀ ms, timer st = Some ms → enabled st = true ∧ ms = flushIntervalMs st) ∧
  (enabled st = false → timer st = None) ∧
  (optimizedRequests (metrics st) ≤ totalRequests (metrics st))%N ∧
  (0 ≤ bandwidthSaved (metrics st))%Z.
Proof.
  intros st. destruct (after_wellFormed ops) as (Hmax & Hint & Htimer & Hopt & Hbw).
  fold st in Hmax, Hint, Htimer, Hopt, Hbw.
  split; [exact Hmax|]. split; [exact Hint|]. split.
  { intros ms Hms. destruct Htimer as [Hn | [Hen Ht]]; [congruence|].
    split; [exact Hen | congruence]. }
  split; [|by split].
  intros Hoff. destruct Htimer as [Hn | [Hen _]]; [exact Hn | congruence].
Qed.

(** X19.  Right after an event has been tracked by enabled analytics the
    batch is shorter than the batch limit, whatever was done to the
    singleton before, also when the callback of the flush threw. *)
Theorem batch_below_limit_after_tracking (ops : list Action) (e : PropertyAccessEvent) :
  let st := after (ops ++ [TrackPropertyAccess e]) in
  enabled st = true →
  (Z.of_nat (length (batch st)) < maxBatchSize st)%Z.
Proof.
  intros st. subst st. unfold after. rewrite foldl_app. cbn [foldl act].
  fold (after ops). pose proof (after_wellFormed ops) as (Hmax & _).
  generalize dependent (after ops). intros st Hmax.
  unfold trackAccess. destruct (enabled st) eqn:Hen; cbn [negb snd]; [|congruence].
  intros _. case_bool_decide as Hfull; [|cbn in *; lia].
  unfold flushNow. cbn [enabled set_batch set_metrics negb batch].
  rewrite Hen. cbn [negb].
  case_bool_decide as Hempty; [rewrite length_app in Hempty; cbn in Hempty; lia|].
  destruct (onBatch _); cbn; lia.
Qed.

Lemma flushNow_conserves st :
  enabled st = true → is_Some (onBatch st) →
  concat (delivered (flushNow st).2) ++ batch (flushNow st).2
    = concat (delivered st) ++ batch st.
Proof.
  intros Hen [cb Hcb]. unfold flushNow. rewrite Hen, Hcb. cbn [negb].
  case_bool_decide as Hempty; [reflexivity|].
  cbn. rewrite concat_app. cbn. by rewrite !app_nil_r.
Qed.

Lemma act_conserves st op :
  enabled st = true → is_Some (onBatch st) → keepsOn op = true →
  let st' := act st op in
  enabled st' = true ∧ is_Some (onBatch st') ∧
  concat (delivered st') ++ batch st'
    = concat (delivered st) ++ batch st ++ tracked [op].
Proof.
  intros Hen Hcb Hop st'. subst st'.
  assert (Hflush : ∀ s, enabled s = true → is_Some (onBatch s) →
            enabled (flushNow s).2 = true ∧ is_Some (onBatch (flushNow s).2) ∧
            concat (delivered (flushNow s).2) ++ batch (flushNow s).2
              = concat (delivered s) ++ batch s).
  { intros s Hs Hc. destruct (flushNow_frame s) as (-> & _ & -> & _).
    split; [exact Hs|]. split; [exact Hc|]. by apply flushNow_conserves. }
  destruct op as [opts|on|e|optimized o c| | |]; cbn [act].
  - change (tracked [Init opts]) with (@nil PropertyAccessEvent). rewrite app_nil_r.
    destruct opts as [o|]; [|by split_and!]. cbn in Hop.
    destruct (init_frame o st) as (-> & -> & -> & -> & _).
    split_and!; [| |reflexivity].
    + by destruct (opt_enabled o) as [[]|].
    + destruct (opt_onBatch o); [eauto | exact Hcb].
  - change (tracked [SetEnabled on]) with (@nil PropertyAccessEvent). rewrite app_nil_r.
    destruct on; [|discriminate]. unfold setEnabled.
    destruct (timer_frame (set_enabled st true)) as [(-> & -> & -> & -> & _) _].
    by split_and!.
  - change (tracked [TrackPropertyAccess e]) with [e].
    unfold trackAccess. rewrite Hen. cbn [negb].
    match goal with |- context [flushNow ?s] => set (st1 := s) end.
    assert (H1 : enabled st1 = true ∧ is_Some (onBatch st1) ∧
                 concat (delivered st1) ++ batch st1
                   = concat (delivered st) ++ batch st ++ [e]) by by split_and!.
    clearbody st1. destruct H1 as (Hen1 & Hcb1 & <-).
    case_bool_decide; [by apply Hflush | by split_and!].
  - change (tracked [TrackRequest optimized o c]) with (@nil PropertyAccessEvent).
    rewrite app_nil_r. unfold trackRequest. rewrite Hen. by split_and!.
  - discriminate.
  - change (tracked [FlushNow]) with (@nil PropertyAccessEvent). rewrite app_nil_r.
    by apply Hflush.
  - change (tracked [TimerFires]) with (@nil PropertyAccessEvent). rewrite app_nil_r.
    destruct (timer st); [by apply Hflush | by split_and!].
Qed.

Lemma tracked_cons op ops : tracked (op :: ops) = tracked [op] ++ tracked ops.
Proof. unfold tracked. cbn. by rewrite app_nil_r. Qed.

Lemma run_conserves ops : ∀ st,
  enabled st = true → is_Some (onBatch st) → Forall (λ op, keepsOn op = true) ops →
  concat (delivered (foldl act st ops)) ++ batch (foldl act st ops)
    = concat (delivered st) ++ batch st ++ tracked ops.
Proof.
  induction ops as [|op ops IH]; intros st Hen Hcb Hops.
  - cbn. by rewrite app_nil_r.
  - apply Forall_cons in Hops as [Hop Hops]. cbn [foldl].
    destruct (act_conserves st op Hen Hcb Hop) as (Hen' & Hcb' & Heq).
    rewrite (IH _ Hen' Hcb' Hops), tracked_cons, !app_assoc.
    f_equal. rewrite <- app_assoc. exact Heq.
Qed.

(** X20.  No event is lost and none is delivered twice: when the singleton
    is first given a callback and is then used in any way that neither
    disables nor resets it, the batches the callback has been called with,
    one after the other, followed by the batch still held, are exactly
    the events tracked, in the order they were tracked; this holds also
    when the callback throws. *)
Theorem no_event_lost_or_repeated (o : AnalyticsInitOptions) (ops : list Action) :
  is_Some (opt_onBatch o) → opt_enabled o ≠ Some false →
  Forall (λ op, keepsOn op = true) ops →
  let st := after (Init (Some o) :: ops) in
  concat (delivered st) ++ batch st = tracked ops.
Proof.
  intros Hcb Hon Hops st. subst st. unfold after. cbn [foldl act].
  destruct (init_frame o createAnalytics) as (Hen & Hcb' & Hd & Hb & _).
  rewrite run_conserves; [by rewrite Hd, Hb | | | exact Hops].
  - rewrite Hen. by destruct (opt_enabled o) as [[]|].
  - rewrite Hcb'. destruct Hcb as [cb ->]. eauto.
Qed.

Lemma countPath_app p evs1 evs2 :
  countPath p (evs1 ++ evs2) = (countPath p evs1 + countPath p evs2)%N.
Proof. unfold countPath. rewrite filter_app, length_app. lia. Qed.

Lemma requests_cons op ops : requests (op :: ops) = requests [op] ++ requests ops.
Proof. unfold requests. cbn. by rewrite app_nil_r. Qed.

(** The figures of the metrics that count calls: requests, optimized
    requests, and the accesses of the path [p]. *)
Definition figures (p : string) (st : AnalyticsState) : N * N * N :=
  (totalRequests (metrics st), optimizedRequests (metrics st),
   default 0%N (propertyAccesses (metrics st) !! p)).

Definition figuresOf (p : string) (ops : list Action) : N * N * N :=
  (N.of_nat (length (requests ops)),
   N.of_nat (length (filter (λ b, b = true) (requests ops))),
   countPath p (tracked ops)).

Definition addFigures (a b : N * N * N) : N * N * N :=
  (a.1.1 + b.1.1, a.1.2 + b.1.2, a.2 + b.2)%N.

Lemma flushNow_figures p st : figures p (flushNow st).2 = figures p st.
Proof. unfold figures. by destruct (flushNow_frame st) as (_ & -> & _). Qed.

Lemma act_figures p st op :
  enabled st = true → keepsOn op = true →
  enabled (act st op) = true ∧
  figures p (act st op) = addFigures (figures p st) (figuresOf p [op]).
Proof.
  intros Hen Hop.
  assert (Hzero : ∀ s, figures p s = figures p st →
            figures p s = addFigures (figures p st) (0, 0, 0)%N).
  { intros s ->. unfold addFigures, figures. cbn [fst snd]. by rewrite !N.add_0_r. }
  destruct op as [opts|on|e|optimized o c| | |]; cbn [act].
  - destruct opts as [o|]; [|split; [exact Hen | by apply Hzero]]. cbn in Hop.
    unfold figures at 1. destruct (init_frame o st) as (-> & _ & _ & _ & ->).
    split; [by destruct (opt_enabled o) as [[]|] | by apply Hzero].
  - destruct on; [|discriminate]. unfold setEnabled, figures at 1.
    destruct (timer_frame (set_enabled st true)) as [(-> & _ & _ & _ & ->) _].
    split; [reflexivity | by apply Hzero].
  - unfold trackAccess. rewrite Hen. cbn [negb].
    match goal with |- context [flushNow ?s] => set (st1 := s) end.
    assert (H1 : enabled st1 = true ∧
                 figures p st1 = addFigures (figures p st) (figuresOf p [TrackPropertyAccess e])).
    { split; [exact Hen|]. unfold figures, addFigures, figuresOf, countPath. subst st1.
      cbn [metrics set_batch set_metrics totalRequests optimizedRequests propertyAccesses
           requests tracked mbind list_bind app length fst snd N.of_nat filter list_filter].
      rewrite !N.add_0_r. f_equal.
      destruct (decide (propertyPath e = p)) as [->|Hne].
      - rewrite lookup_insert_eq. cbn [default length]. unfold id. lia.
      - rewrite lookup_insert_ne by done. cbn [length]. lia. }
    clearbody st1. destruct H1 as [Hen1 <-].
    case_bool_decide; [|by split].
    split; [by destruct (flushNow_frame st1) as (-> & _) | apply flushNow_figures].
  - unfold trackRequest. rewrite Hen. cbn [negb]. split; [exact Hen|].
    unfold figures, addFigures, figuresOf, countPath.
    cbn [metrics set_metrics totalRequests optimizedRequests propertyAccesses
         requests tracked mbind list_bind app length fst snd filter list_filter].
    rewrite N.add_0_r. destruct optimized.
    + rewrite decide_True by done. reflexivity.
    + rewrite decide_False by done. cbn [length N.of_nat]. by rewrite N.add_0_r.
  - discriminate.
  - split; [by destruct (flushNow_frame st) as (-> & _)|].
    rewrite flushNow_figures. by apply Hzero.
  - destruct (timer st); [|split; [exact Hen | by apply Hzero]].
    split; [by destruct (flushNow_frame st) as (-> & _)|].
    rewrite flushNow_figures. by apply Hzero.
Qed.

Lemma run_figures p ops : ∀ st,
  enabled st = true → Forall (λ op, keepsOn op = true) ops →
  figures p (foldl act st ops) = addFigures (figures p st) (figuresOf p ops).
Proof.
  induction ops as [|op ops IH]; intros st Hen Hops.
  - unfold addFigures, figuresOf, figures, countPath. cbn. by rewrite !N.add_0_r.
  - apply Forall_cons in Hops as [Hop Hops]. cbn [foldl].
    destruct (act_figures p st op Hen Hop) as [Hen' Heq].
    rewrite (IH _ Hen' Hops), Heq.
    unfold addFigures, figuresOf. cbn [fst snd].
    rewrite (requests_cons op ops), (tracked_cons op ops).
    rewrite countPath_app, filter_app, !length_app.
    f_equal; [f_equal|]; lia.
Qed.

(** X21.  While the analytics are neither disabled nor reset the metrics
    count what was tracked: [totalRequests] is the number of calls of
    [trackRequest], [optimizedRequests] the number of those for an
    optimized request, and the count of a path in [propertyAccesses] is the
    number of events tracked with that path (no entry when there was
    none), flushes and changes of the settings in between notwithstanding. *)
Theorem metrics_count_what_was_tracked (ops : list Action) (p : string) :
  Forall (λ op, keepsOn op = true) ops →
  let m := metrics (after ops) in
  totalRequests m = N.of_nat (length (requests ops)) ∧
  optimizedRequests m = N.of_nat (length (filter (λ b, b = true) (requests ops))) ∧
  default 0%N (propertyAccesses m !! p) = countPath p (tracked ops) ∧
  (propertyAccesses m !! p = None ↔ countPath p (tracked ops) = 0%N).
Proof.
  intros Hops m. subst m.
  pose proof (run_figures p ops createAnalytics eq_refl Hops) as Hfig.
  fold (after ops) in Hfig. unfold figures, addFigures, figuresOf in Hfig.
  cbn [fst snd createAnalytics metrics totalRequests optimizedRequests propertyAccesses]
    in Hfig.
  rewrite lookup_empty in Hfig. cbn [default] in Hfig. rewrite !N.add_0_l in Hfig.
  injection Hfig as Htotal Hopt Hcount.
  split; [exact Htotal|]. split; [exact Hopt|]. split; [exact Hcount|].
  split.
  - intros Hnone. rewrite Hnone in Hcount. cbn in Hcount. by rewrite <- Hcount.
  - intros Hzero. rewrite Hzero in Hcount.
    destruct (propertyAccesses (metrics (after ops)) !! p) as [n|] eqn:Hn; [|done].
    exfalso. cbn in Hcount. subst n.
    pose proof (after_positive_counts ops p) as Hpos. rewrite Hn in Hpos.
    cbn in Hpos. lia.
Qed.

(** ** A session *)

Definition access (path : string) : PropertyAccessEvent :=
  {| ev_url := "https://api.example.com/users/2"; ev_structureId := "sid:data,when";
     propertyPath := path; depth := 0; dataType := "object"; ev_wasOptimized := false;
     ev_originalSize := None; ev_compressedSize := None |}.

(** Batches of two, handed to a callback that throws. *)
Definition twoAtATime : AnalyticsInitOptions :=
  {| opt_enabled := None; opt_flushIntervalMs := None; opt_maxBatchSize := Some 2%Z;
     opt_onBatch := Some (λ _, false) |}.

Definition sampleOps : list Action :=
  [TrackPropertyAccess (access "data"); TrackRequest true (Some 100%Z) (Some 40%Z);
   TrackPropertyAccess (access "data.user"); TimerFires;
   Init (Some {| opt_enabled := Some true; opt_flushIntervalMs := Some 500%Z;
                 opt_maxBatchSize := Some 0%Z; opt_onBatch := None |});
   TrackRequest false None None; TrackPropertyAccess (access "data")].

Lemma batch_below_limit_after_tracking_witness :
  let st := after ([Init (Some twoAtATime); TrackPropertyAccess (access "data")]
                       ++ [TrackPropertyAccess (access "data.user")]) in
  enabled st = true ∧ batch st = [] ∧ maxBatchSize st = 2%Z ∧
  (Z.of_nat (length (batch st)) < maxBatchSize st)%Z.
Proof.
  intros st. split; [reflexivity|]. split; [reflexivity|]. split; [reflexivity|].
  apply (batch_below_limit_after_tracking
           [Init (Some twoAtATime); TrackPropertyAccess (access "data")]
           (access "data.user")).
  reflexivity.
Defined.

Lemma no_event_lost_or_repeated_witness :
  let st := after (Init (Some twoAtATime) :: sampleOps) in
  delivered st = [[access "data"; access "data.user"]] ∧ batch st = [access "data"] ∧
  concat (delivered st) ++ batch st = tracked sampleOps.
Proof.
  intros st. split; [reflexivity|]. split; [reflexivity|].
  apply (no_event_lost_or_repeated twoAtATime sampleOps).
  - cbn. eauto.
  - discriminate.
  - repeat constructor.
Defined.

Lemma metrics_count_what_was_tracked_witness :
  let m := metrics (after (Init (Some twoAtATime) :: sampleOps)) in
  totalRequests m = 2%N ∧ optimizedRequests m = 1%N ∧
  default 0%N (propertyAccesses m !! "data") = 2%N.
Proof.
  intros m.
  destruct (metrics_count_what_was_tracked (Init (Some twoAtATime) :: sampleOps) "data")
    as (Htotal & Hopt & Hcount & _).
  - repeat constructor.
  - subst m. rewrite Htotal, Hopt, Hcount. by repeat split.
Defined.

End AnalyticsFacts.

(* ===================================================================== *)
(** * lib/analytics/worker.ts: the analytics web worker *)
(* ===================================================================== *)

Module AnalyticsWorker.
Import JS.

(** [AnalyticsEvent = RequestEvent | PropertyAccessEvent], told apart by
    [kind], with the fields [record] reads and the URL. *)
Inductive AnalyticsEvent :=
| RequestEv (url : string) (wasOptimized : bool) (originalSize compressedSize : option Z)
| PropertyAccessEv (url : string) (propertyPath : string).

Inductive TransportMode := noop | viaFetch.

(** [AnalyticsInitOptions], the fields the worker reads. *)
Record AnalyticsInitOptions := mkInitOptions {
  opt_enabled : option bool;
  opt_endpoint : option string;
  opt_batchIntervalMs : option Z;
  opt_maxBatchSize : option Z;
  opt_transport : option TransportMode
}.

(** [MetricsSnapshot] *)
Record MetricsSnapshot := mkSnapshot {
  totalRequests : N;
  optimizedRequests : N;
  bandwidthSaved : Z;
  propertyAccesses : gmap string N
}.

(** The timeout behind [timer]: still to fire, or fired.  The variable
    keeps the id of a timeout that has fired until [clearTimer] runs. *)
Inductive Timeout := Pending | Fired.

(** The module's variables, and what the worker has done: [flushed] holds
    every batch taken out of the buffer by [flush], with the endpoint it
    was POSTed to or [None] when no request was made for it; [inflight]
    counts the calls of [flush] that wait for their POST to settle;
    [snapshots] are the copies of the metrics posted back. *)
Record WorkerState := mkWorkerState {
  enabled : bool;
  endpoint : string;
  batchIntervalMs : Z;
  maxBatchSize : Z;
  transport : TransportMode;
  buffer : list AnalyticsEvent;
  timer : option Timeout;
  metrics : MetricsSnapshot;
  flushed : list (option string * list AnalyticsEvent);
  inflight : nat;
  snapshots : list MetricsSnapshot
}.

Definition initial : WorkerState :=
  {| enabled := true; endpoint := ""; batchIntervalMs := 2000; maxBatchSize := 500;
     transport := noop; buffer := []; timer := None;
     metrics := {| totalRequests := 0; optimizedRequests := 0; bandwidthSaved := 0;
                   propertyAccesses := ∅ |};
     flushed := []; inflight := 0; snapshots := [] |}.

Definition with_timer (st : WorkerState) (t : option Timeout) : WorkerState :=
  {| enabled := enabled st; endpoint := endpoint st; batchIntervalMs := batchIntervalMs st;
     maxBatchSize := maxBatchSize st; transport := transport st; buffer := buffer st;
     timer := t; metrics := metrics st; flushed := flushed st; inflight := inflight st;
     snapshots := snapshots st |}.

Definition with_buffer (st : WorkerState) (b : list AnalyticsEvent) : WorkerState :=
  {| enabled := enabled st; endpoint := endpoint st; batchIntervalMs := batchIntervalMs st;
     maxBatchSize := maxBatchSize st; transport := transport st; buffer := b;
     timer := timer st; metrics := metrics st; flushed := flushed st;
     inflight := inflight st; snapshots := snapshots st |}.

Definition with_metrics (st : WorkerState) (m : MetricsSnapshot) : WorkerState :=
  {| enabled := enabled st; endpoint := endpoint st; batchIntervalMs := batchIntervalMs st;
     maxBatchSize := maxBatchSize st; transport := transport st; buffer := buffer st;
     timer := timer st; metrics := m; flushed := flushed st; inflight := inflight st;
     snapshots := snapshots st |}.

(** [schedule()] *)
Definition schedule (st : WorkerState) : WorkerState :=
  match timer st with
  | Some _ => st
  | None => with_timer st (Some Pending)
  end.

(** [clearTimer()] *)
Definition clearTimer (st : WorkerState) : WorkerState :=
  match timer st with
  | Some _ => with_timer st None
  | None => st
  end.

(** [flush()] up to its [await]: with a POST to make the call stops there,
    and its [finally] runs when the POST has settled; without one it runs
    to its end. *)
Definition flush (st : WorkerState) : WorkerState :=
  if negb (enabled st) || bool_decide (length (buffer st) = 0) then clearTimer st
  else
    let toSend := buffer st in
    let st1 := with_buffer st [] in
    match transport st with
    | viaFetch =>
        if truthy (Some (endpoint st)) then
          {| enabled := enabled st1; endpoint := endpoint st1;
             batchIntervalMs := batchIntervalMs st1; maxBatchSize := maxBatchSize st1;
             transport := transport st1; buffer := buffer st1; timer := timer st1;
             metrics := metrics st1;
             flushed := flushed st1 ++ [(Some (endpoint st), toSend)];
             inflight := S (inflight st1); snapshots := snapshots st1 |}
        else
          clearTimer
            {| enabled := enabled st1; endpoint := endpoint st1;
               batchIntervalMs := batchIntervalMs st1; maxBatchSize := maxBatchSize st1;
               transport := transport st1; buffer := buffer st1; timer := timer st1;
               metrics := metrics st1; flushed := flushed st1 ++ [(None, toSend)];
               inflight := inflight st1; snapshots := snapshots st1 |}
    | noop =>
        clearTimer
          {| enabled := enabled st1; endpoint := endpoint st1;
             batchIntervalMs := batchIntervalMs st1; maxBatchSize := maxBatchSize st1;
             transport := transport st1; buffer := buffer st1; timer := timer st1;
             metrics := metrics st1; flushed := flushed st1 ++ [(None, toSend)];
             inflight := inflight st1; snapshots := snapshots st1 |}
    end.

(** The rest of a call of [flush] that awaited its POST: the [finally]
    clause, whether the POST was answered or failed. *)
Definition settle (st : WorkerState) : WorkerState :=
  match inflight st with
  | 0 => st
  | S n =>
      clearTimer
        {| enabled := enabled st; endpoint := endpoint st;
           batchIntervalMs := batchIntervalMs st; maxBatchSize := maxBatchSize st;
           transport := transport st; buffer := buffer st; timer := timer st;
           metrics := metrics st; flushed := flushed st; inflight := n;
           snapshots := snapshots st |}
  end.

(** The aggregation at the head of [record]. *)
Definition aggregate (m : MetricsSnapshot) (e : AnalyticsEvent) : MetricsSnapshot :=
  match e with
  | RequestEv _ wasOptimized originalSize compressedSize =>
      {| totalRequests := (totalRequests m + 1)%N;
         optimizedRequests :=
           if wasOptimized then (optimizedRequests m + 1)%N else optimizedRequests m;
         bandwidthSaved :=
           if wasOptimized then
             match originalSize, compressedSize with
             | Some o, Some c => (bandwidthSaved m + Z.max 0 (o - c))%Z
             | _, _ => bandwidthSaved m
             end
           else bandwidthSaved m;
         propertyAccesses := propertyAccesses m |}
  | PropertyAccessEv _ key =>
      {| totalRequests := totalRequests m; optimizedRequests := optimizedRequests m;
         bandwidthSaved := bandwidthSaved m;
         propertyAccesses :=
           <[key := (default 0%N (propertyAccesses m !! key) + 1)%N]> (propertyAccesses m) |}
  end.

(** [record(e)] *)
Definition record (st : WorkerState) (e : AnalyticsEvent) : WorkerState :=
  let st1 := with_buffer (with_metrics st (aggregate (metrics st) e)) (buffer st ++ [e]) in
  if bool_decide (Z.of_nat (length (buffer st1)) >= maxBatchSize st1)%Z
  then flush st1
  else schedule st1.

(** [reset()] *)
Definition reset (st : WorkerState) : WorkerState :=
  with_buffer
    (with_metrics st {| totalRequests := 0; optimizedRequests := 0; bandwidthSaved := 0;
                       propertyAccesses := ∅ |})
    [].

(** [WorkerEnvelope] *)
Inductive WorkerEnvelope :=
| MsgInit (opts : AnalyticsInitOptions)
| MsgEvents (events : list AnalyticsEvent)
| MsgFlush
| MsgMetrics
| MsgReset.

(** [self.onmessage] *)
Definition onmessage (st : WorkerState) (msg : WorkerEnvelope) : WorkerState :=
  match msg with
  | MsgInit opts =>
      let endpoint' := default "" (opt_endpoint opts) in
      {| enabled := default true (opt_enabled opts);
         endpoint := endpoint';
         batchIntervalMs := default 2000%Z (opt_batchIntervalMs opts);
         maxBatchSize := default 500%Z (opt_maxBatchSize opts);
         transport := default (if truthy (Some endpoint') then viaFetch else noop)
                        (opt_transport opts);
         buffer := buffer st; timer := timer st; metrics := metrics st;
         flushed := flushed st; inflight := inflight st; snapshots := snapshots st |}
  | MsgEvents events =>
      if negb (enabled st) then st else foldl record st events
  | MsgFlush => flush st
  | MsgMetrics =>
      {| enabled := enabled st; endpoint := endpoint st;
         batchIntervalMs := batchIntervalMs st; maxBatchSize := maxBatchSize st;
         transport := transport st; buffer := buffer st; timer := timer st;
         metrics := metrics st; flushed := flushed st; inflight := inflight st;
         snapshots := snapshots st ++ [metrics st] |}
  | MsgReset => reset st
  end.

(** What the worker reacts to: a message, its timeout, and the settling
    of a POST. *)
Inductive Signal :=
| OnMessage (msg : WorkerEnvelope)
| TimerFires
| PostSettles.

Definition react (st : WorkerState) (ev : Signal) : WorkerState :=
  match ev with
  | OnMessage msg => onmessage st msg
  | TimerFires =>
      match timer st with
      | Some Pending => flush (with_timer st (Some Fired))
      | _ => st
      end
  | PostSettles => settle st
  end.

Definition drive (evs : list Signal) : WorkerState := foldl react initial evs.

(** The events of the [events] messages, in order. *)
Definition received (evs : list Signal) : list AnalyticsEvent :=
  evs ≫= λ ev, match ev with OnMessage (MsgEvents events) => events | _ => [] end.

(** An event that neither disables nor resets the worker. *)
Definition staysOn (ev : Signal) : bool :=
  match ev with
  | OnMessage (MsgInit opts) => negb (bool_decide (opt_enabled opts = Some false))
  | OnMessage MsgReset => false
  | _ => true
  end.

(** An event that leaves the worker enabled and without a transport: an
    [init] message must ask for ["noop"], or give neither a transport nor
    an endpoint that is not empty. *)
Definition keepsNoop (ev : Signal) : bool :=
  match ev with
  | OnMessage (MsgInit opts) =>
      negb (bool_decide (opt_enabled opts = Some false)) &&
      match opt_transport opts with
      | Some noop => true
      | Some viaFetch => false
      | None => negb (truthy (Some (default "" (opt_endpoint opts))))
      end
  | _ => true
  end.

End AnalyticsWorker.

Module AnalyticsWorkerFacts.
Import JS AnalyticsWorker.

Lemma clearTimer_frame st :
  enabled (clearTimer st) = enabled st ∧ maxBatchSize (clearTimer st) = maxBatchSize st ∧
  transport (clearTimer st) = transport st ∧ endpoint (clearTimer st) = endpoint st ∧
  buffer (clearTimer st) = buffer st ∧ metrics (clearTimer st) = metrics st ∧
  flushed (clearTimer st) = flushed st ∧ inflight (clearTimer st) = inflight st ∧
  timer (clearTimer st) = None.
Proof. unfold clearTimer. destruct (timer st) eqn:Ht; by split_and!. Qed.

Lemma schedule_frame st :
  enabled (schedule st) = enabled st ∧ maxBatchSize (schedule st) = maxBatchSize st ∧
  transport (schedule st) = transport st ∧ endpoint (schedule st) = endpoint st ∧
  buffer (schedule st) = buffer st ∧ metrics (schedule st) = metrics st ∧
  flushed (schedule st) = flushed st ∧ inflight (schedule st) = inflight st ∧
  timer (schedule st) = Some (default Pending (timer st)).
Proof. unfold schedule. destruct (timer st) eqn:Ht; by split_and!. Qed.

(** What [flush] does, by cases. *)
Lemma flush_cases st :
  enabled (flush st) = enabled st ∧ maxBatchSize (flush st) = maxBatchSize st ∧
  transport (flush st) = transport st ∧ endpoint (flush st) = endpoint st ∧
  metrics (flush st) = metrics st ∧
  ((enabled st = false ∨ buffer st = []) ∧
     buffer (flush st) = buffer st ∧ flushed (flush st) = flushed st ∧
     inflight (flush st) = inflight st ∧ timer (flush st) = None
   ∨ (enabled st = true ∧ buffer st ≠ [] ∧ buffer (flush st) = [] ∧
      ((transport st = viaFetch ∧ truthy (Some (endpoint st)) = true ∧
        flushed (flush st) = flushed st ++ [(Some (endpoint st), buffer st)] ∧
        inflight (flush st) = S (inflight st) ∧ timer (flush st) = timer st)
       ∨ (¬ (transport st = viaFetch ∧ truthy (Some (endpoint st)) = true) ∧
          flushed (flush st) = flushed st ++ [(None, buffer st)] ∧
          inflight (flush st) = inflight st ∧ timer (flush st) = None)))).
Proof.
  unfold flush. destruct (enabled st) eqn:Hen; cbn [negb orb].
  2: { destruct (clearTimer_frame st) as (-> & -> & -> & -> & -> & -> & -> & -> & ->).
       split_and!; try done. left. split_and!; auto. }
  case_bool_decide as Hempty.
  { destruct (clearTimer_frame st) as (-> & -> & -> & -> & -> & -> & -> & -> & ->).
    split_and!; try done. left. split_and!; auto.
    right. by apply length_zero_iff_nil. }
  assert (Hne : buffer st ≠ []) by (intros Hb; apply Hempty; by rewrite Hb).
  destruct (transport st) eqn:Htr.
  - match goal with |- context [clearTimer ?s] =>
      destruct (clearTimer_frame s) as (-> & -> & -> & -> & -> & -> & -> & -> & ->) end.
    cbn. split_and!; try done. right. split_and!; try done. right.
    split_and!; try done. by intros [? _].
  - destruct (truthy (Some (endpoint st))) eqn:Hep.
    + cbn. split_and!; try done. right. split_and!; try done. left. by split_and!.
    + match goal with |- context [clearTimer ?s] =>
        destruct (clearTimer_frame s) as (-> & -> & -> & -> & -> & -> & -> & -> & ->) end.
      cbn. split_and!; try done. right. split_and!; try done. right.
      split_and!; try done. by intros [_ ?].
Qed.

(** The counters of the metrics keep their order and sign. *)
Definition sound (m : MetricsSnapshot) : Prop :=
  (optimizedRequests m ≤ totalRequests m)%N ∧ (0 ≤ bandwidthSaved m)%Z.

Lemma aggregate_sound m e : sound m → sound (aggregate m e).
Proof.
  intros [Hopt Hbw]. destruct e as [u w o c|u key]; [|by split]. unfold sound. cbn.
  split; [destruct w; lia|].
  destruct w; [|exact Hbw]. destruct o, c; lia.
Qed.

Lemma record_metrics st e : metrics (record st e) = aggregate (metrics st) e.
Proof.
  unfold record. case_bool_decide.
  - match goal with |- context [flush ?s] =>
      destruct (flush_cases s) as (_ & _ & _ & _ & -> & _) end. reflexivity.
  - match goal with |- context [schedule ?s] =>
      destruct (schedule_frame s) as (_ & _ & _ & _ & _ & -> & _) end. reflexivity.
Qed.

Lemma record_settings st e :
  enabled (record st e) = enabled st ∧ maxBatchSize (record st e) = maxBatchSize st ∧
  transport (record st e) = transport st ∧ endpoint (record st e) = endpoint st.
Proof.
  unfold record. case_bool_decide.
  - match goal with |- context [flush ?s] =>
      destruct (flush_cases s) as (-> & -> & -> & -> & _) end. by split_and!.
  - match goal with |- context [schedule ?s] =>
      destruct (schedule_frame s) as (-> & -> & -> & -> & _) end. by split_and!.
Qed.

Lemma records_sound events : ∀ st,
  sound (metrics st) → sound (metrics (foldl record st events)).
Proof.
  induction events as [|e events IH]; intros st Hst; [exact Hst|].
  cbn [foldl]. apply IH. rewrite record_metrics. by apply aggregate_sound.
Qed.

Lemma react_sound st ev : sound (metrics st) → sound (metrics (react st ev)).
Proof.
  intros Hst. destruct ev as [[opts|events| | |]| |]; cbn [react onmessage]; try exact Hst.
  - destruct (negb (enabled st)); [exact Hst | by apply records_sound].
  - by destruct (flush_cases st) as (_ & _ & _ & _ & -> & _).
  - unfold sound. cbn. split; lia.
  - destruct (timer st) as [[]|]; try exact Hst.
    match goal with |- context [flush ?s] =>
      destruct (flush_cases s) as (_ & _ & _ & _ & -> & _) end. exact Hst.
  - unfold settle. destruct (inflight st); [exact Hst|].
    match goal with |- context [clearTimer ?s] =>
      destruct (clearTimer_frame s) as (_ & _ & _ & _ & _ & -> & _) end. exact Hst.
Qed.

(** After [record] on an enabled worker the buffer is empty or shorter
    than the batch limit. *)
Lemma record_bound st e :
  enabled st = true →
  buffer (record st e) = [] ∨
  (Z.of_nat (length (buffer (record st e))) < maxBatchSize (record st e))%Z.
Proof.
  intros Hen. unfold record. case_bool_decide as Hfull.
  - left.
    match goal with |- context [flush ?s] =>
      destruct (flush_cases s) as (_ & _ & _ & _ & _ & [([Hoff|Hnil] & _) | (_ & _ & Hb & _)]) end.
    + cbn in Hoff. congruence.
    + cbn in Hnil. by destruct (buffer st).
    + exact Hb.
  - right.
    match goal with |- context [schedule ?s] =>
      destruct (schedule_frame s) as (_ & -> & _ & _ & -> & _) end.
    lia.
Qed.

(** X22.  However the worker is driven, by messages, its timeout and the
    settling of its POSTs, its metrics never count more optimized requests
    than requests nor a negative saving; and when an [events] message with
    at least one event has been handled by an enabled worker, the buffer
    is empty or shorter than the batch limit. *)
Theorem worker_metrics_and_buffer_bound (evs : list Signal)
    (events : list AnalyticsEvent) :
  let st := drive evs in
  let st' := drive (evs ++ [OnMessage (MsgEvents events)]) in
  (optimizedRequests (metrics st) ≤ totalRequests (metrics st))%N ∧
  (0 ≤ bandwidthSaved (metrics st))%Z ∧
  (enabled st = true → events ≠ [] →
   buffer st' = [] ∨ (Z.of_nat (length (buffer st')) < maxBatchSize st')%Z).
Proof.
  intros st st'.
  assert (Hsound : sound (metrics st)).
  { subst st. unfold drive.
    assert (H0 : sound (metrics initial)) by (unfold sound; cbn; lia).
    revert H0. generalize initial as s.
    induction evs as [|ev evs IH]; intros s Hs; [exact Hs|].
    cbn [foldl]. apply IH, react_sound, Hs. }
  destruct Hsound as [Hopt Hbw]. split; [exact Hopt|]. split; [exact Hbw|].
  intros Hen Hne. subst st'. unfold drive. rewrite foldl_app. fold (drive evs). fold st.
  cbn [foldl react onmessage]. rewrite Hen. cbn [negb].
  destruct (exists_last Hne) as (front & e & ->). rewrite foldl_app. cbn [foldl].
  apply record_bound.
  clear Hne. revert Hen. generalize st as s. clear.
  induction front as [|x front IH]; intros s Hs; [exact Hs|].
  cbn [foldl]. apply IH. by destruct (record_settings s x) as (-> & _).
Qed.

(** ** No event lost *)

Definition taken (st : WorkerState) : list AnalyticsEvent :=
  concat (snd <$> flushed st) ++ buffer st.

Lemma flush_taken st : enabled st = true → taken (flush st) = taken st.
Proof.
  intros Hen. unfold taken.
  destruct (flush_cases st)
    as (_ & _ & _ & _ & _ & [(_ & -> & -> & _) | (_ & _ & -> & [(_ & _ & -> & _) | (_ & -> & _)])]);
    [reflexivity| |]; rewrite fmap_app, concat_app; cbn; by rewrite !app_nil_r.
Qed.

Lemma record_taken st e :
  enabled st = true → enabled (record st e) = true ∧ taken (record st e) = taken st ++ [e].
Proof.
  intros Hen. destruct (record_settings st e) as (-> & _). split; [exact Hen|].
  unfold record. case_bool_decide.
  - rewrite flush_taken by exact Hen. unfold taken. cbn. by rewrite app_assoc.
  - unfold taken.
    match goal with |- context [schedule ?s] =>
      destruct (schedule_frame s) as (_ & _ & _ & _ & -> & _ & -> & _) end.
    cbn. by rewrite app_assoc.
Qed.

Lemma records_taken events : ∀ st,
  enabled st = true →
  enabled (foldl record st events) = true ∧
  taken (foldl record st events) = taken st ++ events.
Proof.
  induction events as [|e events IH]; intros st Hen.
  - cbn. by rewrite app_nil_r.
  - cbn [foldl]. destruct (record_taken st e Hen) as [Hen' Heq].
    destruct (IH _ Hen') as [Hen'' ->]. split; [exact Hen''|].
    by rewrite Heq, <- app_assoc.
Qed.

Lemma received_cons ev evs : received (ev :: evs) = received [ev] ++ received evs.
Proof. unfold received. cbn. by rewrite app_nil_r. Qed.

Lemma react_taken st ev :
  enabled st = true → staysOn ev = true →
  enabled (react st ev) = true ∧ taken (react st ev) = taken st ++ received [ev].
Proof.
  intros Hen Hev.
  destruct ev as [[opts|events| | |]| |]; cbn [react onmessage].
  - change (received [OnMessage (MsgInit opts)]) with (@nil AnalyticsEvent).
    rewrite app_nil_r. cbn in Hev. split; [|reflexivity]. cbn.
    by destruct (opt_enabled opts) as [[]|].
  - change (received [OnMessage (MsgEvents events)]) with (events ++ []).
    rewrite app_nil_r, Hen. cbn [negb]. by apply records_taken.
  - change (received [OnMessage MsgFlush]) with (@nil AnalyticsEvent). rewrite app_nil_r.
    split; [by destruct (flush_cases st) as (-> & _) | by apply flush_taken].
  - change (received [OnMessage MsgMetrics]) with (@nil AnalyticsEvent).
    rewrite app_nil_r. by split.
  - discriminate.
  - change (received [TimerFires]) with (@nil AnalyticsEvent). rewrite app_nil_r.
    destruct (timer st) as [[]|]; [|by split..].
    split.
    + match goal with |- context [flush ?s] =>
        destruct (flush_cases s) as (-> & _) end. exact Hen.
    + by rewrite flush_taken.
  - change (received [PostSettles]) with (@nil AnalyticsEvent). rewrite app_nil_r.
    unfold settle. destruct (inflight st); [by split|].
    match goal with |- context [clearTimer ?s] =>
      destruct (clearTimer_frame s) as (He & _ & _ & _ & Hb & _ & Hf & _) end.
    split; [by rewrite He|]. unfold taken. by rewrite Hb, Hf.
Qed.

(** X23.  No event is lost or taken twice while the worker is neither
    disabled nor reset: the batches [flush] has taken out of the buffer, in
    order, followed by the buffer, are exactly the events of the [events]
    messages received. *)
Theorem worker_takes_each_event_once (evs : list Signal) :
  Forall (λ ev, staysOn ev = true) evs →
  concat (snd <$> flushed (drive evs)) ++ buffer (drive evs) = received evs.
Proof.
  intros Hevs. change (taken (drive evs) = received evs). unfold drive.
  assert (H0 : enabled initial = true ∧ taken initial = []) by done.
  change (received evs) with ([] ++ received evs).
  destruct H0 as [Hen <-]. revert Hen. generalize initial as st.
  induction Hevs as [|ev evs Hev Hevs IH]; intros st Hen.
  - cbn. by rewrite app_nil_r.
  - cbn [foldl]. destruct (react_taken st ev Hen Hev) as [Hen' Heq].
    rewrite (IH _ Hen'), Heq, (received_cons ev evs). by rewrite app_assoc.
Qed.

(** ** Without a transport *)

(** With no POST to wait for, a call of [flush] runs to its end: nothing
    is in flight, no timeout that has fired is kept, every batch taken is
    dropped, and a buffer that is not empty has its timeout pending. *)
Definition idle (st : WorkerState) : Prop :=
  enabled st = true ∧ transport st = noop ∧ inflight st = 0 ∧
  Forall (λ b, b.1 = None) (flushed st) ∧
  (timer st = None ∨ timer st = Some Pending) ∧
  (buffer st ≠ [] → timer st = Some Pending).

Lemma flush_idle st :
  enabled st = true → transport st = noop → inflight st = 0 →
  Forall (λ b, b.1 = None) (flushed st) →
  idle (flush st).
Proof.
  intros Hen Htr Hin Hfl. unfold idle.
  destruct (flush_cases st) as (-> & _ & -> & _ & _ & Hcases).
  split; [exact Hen|]. split; [exact Htr|].
  destruct Hcases as [([Hoff|Hnil] & -> & -> & -> & ->)
                     | (_ & _ & -> & [(Hf & _) | (_ & -> & -> & ->)])].
  - congruence.
  - rewrite Hnil. split_and!; [exact Hin | exact Hfl | by left | by intros ?].
  - congruence.
  - split_and!; [exact Hin | | by left | by intros ?].
    apply Forall_app. split; [exact Hfl | by constructor].
Qed.

Lemma record_idle st e : idle st → idle (record st e).
Proof.
  intros (Hen & Htr & Hin & Hfl & Htimer & Hbuf). unfold record. case_bool_decide.
  - by apply flush_idle.
  - unfold idle.
    match goal with |- context [schedule ?s] =>
      destruct (schedule_frame s) as (-> & _ & -> & _ & -> & _ & -> & -> & ->) end.
    cbn. split_and!; try done.
    + right. by destruct Htimer as [->| ->].
    + intros _. by destruct Htimer as [->| ->].
Qed.

Lemma react_idle st ev : idle st → keepsNoop ev = true → idle (react st ev).
Proof.
  intros Hst Hev. pose proof Hst as (Hen & Htr & Hin & Hfl & Htimer & Hbuf).
  destruct ev as [[opts|events| | |]| |]; cbn [react onmessage].
  - unfold keepsNoop in Hev. apply andb_true_iff in Hev as [Hon Hnoop].
    unfold idle. cbn [enabled transport inflight flushed timer buffer].
    split_and!; try done.
    + by destruct (opt_enabled opts) as [[]|].
    + destruct (opt_transport opts) as [[]|]; [reflexivity | discriminate |].
      cbn [default]. apply negb_true_iff in Hnoop. by rewrite Hnoop.
  - rewrite Hen. cbn [negb]. clear Hev. revert st Hst Hen Htr Hin Hfl Htimer Hbuf.
    induction events as [|e events IH]; intros st Hst _ _ _ _ _ _; [exact Hst|].
    cbn [foldl]. pose proof (record_idle st e Hst) as Hst'.
    pose proof Hst' as (? & ? & ? & ? & ? & ?). by apply IH.
  - by apply flush_idle.
  - exact Hst.
  - unfold idle. cbn. split_and!; try done.
  - destruct (timer st) as [[]|] eqn:Ht; try exact Hst.
    by apply flush_idle.
  - unfold settle. rewrite Hin. exact Hst.
Qed.

(** X24.  With the transport the worker starts with (no POST is made), and
    as long as no [init] message disables the worker or gives it a
    transport, a buffer that is not empty always has its timeout pending,
    so that what is buffered is flushed when it fires; every batch taken
    out of the buffer is dropped without a request, and nothing is ever in
    flight. *)
Theorem noop_worker_keeps_its_timeout (evs : list Signal) :
  Forall (λ ev, keepsNoop ev = true) evs →
  let st := drive evs in
  (buffer st ≠ [] → timer st = Some Pending) ∧
  Forall (λ b, b.1 = None) (flushed st) ∧
  inflight st = 0.
Proof.
  intros Hevs st.
  assert (Hidle : idle st).
  { subst st. unfold drive.
    assert (H0 : idle initial).
    { unfold idle. cbn. split_and!; try done. by left. }
    revert H0. generalize initial as s.
    induction Hevs as [|ev evs Hev Hevs IH]; intros s Hs; [exact Hs|].
    cbn [foldl]. apply IH. by apply react_idle. }
  destruct Hidle as (_ & _ & Hin & Hfl & _ & Hbuf). by split_and!.
Qed.

(** ** A run *)

Definition sampleEvents : list AnalyticsEvent :=
  [RequestEv "https://api.example.com/users/2" true (Some 100%Z) (Some 40%Z);
   PropertyAccessEv "https://api.example.com/users/2" "data";
   PropertyAccessEv "https://api.example.com/users/2" "data.user"].

(** Batches of two, POSTed to an endpoint. *)
Definition posting : AnalyticsInitOptions :=
  {| opt_enabled := None; opt_endpoint := Some "/synpatico/metrics";
     opt_batchIntervalMs := None; opt_maxBatchSize := Some 2%Z; opt_transport := None |}.

Definition dropping : AnalyticsInitOptions :=
  {| opt_enabled := None; opt_endpoint := None; opt_batchIntervalMs := None;
     opt_maxBatchSize := Some 2%Z; opt_transport := None |}.

Lemma worker_metrics_and_buffer_bound_witness :
  let st' := drive ([OnMessage (MsgInit posting)] ++ [OnMessage (MsgEvents sampleEvents)]) in
  length (buffer st') = 1 ∧ maxBatchSize st' = 2%Z ∧
  (buffer st' = [] ∨ (Z.of_nat (length (buffer st')) < maxBatchSize st')%Z).
Proof.
  intros st'. split; [reflexivity|]. split; [reflexivity|].
  apply (worker_metrics_and_buffer_bound [OnMessage (MsgInit posting)] sampleEvents);
    [reflexivity | discriminate].
Defined.

Lemma worker_takes_each_event_once_witness :
  let evs := [OnMessage (MsgInit posting); OnMessage (MsgEvents sampleEvents);
              PostSettles; TimerFires; OnMessage (MsgEvents sampleEvents)] in
  length (flushed (drive evs)) = 3 ∧ buffer (drive evs) = [] ∧
  concat (snd <$> flushed (drive evs)) ++ buffer (drive evs) = sampleEvents ++ sampleEvents.
Proof.
  intros evs. split; [reflexivity|]. split; [reflexivity|].
  apply (worker_takes_each_event_once evs). repeat constructor.
Defined.

Lemma noop_worker_keeps_its_timeout_witness :
  let st := drive [OnMessage (MsgInit dropping); OnMessage (MsgEvents sampleEvents)] in
  length (buffer st) = 1 ∧ timer st = Some Pending ∧
  flushed st = [(None, take 2 sampleEvents)] ∧ inflight st = 0.
Proof.
  intros st.
  destruct (noop_worker_keeps_its_timeout
              [OnMessage (MsgInit dropping); OnMessage (MsgEvents sampleEvents)])
    as (Htimer & _ & Hin).
  - repeat constructor.
  - split; [reflexivity|]. split; [apply Htimer; discriminate|].
    split; [reflexivity | exact Hin].
Defined.

End AnalyticsWorkerFacts.

(* ===================================================================== *)
(** * The monkey patch: when a request is sent with the negotiation header *)
(* ===================================================================== *)

Module MonkeyPatch.
Import JS Monkey.

Abbreviation Q := QArith_base.Q.

(** [a < b] and [a > b] on numbers. *)
Definition ltb (a b : Q) : bool := negb (QArith_base.Qle_bool b a).
Definition gtb (a b : Q) : bool := ltb b a.

(** The fields of [CONFIG] that the request side of the patch reads. *)
Record Config := mkConfig {
  include : option (string → bool);
  exclude : option (string → bool);
  headerAccept : string;
  headerAgent : string;
  sampleRate : Q
}.

(** [{ ...DEFAULTS, include: () => true, exclude: () => false }] *)
Definition initialConfig : Config :=
  {| include := Some (λ _, true); exclude := Some (λ _, false);
     headerAccept := "X-Synpatico-Accept-ID"; headerAgent := "X-Synpatico-Agent";
     sampleRate := QArith_base.inject_Z 1 |}.

(** [Partial<MonkeyConfig>], the same fields: a key is absent ([None]) or
    present; [include] and [exclude] may be present with the value
    [undefined]. *)
Record PartialConfig := mkPartial {
  cfg_include : option (option (string → bool));
  cfg_exclude : option (option (string → bool));
  cfg_headerAccept : option string;
  cfg_headerAgent : option string;
  cfg_sampleRate : option Q
}.

(** The module's [ENABLED], [CONFIG] and [registry]; of an entry of the
    registry the request side reads [def.id]. *)
Record PatchState := mkPatchState {
  ENABLED : bool;
  CONFIG : Config;
  registry : gmap string string
}.

Definition initialState : PatchState :=
  {| ENABLED := true; CONFIG := initialConfig; registry := ∅ |}.

(** [configure(cfg)]: [{ ...CONFIG, ...cfg, headerAccept: cfg.headerAccept ??
    CONFIG.headerAccept, ... }] *)
Definition configure (cfg : PartialConfig) (st : PatchState) : PatchState :=
  {| ENABLED := ENABLED st;
     CONFIG := {| include := default (include (CONFIG st)) (cfg_include cfg);
                  exclude := default (exclude (CONFIG st)) (cfg_exclude cfg);
                  headerAccept := default (headerAccept (CONFIG st)) (cfg_headerAccept cfg);
                  headerAgent := default (headerAgent (CONFIG st)) (cfg_headerAgent cfg);
                  sampleRate := default (sampleRate (CONFIG st)) (cfg_sampleRate cfg) |};
     registry := registry st |}.

(** [enable()], [disable()] *)
Definition enable (st : PatchState) : PatchState :=
  {| ENABLED := true; CONFIG := CONFIG st; registry := registry st |}.
Definition disable (st : PatchState) : PatchState :=
  {| ENABLED := false; CONFIG := CONFIG st; registry := registry st |}.

(** [registry.set(endpointKey, { def, pathOrdinals })], as the learning
    phase does. *)
Definition learn (key id : string) (st : PatchState) : PatchState :=
  {| ENABLED := ENABLED st; CONFIG := CONFIG st; registry := <[key := id]> (registry st) |}.

(** [f?.(url)] as a condition. *)
Definition accepts (f : option (string → bool)) (url : string) : bool :=
  match f with
  | Some g => g url
  | None => false
  end.

(** [shouldOptimize(url)]; [random] is what [Math.random()] gives when it
    is called. *)
Definition shouldOptimize (st : PatchState) (url : string) (random : Q) : bool :=
  if negb (ENABLED st) then false
  else if accepts (exclude (CONFIG st)) url then false
  else if accepts (include (CONFIG st)) url then false
  else
    let rate := sampleRate (CONFIG st) in
    if ltb rate (QArith_base.inject_Z 1) && gtb random rate then false
    else true.

Section WithURL.
Variable URL_parse : string → option URL.
Variable URL_resolve : string → option URL.

(** The headers of the [reqInit] that [patchedFetch] hands to the native
    [fetch]: those of [init], with the negotiation header set when
    [shouldOptimize(urlStr) && reg].  For an input that is a string or a
    URL these are the headers of the request; a [Request] object has
    headers of its own, which [Input] does not hold and which the native
    [fetch] replaces by those of [reqInit] when it has any. *)
Definition patchedFetch_headers (st : PatchState) (input : Input) (init : RequestInit)
    (random : Q) : Headers :=
  let urlStr := String_of input in
  let endpointKey := registryKey URL_parse URL_resolve input in
  match registry st !! endpointKey with
  | Some id =>
      if shouldOptimize st urlStr random
      then Headers_set (init_headers init) (headerAccept (CONFIG st)) id
      else init_headers init
  | None => init_headers init
  end.

(** The patched [send] of an XHR opened on [finalUrl]: the header it sets
    before the native [send], if any. *)
Definition send_header (st : PatchState) (finalUrl : string) (random : Q)
    : option (string * string) :=
  let key := registryKey URL_parse URL_resolve (InString finalUrl) in
  match registry st !! key with
  | Some id =>
      if shouldOptimize st finalUrl random then Some (headerAccept (CONFIG st), id)
      else None
  | None => None
  end.

End WithURL.

(** What the application and the patch do to the module's state. *)
Inductive Command :=
| Configure (cfg : PartialConfig)
| Enable
| Disable
| Learn (key id : string).

Definition execute (st : PatchState) (op : Command) : PatchState :=
  match op with
  | Configure cfg => configure cfg st
  | Enable => enable st
  | Disable => disable st
  | Learn key id => learn key id st
  end.

Definition executed (ops : list Command) : PatchState := foldl execute initialState ops.

(** An operation that leaves [CONFIG.include] as it is. *)
Definition keepsInclude (op : Command) : bool :=
  match op with
  | Configure cfg => bool_decide (cfg_include cfg = None)
  | _ => true
  end.

End MonkeyPatch.

Module MonkeyPatchFacts.
Import JS Monkey MonkeyPatch.

Lemma shouldOptimize_included st url random :
  accepts (include (CONFIG st)) url = true → shouldOptimize st url random = false.
Proof.
  intros Hin. unfold shouldOptimize. rewrite Hin.
  destruct (negb _); [reflexivity|]. by destruct (accepts (exclude _) url).
Qed.

Lemma executed_keeps_include ops :
  Forall (λ op, keepsInclude op = true) ops →
  ∀ url, accepts (include (CONFIG (executed ops))) url = true.
Proof.
  intros Hops url. unfold executed.
  assert (H0 : accepts (include (CONFIG initialState)) url = true) by reflexivity.
  revert H0. generalize initialState as st.
  induction Hops as [|op ops Hop Hops IH]; intros st Hst; [exact Hst|].
  cbn [foldl]. apply IH. destruct op as [cfg| | |key id]; cbn [execute]; try exact Hst.
  cbn in Hop. apply bool_decide_eq_true_1 in Hop.
  unfold configure. cbn [CONFIG include]. rewrite Hop. exact Hst.
Qed.

(** X25.  With the configuration the module starts with, and after any
    calls of [configure] that do not give [include], of [enable] and of
    [disable], and whatever has been learned, [shouldOptimize] is false for
    every URL: the patched [fetch] hands the caller's headers on unchanged
    and the patched XHR [send] sets no header, since a URL that [include]
    accepts is never optimized. *)
Theorem default_include_never_optimizes URL_parse URL_resolve (ops : list Command) :
  Forall (λ op, keepsInclude op = true) ops →
  ∀ url input init random,
    shouldOptimize (executed ops) url random = false ∧
    patchedFetch_headers URL_parse URL_resolve (executed ops) input init random
      = init_headers init ∧
    send_header URL_parse URL_resolve (executed ops) url random = None.
Proof.
  intros Hops url input init random.
  pose proof (executed_keeps_include ops Hops) as Hin.
  split; [by apply shouldOptimize_included|]. split.
  - unfold patchedFetch_headers. destruct (_ !! _); [|reflexivity].
    by rewrite shouldOptimize_included.
  - unfold send_header. destruct (_ !! _); [|reflexivity].
    by rewrite shouldOptimize_included.
Qed.

(** X26.  For an input that is a string or a URL, so that the headers
    the caller gave are those of [init]: the patched [fetch] sets the
    negotiation header exactly when the patch is enabled, neither
    [exclude] nor [include] accepts the URL string, the sample is taken
    (the rate is at least 1, or the random number is not above it) and the
    registry has an entry under the endpoint key of the input; the header
    then carries the id of that entry, otherwise the headers are those of
    [init], and every other header of [init] is kept in both cases. *)
Theorem accept_header_iff URL_parse URL_resolve st input init random name :
  input ≠ InRequest →
  let sent := patchedFetch_headers URL_parse URL_resolve st input init random in
  let key := registryKey URL_parse URL_resolve input in
  let optimized :=
    ENABLED st = true ∧ accepts (exclude (CONFIG st)) (String_of input) = false ∧
    accepts (include (CONFIG st)) (String_of input) = false ∧
    (ltb (sampleRate (CONFIG st)) (QArith_base.inject_Z 1) = false ∨
     gtb random (sampleRate (CONFIG st)) = false) ∧
    is_Some (registry st !! key) in
  (optimized → Headers_get sent (headerAccept (CONFIG st)) = registry st !! key) ∧
  (¬ optimized → sent = init_headers init) ∧
  (toLowerCase name ≠ toLowerCase (headerAccept (CONFIG st)) →
   Headers_get sent name = Headers_get (init_headers init) name).
Proof.
  intros _ sent key optimized. subst sent key optimized. unfold patchedFetch_headers.
  destruct (registry st !! _) as [id|] eqn:Hreg.
  - unfold shouldOptimize.
    destruct (ENABLED st); cbn [negb].
    2: { split; [by intros ([=] & _)|]. by split. }
    destruct (accepts (exclude _) _).
    { split; [by intros (_ & [=] & _)|]. by split. }
    destruct (accepts (include _) _).
    { split; [by intros (_ & _ & [=] & _)|]. by split. }
    destruct (ltb _ _) eqn:Hlt; cbn [andb].
    + destruct (gtb _ _) eqn:Hgt.
      * split; [by intros (_ & _ & _ & [[=]|[=]] & _)|]. by split.
      * split; [intros _; apply lookup_insert_eq|].
        split; [intros Hno; exfalso; apply Hno; by eauto 10|].
        intros Hname. unfold Headers_get, Headers_set. by rewrite lookup_insert_ne.
    + split; [intros _; apply lookup_insert_eq|].
      split; [intros Hno; exfalso; apply Hno; by eauto 10|].
      intros Hname. unfold Headers_get, Headers_set. by rewrite lookup_insert_ne.
  - split; [by intros (_ & _ & _ & _ & [? [=]])|]. by split.
Qed.

(** The patch after learning the endpoint of the scenario and a call of
    [configure] that removes [exclude]: the request for the learned
    endpoint goes out with the caller's headers only. *)
Lemma default_include_never_optimizes_witness :
  let st := executed [Learn "https://api.example.com/users" "sid:learned";
                     Configure {| cfg_include := None; cfg_exclude := Some None;
                                  cfg_headerAccept := None; cfg_headerAgent := None;
                                  cfg_sampleRate := None |};
                     Enable] in
  registry st !! registryKey Reference.URL_parse Reference.URL_parse
                   (InString Scenarios.url) = Some "sid:learned" ∧
  patchedFetch_headers Reference.URL_parse Reference.URL_parse st
    (InString Scenarios.url) Scenarios.authInit (QArith_base.inject_Z 0)
    = init_headers Scenarios.authInit.
Proof.
  intros st. split; [vm_compute; reflexivity|].
  refine (proj1 (proj2 (default_include_never_optimizes Reference.URL_parse
                          Reference.URL_parse _ _ Scenarios.url (InString Scenarios.url)
                          Scenarios.authInit (QArith_base.inject_Z 0)))).
  repeat constructor.
Defined.

(** The patch after learning the endpoint of the scenario and a call of
    [configure] with [include: undefined]: the request for the learned
    endpoint goes out with the negotiation header, and with the
    Authorization header the caller gave. *)
Lemma accept_header_iff_witness :
  let st := executed [Learn "https://api.example.com/users" "sid:learned";
                     Configure {| cfg_include := Some None; cfg_exclude := None;
                                  cfg_headerAccept := None; cfg_headerAgent := None;
                                  cfg_sampleRate := None |}] in
  let sent := patchedFetch_headers Reference.URL_parse Reference.URL_parse st
                (InString Scenarios.url) Scenarios.authInit (QArith_base.inject_Z 0) in
  shouldOptimize st Scenarios.url (QArith_base.inject_Z 0) = true ∧
  Headers_get sent "X-Synpatico-Accept-ID" = Some "sid:learned" ∧
  Headers_get sent "Authorization" = Some "Bearer t" ∧
  sent ≠ init_headers Scenarios.authInit.
Proof.
  intros st sent.
  assert (Hstring : InString Scenarios.url ≠ InRequest) by discriminate.
  destruct (accept_header_iff Reference.URL_parse Reference.URL_parse st
              (InString Scenarios.url) Scenarios.authInit (QArith_base.inject_Z 0)
              "Authorization" Hstring) as (Hset & _ & Hkept).
  split; [vm_compute; reflexivity|].
  split.
  { etrans; [apply Hset|vm_compute; reflexivity].
    split; [vm_compute; reflexivity|]. split; [vm_compute; reflexivity|].
    split; [vm_compute; reflexivity|]. split; [left; vm_compute; reflexivity|].
    exists "sid:learned". vm_compute; reflexivity. }
  split.
  { etrans; [apply Hkept; vm_compute; discriminate|vm_compute; reflexivity]. }
  intros Heq. assert (Hno : Headers_get sent "X-Synpatico-Accept-ID" = None)
    by (rewrite Heq; vm_compute; reflexivity).
  vm_compute in Hno. discriminate Hno.
Defined.

End MonkeyPatchFacts.

(* ===================================================================== *)
(** * src/patch.ts: patchGlobals and the unpatch functions it hands out *)
(* ===================================================================== *)

Module PatchGlobals.

(** What [window.fetch] is: the page's own [fetch], or the [boundFetch]
    of the core that the n-th call of [patchGlobals] created. *)
Inductive FetchImpl := NativeFetch | BoundFetch (core : nat).

(** What [XMLHttpRequest.prototype.open] and [send] are: the page's own
    methods, or the functions installed by the n-th call. *)
Inductive XhrImpl := NativeXhr | PatchedXhr (core : nat).

(** An [unpatch] closure: the [originalWindowFetch] and the
    [restoreXhrOpen], [restoreXhrSend] it has closed over (these two are
    set together, or both undefined). *)
Record Unpatch := mkUnpatch {
  originalWindowFetch : FetchImpl;
  restoreXhr : option (XhrImpl * XhrImpl)
}.

(** The globals [patchGlobals] reads and writes, in a browser; [xhr] is
    [None] where [XMLHttpRequest] is not defined.  [cores] counts the calls
    of [createCore]. *)
Record Window := mkWindow {
  fetch : FetchImpl;
  xhr : option (XhrImpl * XhrImpl);
  _synpaticoPatched : bool;
  _synpaticoUnpatch : option Unpatch;
  cores : nat
}.

(** [PatchHandle]; an [unpatch] of [None] is the function [() => {}]. *)
Record PatchHandle := mkHandle {
  isPatched : bool;
  unpatch : option Unpatch
}.

(** A page before any patch. *)
Definition pristine (hasXhr : bool) (n : nat) : Window :=
  {| fetch := NativeFetch;
     xhr := if hasXhr then Some (NativeXhr, NativeXhr) else None;
     _synpaticoPatched := false; _synpaticoUnpatch := None; cores := n |}.

(** [patchGlobals(options)] where [window] is defined. *)
Definition patchGlobals (w : Window) : PatchHandle * Window :=
  let core := cores w in
  if _synpaticoPatched w then
    ({| isPatched := true; unpatch := _synpaticoUnpatch w |},
     {| fetch := fetch w; xhr := xhr w; _synpaticoPatched := _synpaticoPatched w;
        _synpaticoUnpatch := _synpaticoUnpatch w; cores := S core |})
  else
    let u := {| originalWindowFetch := fetch w; restoreXhr := xhr w |} in
    ({| isPatched := true; unpatch := Some u |},
     {| fetch := BoundFetch core;
        xhr := match xhr w with
               | Some _ => Some (PatchedXhr core, PatchedXhr core)
               | None => None
               end;
        _synpaticoPatched := true; _synpaticoUnpatch := Some u; cores := S core |}).

(** A call of an [unpatch] function. *)
Definition runUnpatch (u : option Unpatch) (w : Window) : Window :=
  match u with
  | None => w
  | Some u =>
      {| fetch := originalWindowFetch u;
         xhr := match restoreXhr u with
                | Some methods => Some methods
                | None => xhr w
                end;
         _synpaticoPatched := false; _synpaticoUnpatch := None; cores := cores w |}
  end.

(** The page and the handles the application holds. *)
Record Page := mkPage {
  window : Window;
  handles : list PatchHandle
}.

(** What the application does: it calls [patchGlobals] and keeps the
    handle, or calls the [unpatch] of the i-th handle it holds. *)
Inductive Step :=
| CallPatchGlobals
| CallUnpatch (i : nat).

Definition stepPage (p : Page) (s : Step) : Page :=
  match s with
  | CallPatchGlobals =>
      let (h, w) := patchGlobals (window p) in
      {| window := w; handles := handles p ++ [h] |}
  | CallUnpatch i =>
      match handles p !! i with
      | Some h => {| window := runUnpatch (unpatch h) (window p); handles := handles p |}
      | None => p
      end
  end.

Definition browse (hasXhr : bool) (steps : list Step) : Page :=
  foldl stepPage {| window := pristine hasXhr 0; handles := [] |} steps.

End PatchGlobals.

Module PatchGlobalsFacts.
Import PatchGlobals.

(** An [unpatch] closure that gives the page its own functions back. *)
Definition restoresNative (hasXhr : bool) (u : Unpatch) : Prop :=
  originalWindowFetch u = NativeFetch ∧
  restoreXhr u = if hasXhr then Some (NativeXhr, NativeXhr) else None.

(** The page is as it was before any patch, or under exactly one patch
    whose [unpatch] gives the page its own functions back; and so does the
    [unpatch] of every handle. *)
Definition settled (hasXhr : bool) (p : Page) : Prop :=
  (window p = pristine hasXhr (cores (window p)) ∨
   ∃ core u,
     core < cores (window p) ∧ restoresNative hasXhr u ∧
     window p = {| fetch := BoundFetch core;
                   xhr := if hasXhr then Some (PatchedXhr core, PatchedXhr core) else None;
                   _synpaticoPatched := true; _synpaticoUnpatch := Some u;
                   cores := cores (window p) |}) ∧
  Forall (λ h, isPatched h = true ∧ ∃ u, unpatch h = Some u ∧ restoresNative hasXhr u)
    (handles p).

Lemma runUnpatch_restores hasXhr u w :
  restoresNative hasXhr u →
  (xhr w = None ↔ hasXhr = false) →
  runUnpatch (Some u) w = pristine hasXhr (cores w).
Proof.
  intros [Hf Hx] Hw. unfold runUnpatch, pristine. rewrite Hf, Hx.
  destruct hasXhr; [reflexivity|]. by rewrite (proj2 Hw eq_refl).
Qed.

Lemma stepPage_settled hasXhr p s : settled hasXhr p → settled hasXhr (stepPage p s).
Proof.
  destruct p as [w hs]. unfold settled. cbn [window handles]. intros [Hw Hh].
  destruct s as [|i]; cbn [stepPage window handles].
  - unfold patchGlobals. destruct Hw as [Hw | (core & u & Hlt & Hu & Hw)]; rewrite Hw.
    + cbn. split.
      * right. exists (cores w), {| originalWindowFetch := NativeFetch;
                 restoreXhr := if hasXhr then Some (NativeXhr, NativeXhr) else None |}.
        split; [lia|]. split; [by split|]. by destruct hasXhr.
      * apply Forall_app. split; [exact Hh|]. constructor; [|constructor].
        split; [reflexivity|]. eexists. split; [reflexivity | by split].
    + cbn. split.
      * right. exists core, u. split; [lia|]. by split.
      * apply Forall_app. split; [exact Hh|]. constructor; [|constructor].
        split; [reflexivity|]. by exists u.
  - destruct (hs !! i) as [h|] eqn:Hi; cbn [window handles]; [|by split].
    split; [|exact Hh]. left.
    destruct (proj1 (Forall_lookup _ _) Hh i h Hi) as (_ & u & -> & Hu).
    rewrite (runUnpatch_restores hasXhr u _ Hu); [reflexivity|].
    destruct Hw as [-> | (core & u' & _ & _ & ->)]; cbn; by destruct hasXhr.
Qed.

Lemma browse_settled hasXhr steps : settled hasXhr (browse hasXhr steps).
Proof.
  unfold browse.
  assert (H0 : settled hasXhr {| window := pristine hasXhr 0; handles := [] |}).
  { split; [by left | constructor]. }
  revert H0. generalize {| window := pristine hasXhr 0; handles := [] |} as p.
  induction steps as [|s steps IH]; intros p Hp; [exact Hp|].
  cbn [foldl]. apply IH, stepPage_settled, Hp.
Qed.

(** X27.  Patches never stack, and [unpatch] always restores: however
    [patchGlobals] and the [unpatch] functions of the handles it returned
    are called in a browser, [window.fetch] and the XHR methods are the
    page's own exactly when [_synpaticoPatched] is false, and are otherwise
    those of one single core; every handle says [isPatched], and calling
    the [unpatch] of any handle, at any later time, gives the page its own
    [fetch] and XHR methods back and clears both flags. *)
Theorem unpatch_always_restores (hasXhr : bool) (steps : list Step) :
  let p := browse hasXhr steps in
  (_synpaticoPatched (window p) = false ↔ fetch (window p) = NativeFetch) ∧
  (_synpaticoPatched (window p) = false ↔ window p = pristine hasXhr (cores (window p))) ∧
  (_synpaticoPatched (window p) = true →
   ∃ core, core < cores (window p) ∧ fetch (window p) = BoundFetch core ∧
           xhr (window p)
             = if hasXhr then Some (PatchedXhr core, PatchedXhr core) else None) ∧
  ∀ h, h ∈ handles p →
    isPatched h = true ∧
    runUnpatch (unpatch h) (window p) = pristine hasXhr (cores (window p)).
Proof.
  intros p. destruct (browse_settled hasXhr steps) as [Hw Hh]. fold p in Hw, Hh.
  destruct p as [w hs]. cbn [window handles] in *.
  assert (Hxhr : xhr w = None ↔ hasXhr = false).
  { destruct Hw as [-> | (core & u & _ & _ & ->)]; cbn; by destruct hasXhr. }
  split_and!.
  - destruct Hw as [-> | (core & u & _ & _ & ->)]; cbn; split; done.
  - destruct Hw as [Hw | (core & u & _ & _ & Hw)].
    + split; [done|]. intros _. by rewrite Hw.
    + split; [rewrite Hw; discriminate|]. intros Hp. rewrite Hp. reflexivity.
  - intros Hon. destruct Hw as [Hw | (core & u & Hlt & _ & Hw)].
    + rewrite Hw in Hon. discriminate.
    + exists core. split; [exact Hlt|]. by rewrite Hw.
  - intros h Hin. destruct (proj1 (Forall_forall _ _) Hh h Hin) as (Hp & u & -> & Hu).
    split; [exact Hp|]. by apply runUnpatch_restores.
Qed.

End PatchGlobalsFacts.
